(** * llm-rag: the RAG request pipeline, embedded and verified

    A shallow embedding of the NestJS/LangChain service, one module per
    source file:

    - [JS]               the fragment of JavaScript the sources rely on
                         (truthiness, [||], [typeof], [trim], [parseInt],
                         [JSON.stringify] on flat objects);
    - [NodeLlamaCpp]     the interface of the external inference engine;
    - [ModelLoader]      src/llm/modelLoader.js;
    - [LlamaAdapter]     src/llm/llamaAdapter.js ([ChatLlamaCpp]);
    - [Effects]          the calls a request makes on its collaborators;
    - [VectorStore]      src/rag/vectorStore.js;
    - [Embeddings]       src/rag/embeddings.js;
    - [ChatHandler]      src/chat/chatHandler.js;
    - [Rag]              src/rag/rag.service.ts, as a transition system
                         whose suspension points are the [await]s of the
                         code;
    - [ChatController]   src/chat/chat.controller.ts;
    - [HealthController] health/health.controller.ts;
    - [RagController]    src/rag/rag.controller.ts;
    - [Cli]              the question loop of src/index.js;
    - [DocumentLoader]   rag/documentLoader.js;
    - [Scenario]         concrete worlds and requests.

    The properties proved of them follow the definitions.

    JavaScript strings are sequences of UTF-16 code units; the embedding
    carries the code units below 256, one [ascii] each. *)

From Stdlib Require Import ZArith QArith Ascii String Bool.
From stdpp Require Import base tactics option list strings pretty gmap.

Local Open Scope Z_scope.

(** * The JavaScript fragment *)

Module JS.

(** Values that reach the request boundary (a parsed JSON body) or the
    configuration.  Numbers are the integers, the two infinities and [NaN];
    [JObj] is an object or array of which the code tests the truthiness
    only, and which has no [message] property. *)
Inductive js_value : Type :=
| JUndefined
| JNull
| JBool (b : bool)
| JNum (z : Z)
| JInfinity (negative : bool)
| JNaN
| JStr (s : string)
| JObj.

(** What a [throw] or a rejection carries: an instance of [Error] (with its
    [name] and [message]), an object that is no instance of [Error] and has
    a [message] property that is a string, or any other value. *)
Inductive thrown : Type :=
| ErrorObj (name message : string)
| ThrownObject (message : string)
| NonError (v : js_value).

Definition Error (message : string) : thrown := ErrorObj "Error" message.
Definition TypeError (message : string) : thrown := ErrorObj "TypeError" message.

(** Outcome of a call that may throw, or of an awaited promise. *)
Inductive completion (A : Type) : Type :=
| Normal (a : A)
| Throw (e : thrown).
Arguments Normal {A} a.
Arguments Throw {A} e.

Definition bind {A B : Type} (m : completion A) (k : A -> completion B)
  : completion B :=
  match m with
  | Normal a => k a
  | Throw e => Throw e
  end.

(** ToBoolean *)
Definition truthy (v : js_value) : bool :=
  match v with
  | JUndefined | JNull | JNaN => false
  | JBool b => b
  | JNum z => negb (z =? 0)
  | JInfinity _ => true
  | JStr s => negb (String.eqb s "")
  | JObj => true
  end.

(** [a || b] *)
Definition js_or (a b : js_value) : js_value :=
  if truthy a then a else b.

Definition typeof (v : js_value) : string :=
  match v with
  | JUndefined => "undefined"
  | JNull | JObj => "object"
  | JBool _ => "boolean"
  | JNum _ | JInfinity _ | JNaN => "number"
  | JStr _ => "string"
  end.

(** [error.message], the property read: on [null] and [undefined] it
    throws (the wording is the engine's), on any other value without the
    property it gives [undefined]. *)
Definition get_message (error : thrown) : completion js_value :=
  match error with
  | ErrorObj _ message | ThrownObject message => Normal (JStr message)
  | NonError JUndefined =>
      Throw (TypeError "Cannot read properties of undefined (reading 'message')")
  | NonError JNull =>
      Throw (TypeError "Cannot read properties of null (reading 'message')")
  | NonError _ => Normal JUndefined
  end.

(** WhiteSpace and LineTerminator code units below 256:
    TAB, LF, VT, FF, CR, SP and NBSP. *)
Definition is_white_space (c : ascii) : bool :=
  let n := nat_of_ascii c in
  ((9 <=? n) && (n <=? 13) || (n =? 32) || (n =? 160))%nat.

Fixpoint trimStart (s : string) : string :=
  match s with
  | EmptyString => EmptyString
  | String c r => if is_white_space c then trimStart r else s
  end.

Fixpoint trimEnd (s : string) : string :=
  match s with
  | EmptyString => EmptyString
  | String c r =>
      let r' := trimEnd r in
      if is_white_space c && String.eqb r' "" then EmptyString
      else String c r'
  end.

(** [String.prototype.trim] *)
Definition trim (s : string) : string := trimEnd (trimStart s).

(** ** [parseInt(string)] with the radix argument omitted *)

Definition digit_value (radix : Z) (c : ascii) : option Z :=
  let n := Z.of_nat (nat_of_ascii c) in
  let d :=
    if (48 <=? n) && (n <=? 57) then Some (n - 48)
    else if (97 <=? n) && (n <=? 122) then Some (n - 87)
    else if (65 <=? n) && (n <=? 90) then Some (n - 55)
    else None in
  match d with
  | Some v => if v <? radix then Some v else None
  | None => None
  end.

(** The longest prefix of radix digits, folded into its value;
    [None] when that prefix is empty. *)
Fixpoint parse_digits (radix : Z) (acc : option Z) (s : string) : option Z :=
  match s with
  | EmptyString => acc
  | String c r =>
      match digit_value radix c with
      | Some v => parse_digits radix (Some (default 0 acc * radix + v)) r
      | None => acc
      end
  end.

Definition strip_sign (s : string) : Z * string :=
  match s with
  | String "-" r => (-1, r)
  | String "+" r => (1, r)
  | _ => (1, s)
  end.

Definition strip_hex_prefix (s : string) : Z * string :=
  match s with
  | String "0" (String "x" r) | String "0" (String "X" r) => (16, r)
  | _ => (10, s)
  end.

(** The Number value for a non-negative integer: the nearest double, ties
    to the even significand, as V8 computes it from all the digits; [None]
    is [Infinity].  Below 2^53 every integer is a double. *)
Definition nearest_double (n : Z) : option Z :=
  if n <? 2 ^ 53 then Some n
  else
    let k := Z.log2 n - 52 in
    let q := n / 2 ^ k in
    let r := n mod 2 ^ k in
    let half := 2 ^ (k - 1) in
    let q' :=
      if r <? half then q
      else if half <? r then q + 1
      else if Z.even q then q else q + 1 in
    let m := q' * 2 ^ k in
    if 2 ^ 1024 <=? m then None else Some m.

Definition parseInt (input : string) : js_value :=
  let '(sign, s1) := strip_sign (trimStart input) in
  let '(radix, s2) := strip_hex_prefix s1 in
  match parse_digits radix None s2 with
  | Some n =>
      match nearest_double n with
      | Some m => JNum (sign * m)
      | None => JInfinity (sign <? 0)
      end
  | None => JNaN
  end.

(** ** [JSON.stringify] on an object whose properties are strings *)

Definition hex_digit (n : nat) : ascii :=
  ascii_of_nat (if (n <? 10)%nat then 48 + n else 87 + n)%nat.

Definition dquote : ascii := ascii_of_nat 34.

(** QuoteJSONString, one code unit. *)
Definition quote_code_unit (c : ascii) : string :=
  let n := nat_of_ascii c in
  if (n =? 34)%nat then String "\" (String dquote EmptyString)
  else if (n =? 92)%nat then "\\"
  else if (n =? 8)%nat then "\b"
  else if (n =? 9)%nat then "\t"
  else if (n =? 10)%nat then "\n"
  else if (n =? 12)%nat then "\f"
  else if (n =? 13)%nat then "\r"
  else if (n <? 32)%nat then
    "\u00" +:+ String (hex_digit (n / 16)) (String (hex_digit (n mod 16)) "")
  else String c "".

Fixpoint quote_body (s : string) : string :=
  match s with
  | EmptyString => EmptyString
  | String c r => quote_code_unit c +:+ quote_body r
  end.

Definition QuoteJSONString (s : string) : string :=
  String dquote (quote_body s) +:+ String dquote EmptyString.

(** Modelled from the spec: a text between two double quotes, which is how
    the payloads of the specification write a string that needs no
    escape. *)
Definition in_quotes (s : string) : string :=
  String dquote s +:+ String dquote EmptyString.

Definition stringify_property (kv : string * string) : string :=
  QuoteJSONString kv.1 +:+ ":" +:+ QuoteJSONString kv.2.

(** Properties are serialised in insertion order, separated by commas. *)
Definition JSON_stringify (props : list (string * string)) : string :=
  "{" +:+ String.concat "," (stringify_property <$> props) +:+ "}".

End JS.

Import JS.

(** A line feed, the [\n] of the JavaScript literals. *)
Definition LF : string := String (ascii_of_nat 10) EmptyString.

(** * node-llama-cpp, the external inference engine *)

Module NodeLlamaCpp.

(** The options object the adapter hands to a chat session; [maxTokens]
    is whatever the adapter was given, a number or not. *)
Record SamplingOptions : Type := {
  maxTokens : js_value;
  temperature : Q;
  topP : Q;
  topK : Z
}.

(** What a streaming generation does to its caller, in the order it does
    it: the [onTextChunk] callback, then the promise of [completePrompt]
    resolving or rejecting. *)
Inductive producer_action : Type :=
| OnTextChunk (chunk : string)
| Resolve
| Reject (err : thrown).

(** [LlamaChatSession]: [prompt] resolves to the whole response or
    rejects; [completePrompt] is the series of actions it performs. *)
Record LlamaChatSession : Type := {
  prompt : string -> SamplingOptions -> completion string;
  completePrompt : string -> SamplingOptions -> list producer_action
}.

Inductive Llama : Type := LlamaBinding.
Inductive LlamaModel : Type := LoadedModel.

(** A context: [getSequence()] hands out a sequence or throws, and a
    sequence is taken here as the chat session that [new LlamaChatSession]
    builds on it. *)
Record LlamaContext : Type := {
  getSequence : completion LlamaChatSession
}.

End NodeLlamaCpp.

(** * src/llm/modelLoader.js *)

Module ModelLoader.
Import NodeLlamaCpp.

(** The three module-level variables. *)
Record loader : Type := {
  llama : option Llama;
  model : option LlamaModel;
  context : option LlamaContext
}.

Definition loader_start : loader :=
  {| llama := None; model := None; context := None |}.

Definition getModel (ld : loader) : option LlamaModel := model ld.
Definition getContext (ld : loader) : option LlamaContext := context ld.

(** [cleanup] *)
Definition cleanup (ld : loader) : loader := loader_start.

(** The [await]s of [loadModel]. *)
Inductive load_pc : Type :=
| AtGetLlama
| AtLlamaLoadModel
| AtCreateContext.

(** [loadModel] from the test of [model] on, and from the test of
    [context] on: [Some pc] when it suspends, [None] when it returns. *)
Definition after_context (ld : loader) : option load_pc :=
  match context ld with
  | None => Some AtCreateContext
  | Some _ => None
  end.

Definition after_model (ld : loader) : option load_pc :=
  match model ld with
  | None => Some AtLlamaLoadModel
  | Some _ => after_context ld
  end.

(** [loadModel(modelPath)] up to its first suspension. *)
Definition loadModel (ld : loader) : option load_pc :=
  match llama ld with
  | None => Some AtGetLlama
  | Some _ => after_model ld
  end.

(** What the engine answers to the three calls. *)
Record load_answers : Type := {
  ans_getLlama : completion Llama;
  ans_loadModel : completion LlamaModel;
  ans_createContext : completion LlamaContext
}.

(** [loadModel] resumed at [pc]: the module variables afterwards, and
    where it suspends next, returns ([Normal None]) or rethrows. *)
Definition loadModel_resume (pc : load_pc) (ans : load_answers) (ld : loader)
  : loader * completion (option load_pc) :=
  match pc with
  | AtGetLlama =>
      match ans_getLlama ans with
      | Normal l =>
          let ld' := {| llama := Some l; model := model ld;
                        context := context ld |} in
          (ld', Normal (after_model ld'))
      | Throw e => (ld, Throw e)
      end
  | AtLlamaLoadModel =>
      match ans_loadModel ans with
      | Normal m =>
          let ld' := {| llama := llama ld; model := Some m;
                        context := context ld |} in
          (ld', Normal (after_context ld'))
      | Throw e => (ld, Throw e)
      end
  | AtCreateContext =>
      match ans_createContext ans with
      | Normal c =>
          ({| llama := llama ld; model := model ld; context := Some c |},
           Normal None)
      | Throw e => (ld, Throw e)
      end
  end.

(** [loadModel] run to its end against the answers of the engine, one per
    suspension: the module variables afterwards, how it settled ([None] while
    it is still suspended for want of an answer), and the calls it made on the
    engine, in order. *)
Fixpoint loadModel_from (next : option load_pc) (answers : list load_answers)
    (ld : loader) : loader * option (completion unit) * list load_pc :=
  match next with
  | None => (ld, Some (Normal tt), [])
  | Some pc =>
      match answers with
      | [] => (ld, None, [pc])
      | ans :: rest =>
          let '(ld1, r) := loadModel_resume pc ans ld in
          match r with
          | Throw e => (ld1, Some (Throw e), [pc])
          | Normal next1 =>
              let '(ld2, settled, made) := loadModel_from next1 rest ld1 in
              (ld2, settled, pc :: made)
          end
      end
  end.

Definition loadModel_run (answers : list load_answers) (ld : loader)
  : loader * option (completion unit) * list load_pc :=
  loadModel_from (loadModel ld) answers ld.

(** The calls on the engine that the module variables still want, in the
    order [loadModel] makes them. *)
Definition missing (ld : loader) : list load_pc :=
  match llama ld with Some _ => [] | None => [AtGetLlama] end
  ++ match model ld with Some _ => [] | None => [AtLlamaLoadModel] end
  ++ match context ld with Some _ => [] | None => [AtCreateContext] end.

(** The second state of the module variables holds every handle the first
    one holds. *)
Definition keeps (ld ld' : loader) : Prop :=
  (forall l, llama ld = Some l -> llama ld' = Some l)
  /\ (forall m, model ld = Some m -> model ld' = Some m)
  /\ (forall c, context ld = Some c -> context ld' = Some c).

End ModelLoader.

(** * src/llm/llamaAdapter.js *)

Module LlamaAdapter.
Import NodeLlamaCpp ModelLoader.

(** LangChain messages.  [OtherMessage] stands for the message classes
    that [_formatMessages] matches with none of its [instanceof] tests. *)
Inductive BaseMessage : Type :=
| SystemMessage (content : string)
| HumanMessage (content : string)
| AIMessage (content : string)
| OtherMessage (content : string).

Record ChatLlamaCpp : Type := {
  this_maxTokens : js_value;
  this_temperature : Q;
  chatSession : LlamaChatSession
}.

(** The constructor: it needs the model and the context that the loader
    holds, and opens a chat session on the context. *)
Definition new_ChatLlamaCpp (ld : loader) (fields_maxTokens : js_value)
    (fields_temperature : Q) : completion ChatLlamaCpp :=
  match getModel ld, getContext ld with
  | Some _, Some ctx =>
      bind (getSequence ctx)
           (fun session =>
              Normal {| this_maxTokens := js_or fields_maxTokens (JNum 512);
                        this_temperature :=
                          if Qeq_bool fields_temperature 0 then 7 # 10
                          else fields_temperature;
                        chatSession := session |})
  | _, _ =>
      Throw (Error "Model and context must be loaded before creating ChatLlamaCpp instance")
  end.

(** The [options] argument of [_generate] and [_streamResponseChunks]; a
    temperature of [None] is a property that is [undefined]. *)
Record CallOptions : Type := {
  opt_maxTokens : js_value;
  opt_temperature : option Q
}.

Definition no_options : CallOptions :=
  {| opt_maxTokens := JUndefined; opt_temperature := None |}.

Definition format_message (message : BaseMessage) : string :=
  match message with
  | SystemMessage content => "System: " +:+ content +:+ LF +:+ LF
  | HumanMessage content => "User: " +:+ content +:+ LF +:+ LF
  | AIMessage content => "Assistant: " +:+ content +:+ LF +:+ LF
  | OtherMessage _ => EmptyString
  end.

Definition _formatMessages (messages : list BaseMessage) : string :=
  fold_left (fun prompt message => prompt +:+ format_message message)
            messages EmptyString
  +:+ "Assistant:".

(** [options.maxTokens || this.maxTokens], and the rest of the options
    object both generation methods build. *)
Definition sampling (this : ChatLlamaCpp) (options : CallOptions)
  : SamplingOptions :=
  {| maxTokens := js_or (opt_maxTokens options) (this_maxTokens this);
     temperature :=
       match opt_temperature options with
       | Some t => t
       | None => this_temperature this
       end;
     topP := 9 # 10;
     topK := 40 |}.

(** The shape [{text, message}] of a generation and of a
    [ChatGenerationChunk]. *)
Record ChatGeneration : Type := {
  text : string;
  message : BaseMessage
}.

(** [_generate]: the catch clause logs and rethrows. *)
Definition _generate (this : ChatLlamaCpp) (messages : list BaseMessage)
    (options : CallOptions) : completion (list ChatGeneration) :=
  let prompt_text := _formatMessages messages in
  bind (prompt (chatSession this) prompt_text (sampling this options))
       (fun response =>
          Normal [ {| text := response; message := AIMessage response |} ]).

(** LangChain's [BaseChatModel.invoke], which the adapter inherits: it
    runs [_generate] and returns the message of the first generation. *)
Definition invoke (this : ChatLlamaCpp) (messages : list BaseMessage)
  : completion BaseMessage :=
  bind (_generate this messages no_options)
       (fun generations =>
          match generations with
          | g :: _ => Normal (message g)
          | [] => Throw (TypeError "Cannot read properties of undefined")
          end).

(** ** [_streamResponseChunks]

    The three variables the generator closes over. *)
Record adapter : Type := {
  chunkQueue : list string;
  isComplete : bool;
  streamingError : option thrown
}.

Definition adapter_start : adapter :=
  {| chunkQueue := []; isComplete := false; streamingError := None |}.

(** [onTextChunk], [.then] and [.catch] of the streaming promise. *)
Definition producer_step (a : producer_action) (st : adapter) : adapter :=
  match a with
  | OnTextChunk chunk =>
      {| chunkQueue := chunkQueue st ++ [chunk];
         isComplete := isComplete st;
         streamingError := streamingError st |}
  | Resolve =>
      {| chunkQueue := chunkQueue st;
         isComplete := true;
         streamingError := streamingError st |}
  | Reject err =>
      {| chunkQueue := chunkQueue st;
         isComplete := true;
         streamingError := Some err |}
  end.

(** What one pass of the generator body ends in. *)
Inductive turn_result : Type :=
| Yielded (chunk : ChatGeneration)
| Waited
| Finished (result : completion unit).

(** Truthiness of a caught value, for [if (streamingError)]. *)
Definition thrown_truthy (e : thrown) : bool :=
  match e with
  | ErrorObj _ _ | ThrownObject _ => true
  | NonError v => truthy v
  end.

(** [err.message] inside a template literal, for a value that is not
    [null] or [undefined] (the generator reads it of a truthy value only):
    the message of an error or of an object that has one, and the text
    [undefined] for a value without the property. *)
Definition message_text (e : thrown) : string :=
  match e with
  | ErrorObj _ m | ThrownObject m => m
  | NonError _ => "undefined"
  end.

(** One evaluation of the [while] condition and what follows it up to the
    next suspension: a [yield], the 10 ms timer, or the end of the
    generator. *)
Definition consumer_step (st : adapter) : adapter * turn_result :=
  if negb (isComplete st) || (0 <? length (chunkQueue st))%nat then
    match chunkQueue st with
    | chunk :: queue =>
        ({| chunkQueue := queue;
            isComplete := isComplete st;
            streamingError := streamingError st |},
         Yielded {| text := chunk; message := AIMessage chunk |})
    | [] => (st, Waited)
    end
  else
    match streamingError st with
    | Some err =>
        if thrown_truthy err then
          (st, Finished (Throw (Error ("Streaming error: " +:+ message_text err))))
        else (st, Finished (Normal tt))
    | None => (st, Finished (Normal tt))
    end.

(** The generator together with its producer and its consumer. *)
Inductive gen_status : Type :=
| Running
| Returned
| Failed (e : thrown).

Record stream_state : Type := {
  vars : adapter;
  pending : list producer_action;
  yields : list ChatGeneration;
  status : gen_status
}.

Inductive turn : Type :=
| ProducerTurn
| ConsumerTurn.

Definition step (t : turn) (s : stream_state) : stream_state :=
  match t with
  | ProducerTurn =>
      match pending s with
      | a :: rest =>
          {| vars := producer_step a (vars s);
             pending := rest;
             yields := yields s;
             status := status s |}
      | [] => s
      end
  | ConsumerTurn =>
      match status s with
      | Running =>
          let '(vars', r) := consumer_step (vars s) in
          {| vars := vars';
             pending := pending s;
             yields :=
               match r with
               | Yielded c => yields s ++ [c]
               | _ => yields s
               end;
             status :=
               match r with
               | Finished (Normal _) => Returned
               | Finished (Throw e) => Failed e
               | _ => Running
               end |}
      | _ => s
      end
  end.

Definition run (schedule : list turn) (s : stream_state) : stream_state :=
  fold_left (fun s t => step t s) schedule s.

(** The generator right after its synchronous prefix: the prompt is
    formatted and [completePrompt] has been started. *)
Definition _streamResponseChunks (this : ChatLlamaCpp)
    (messages : list BaseMessage) (options : CallOptions) : stream_state :=
  let prompt_text := _formatMessages messages in
  {| vars := adapter_start;
     pending := completePrompt (chatSession this) prompt_text
                  (sampling this options);
     yields := [];
     status := Running |}.

(** A producer that honours the contract of the generation call: the
    callback zero or more times, then one settlement. *)
Definition well_formed (script : list producer_action)
    (tokens : list string) (final : producer_action) : Prop :=
  script = (OnTextChunk <$> tokens) ++ [final] /\
  match final with OnTextChunk _ => False | _ => True end.

(** Modelled from the spec: the whole-response text of an equivalent
    deterministic producer (node-llama-cpp, external) is the concatenation
    of the fragments it would emit when streaming (a GenerationToken is part
    of an ordered sequence whose concatenation equals the full response). *)
Definition whole_response (tokens : list string) : string :=
  String.concat EmptyString tokens.

(** Where the generator ends for a given settlement of the producer. *)
Definition final_status (final : producer_action) : gen_status :=
  match final with
  | Reject err =>
      if thrown_truthy err
      then Failed (Error ("Streaming error: " +:+ message_text err))
      else Returned
  | _ => Returned
  end.

Definition final_error (final : producer_action) : option thrown :=
  match final with
  | Reject err => Some err
  | _ => None
  end.

(** The three stages of a stream whose producer honours the contract:
    tokens still to come, the queue being drained, the generator over. *)
Inductive stage (tokens : list string) (final : producer_action)
  (s : stream_state) : Prop :=
| Producing (rest : list string) :
    pending s = (OnTextChunk <$> rest) ++ [final] ->
    isComplete (vars s) = false ->
    streamingError (vars s) = None ->
    status s = Running ->
    (text <$> yields s) ++ chunkQueue (vars s) ++ rest = tokens ->
    stage tokens final s
| Draining :
    pending s = [] ->
    isComplete (vars s) = true ->
    streamingError (vars s) = final_error final ->
    status s = Running ->
    (text <$> yields s) ++ chunkQueue (vars s) = tokens ->
    stage tokens final s
| Over :
    pending s = [] ->
    chunkQueue (vars s) = [] ->
    status s = final_status final ->
    text <$> yields s = tokens ->
    stage tokens final s.

(** The fragments a series of producer actions pushes, in order. *)
Fixpoint pushed (actions : list producer_action) : list string :=
  match actions with
  | [] => []
  | OnTextChunk chunk :: rest => chunk :: pushed rest
  | _ :: rest => pushed rest
  end.

(** What holds of the generator whatever its producer does: the actions
    already performed, and what became of the fragments among them. *)
Definition accounted (script : list producer_action) (s : stream_state) : Prop :=
  exists performed,
    script = performed ++ pending s
    /\ (status s = Running ->
        (text <$> yields s) ++ chunkQueue (vars s) = pushed performed)
    /\ (text <$> yields s) `prefix_of` pushed performed
    /\ match status s with
       | Running => True
       | Returned => True
       | Failed e =>
           exists err, Reject err ∈ performed /\ thrown_truthy err = true
                       /\ e = Error ("Streaming error: " +:+ message_text err)
       end
    /\ (forall err, streamingError (vars s) = Some err -> Reject err ∈ performed).

End LlamaAdapter.

(** * Calls that leave the pipeline

    The request path is written in a writer-and-error monad: a computation
    returns its completion together with the calls it made on its
    collaborators, in order. *)

Module Effects.
Import LlamaAdapter.

Inductive call : Type :=
| CallGetChatHandler
| CallStreamResponse (query : string) (k : js_value)
| CallSimilaritySearch (query : string) (k : js_value)
| CallInvoke (messages : list BaseMessage).

Definition M (A : Type) : Type := completion A * list call.

Definition ret {A : Type} (a : A) : M A := (Normal a, []).

Definition raise {A : Type} (e : thrown) : M A := (Throw e, []).

#[export] Instance M_bind : MBind M := fun A B k m =>
  match m.1 with
  | Normal a => let r := k a in (r.1, m.2 ++ r.2)
  | Throw e => (Throw e, m.2)
  end.

(** A call on a collaborator: it is recorded, then it completes. *)
Definition perform {A : Type} (c : call) (r : completion A) : M A := (r, [c]).

Definition calls {A : Type} (m : M A) : list call := m.2.
Definition outcome {A : Type} (m : M A) : completion A := m.1.

End Effects.

(** * src/rag/vectorStore.js *)

Module VectorStore.
Import Effects.

Record Document : Type := {
  pageContent : string;
  source : string
}.

(** LangChain's [FaissStore], external: the one method the request path
    calls on it, and [save]. *)
Record FaissStore : Type := {
  store_similaritySearch : string -> js_value -> completion (list Document);
  store_save : completion unit
}.

(** What the file system and [FaissStore.load] answer while
    [initializeVectorStore] runs. *)
Record load_env : Type := {
  dir_exists : bool;
  mkdir : completion unit;
  path_exists : bool;
  load : completion FaissStore;
  fresh : FaissStore   (* [new FaissStore(embeddings, {})] *)
}.

(** [initializeVectorStore]: a failing load is logged as a warning, which
    reads [error.message], and falls through to the new, empty store. *)
Definition initializeVectorStore (env : load_env) : completion FaissStore :=
  bind (if dir_exists env then Normal tt else mkdir env)
       (fun _ =>
          if path_exists env then
            match load env with
            | Normal vectorStore => Normal vectorStore
            | Throw error =>
                bind (get_message error) (fun _ => Normal (fresh env))
            end
          else Normal (fresh env)).

(** What the file system answers while [saveVectorStore] runs. *)
Record save_env : Type := {
  save_dir_exists : bool;
  save_mkdir : completion unit
}.

(** [saveVectorStore]: the catch clause logs and rethrows. *)
Definition saveVectorStore (env : save_env) (vectorStore : FaissStore)
  : completion unit :=
  bind (if save_dir_exists env then Normal tt else save_mkdir env)
       (fun _ => store_save vectorStore).

(** A parameter with a default value: the default replaces [undefined]
    only. *)
Definition default_param (v d : js_value) : js_value :=
  match v with
  | JUndefined => d
  | _ => v
  end.

(** [similaritySearch(vectorStore, query, k = 3)]: the catch clause logs
    and rethrows. *)
Definition similaritySearch (vectorStore : option FaissStore)
    (query : string) (k : js_value) : M (list Document) :=
  let k := default_param k (JNum 3) in
  match vectorStore with
  | Some store =>
      perform (CallSimilaritySearch query k)
              (store_similaritySearch store query k)
  | None =>
      raise (TypeError "Cannot read properties of null (reading 'similaritySearch')")
  end.

End VectorStore.

(** * src/rag/embeddings.js *)

Module Embeddings.

(** An embedding: the numbers of [output.data], which the code copies and
    never inspects. *)
Definition vector : Type := list Q.

(** The settlement of one call of the feature-extraction pipeline, and
    when it happens: [Promise.all] rejects with the rejection that comes
    first in time. *)
Record settled : Type := {
  value : completion vector;
  at_time : nat
}.

(** [@xenova/transformers], external: loading a pipeline by model name, and
    the pipeline itself as a function of the text. *)
Record Pipeline : Type := {
  extract : string -> settled
}.

Record transformers : Type := {
  load_pipeline : string -> completion Pipeline
}.

Record XenovaEmbeddings : Type := {
  modelName : string;
  pipeline : option Pipeline
}.

(** The calls an embedder makes on the library. *)
Inductive ecall : Type :=
| LoadPipeline (name : string)
| Extract (text : string).

(** [fields.modelName || 'Xenova/all-MiniLM-L6-v2']; [None] is a property
    that is [undefined]. *)
Definition new_XenovaEmbeddings (fields_modelName : option string)
  : XenovaEmbeddings :=
  {| modelName :=
       match fields_modelName with
       | Some name =>
           if String.eqb name EmptyString then "Xenova/all-MiniLM-L6-v2" else name
       | None => "Xenova/all-MiniLM-L6-v2"
       end;
     pipeline := None |}.

(** [_initializePipeline] *)
Definition _initializePipeline (lib : transformers) (this : XenovaEmbeddings)
  : completion unit * XenovaEmbeddings * list ecall :=
  match pipeline this with
  | Some _ => (Normal tt, this, [])
  | None =>
      match load_pipeline lib (modelName this) with
      | Normal p =>
          (Normal tt, {| modelName := modelName this; pipeline := Some p |},
           [LoadPipeline (modelName this)])
      | Throw e => (Throw e, this, [LoadPipeline (modelName this)])
      end
  end.

(** [embedQuery(text)]: the catch clause logs and rethrows. *)
Definition embedQuery (lib : transformers) (this : XenovaEmbeddings)
    (text : string) : completion vector * XenovaEmbeddings * list ecall :=
  let '(ready, this1, made) := _initializePipeline lib this in
  match ready, pipeline this1 with
  | Throw e, _ => (Throw e, this1, made)
  | Normal _, Some p => (value (extract p text), this1, made ++ [Extract text])
  | Normal _, None =>
      (Throw (TypeError "this.pipeline is not a function"), this1, made)
  end.

(** The rejection that comes first in time, the earlier in the array on a
    tie. *)
Fixpoint first_rejection (results : list settled) : option (thrown * nat) :=
  match results with
  | [] => None
  | r :: rest =>
      let later := first_rejection rest in
      match value r with
      | Normal _ => later
      | Throw e =>
          match later with
          | Some (e', t') => if (t' <? at_time r)%nat then Some (e', t')
                             else Some (e, at_time r)
          | None => Some (e, at_time r)
          end
      end
  end.

(** The values of the results that are fulfilled, in the order of the
    array. *)
Definition fulfilled_values (results : list settled) : list vector :=
  omap (fun r => match value r with Normal v => Some v | Throw _ => None end)
       results.

(** [Promise.all] *)
Definition Promise_all (results : list settled) : completion (list vector) :=
  match first_rejection results with
  | Some (e, _) => Throw e
  | None => Normal (fulfilled_values results)
  end.

(** [Array.prototype.slice(start, end)] for indices within the length. *)
Definition slice {A : Type} (from to : nat) (l : list A) : list A :=
  take (to - from) (drop from l).

Definition batchSize : nat := 10.

(** The [for] loop of [embedDocuments] from index [i] on: [None] when the
    fuel runs out before the loop ends. *)
Fixpoint embed_loop (fuel : nat) (p : Pipeline) (texts : list string) (i : nat)
    (embeddings : list vector)
  : option (completion (list vector)) * list ecall :=
  match fuel with
  | O => (None, [])
  | S fuel' =>
      if (i <? length texts)%nat then
        let batch := slice i (i + batchSize) texts in
        let batchPromises := extract p <$> batch in
        match Promise_all batchPromises with
        | Normal batchEmbeddings =>
            let '(r, made) :=
              embed_loop fuel' p texts (i + batchSize)
                         (embeddings ++ batchEmbeddings) in
            (r, (Extract <$> batch) ++ made)
        | Throw e => (Some (Throw e), Extract <$> batch)
        end
      else (Some (Normal embeddings), [])
  end.

(** [embedDocuments(texts)]: the catch clause logs and rethrows.  The loop
    makes at most one pass per text, so the length of [texts] and one more is
    fuel enough. *)
Definition embedDocuments (lib : transformers) (this : XenovaEmbeddings)
    (texts : list string)
  : option (completion (list vector)) * XenovaEmbeddings * list ecall :=
  let '(ready, this1, made) := _initializePipeline lib this in
  match ready, pipeline this1 with
  | Throw e, _ => (Some (Throw e), this1, made)
  | Normal _, Some p =>
      let '(r, made1) := embed_loop (S (length texts)) p texts 0 [] in
      (r, this1, made ++ made1)
  | Normal _, None =>
      (Some (Throw (TypeError "this.pipeline is not a function")), this1, made)
  end.

End Embeddings.


(** * src/chat/chatHandler.js *)

Module ChatHandler.
Import Effects LlamaAdapter VectorStore.

(** The two fields hold whatever the constructor was given, [null]
    included. *)
Record ChatHandler : Type := {
  vectorStore : option FaissStore;
  llm : option ChatLlamaCpp
}.

(** The callback of [relevantDocs.map]. *)
Definition label_document (index : nat) (doc : Document) : string :=
  "[Document " +:+ pretty (index + 1)%nat +:+ "]" +:+ LF +:+ pageContent doc.

(** [Array.prototype.join] *)
Definition join (sep : string) (parts : list string) : string :=
  String.concat sep parts.

Definition build_context (relevantDocs : list Document) : string :=
  join (LF +:+ LF) (imap label_document relevantDocs).

Definition preamble : string :=
  "You are a helpful assistant. Use the following context to answer the user's question. If the context doesn't contain relevant information, use your knowledge to provide a helpful response.".

Definition closing : string :=
  "Answer the user's question based on the context provided above.".

Definition build_systemPrompt (context : string) : string :=
  preamble +:+ LF +:+ LF +:+ "Context:" +:+ LF +:+ context +:+ LF +:+ LF
  +:+ closing.

(** [.content] and the [.text] accessor of a LangChain message. *)
Definition content_of (m : BaseMessage) : string :=
  match m with
  | SystemMessage c | HumanMessage c | AIMessage c | OtherMessage c => c
  end.

(** [a || b] on strings. *)
Definition str_or (a b : string) : string :=
  if String.eqb a EmptyString then b else a.

(** [generateResponse(query, topK = 3)]: the catch clause logs and
    rethrows. *)
Definition generateResponse (this : ChatHandler) (query : string)
    (topK : js_value) : M string :=
  let topK := default_param topK (JNum 3) in
  relevantDocs ← similaritySearch (vectorStore this) query topK;
  let context := build_context relevantDocs in
  let systemPrompt := build_systemPrompt context in
  let messages := [SystemMessage systemPrompt; HumanMessage query] in
  result ← match llm this with
           | Some model => perform (CallInvoke messages) (invoke model messages)
           | None =>
               raise (TypeError "Cannot read properties of null (reading 'invoke')")
           end;
  let response :=
    str_or (content_of result) (str_or (content_of result) EmptyString) in
  ret response.

(** Modelled from the spec: the context block in the words of the
    specification, written without the code's [map] and [join]: the
    retrieved chunk texts in the order of the retrieval result, each under
    a label that carries its index counted from [n], one blank line between
    two chunks and none before the first or after the last. *)
Fixpoint spec_blocks (n : nat) (docs : list Document) : string :=
  match docs with
  | [] => EmptyString
  | doc :: rest =>
      "[Document " +:+ pretty n +:+ "]" +:+ LF +:+ pageContent doc
      +:+ match rest with
          | [] => EmptyString
          | _ :: _ => LF +:+ LF +:+ spec_blocks (S n) rest
          end
  end.

Definition spec_context (docs : list Document) : string := spec_blocks 1 docs.

(** An asynchronous generator as its consumer has seen it up to some
    moment: the values it has yielded so far, and then whether it has
    returned, has thrown, or has not answered the consumer's last [next()]
    yet ([SOpen]).  A generator that never ends is [SOpen] after each of its
    finite beginnings. *)
Inductive stream : Type :=
| SYield (chunk : string) (rest : stream)
| SReturn
| SThrow (e : thrown)
| SOpen.

(** The values a stream has yielded, and how it has ended, if it has. *)
Fixpoint stream_chunks (s : stream) : list string :=
  match s with
  | SYield chunk rest => chunk :: stream_chunks rest
  | SReturn | SThrow _ | SOpen => []
  end.

Fixpoint stream_end (s : stream) : option (completion unit) :=
  match s with
  | SYield _ rest => stream_end rest
  | SReturn => Some (Normal tt)
  | SThrow e => Some (Throw e)
  | SOpen => None
  end.

(** A method of an object the controller holds as [any]. *)
Inductive method : Type :=
| AsyncMethod (f : string -> js_value -> M string)
| AsyncGeneratorMethod (g : string -> js_value -> stream).

(** [new ChatHandler(vectorStore, llm)], as the properties a caller can
    look up on the instance: the class declares [generateResponse] and
    nothing else. *)
Definition new_ChatHandler (vectorStore : option FaissStore)
    (llm : option ChatLlamaCpp) : gmap string method :=
  let this := {| vectorStore := vectorStore; llm := llm |} in
  {[ "generateResponse" := AsyncMethod (generateResponse this) ]}.

End ChatHandler.

(** * src/rag/rag.service.ts

    The service is a transition system.  Its state is the fields of the
    [RagService] singleton, the module variables of the model loader, the
    promises that [_doInitialize] has returned, and the invocations of
    [_doInitialize] that are suspended at an [await].  Every [await] of an
    operation outside the repository is a suspension point; an [await] of
    one of the repository's own asynchronous functions suspends where that
    function does.  Whatever runs between two suspension points runs as one
    step, which is how a JavaScript thread runs it. *)

Module Rag.
Import NodeLlamaCpp ModelLoader LlamaAdapter VectorStore.

Record RAGConfig : Type := {
  modelPath : string;
  embeddingModel : string;
  knowledgeBaseDir : string;
  faissIndexPath : string;
  chunkSize : js_value;
  chunkOverlap : js_value;
  topK : js_value;
  maxTokens : js_value;
  temperature : Q
}.

(** [process.env.NAME || fallback] *)
Definition env_or (env : gmap string string) (name fallback : string)
  : string :=
  match env !! name with
  | Some v => if String.eqb v EmptyString then fallback else v
  | None => fallback
  end.

(** The constructor's configuration.  [parseFloat] is not modelled: the
    temperature it returns is an input. *)
Definition new_config (env : gmap string string) (parsed_temperature : Q)
  : RAGConfig :=
  {| modelPath :=
       env_or env "MODEL_PATH" "./models/rakutenai-2.0-mini-instruct-q4_k_m.gguf";
     embeddingModel := env_or env "EMBEDDING_MODEL" "Xenova/all-MiniLM-L6-v2";
     knowledgeBaseDir := env_or env "KNOWLEDGE_BASE_DIR" "./knowledge-base";
     faissIndexPath := env_or env "FAISS_INDEX_PATH" "./faiss-store";
     chunkSize := parseInt (env_or env "CHUNK_SIZE" "1000");
     chunkOverlap := parseInt (env_or env "CHUNK_OVERLAP" "200");
     topK := parseInt (env_or env "TOP_K" "3");
     maxTokens := parseInt (env_or env "MAX_TOKENS" "512");
     temperature := parsed_temperature |}.

(** A promise is named by its index in the list of promises created. *)
Inductive promise_state : Type :=
| Pending
| Fulfilled
| Rejected (e : thrown).

Record RagService : Type := {
  llm : option ChatLlamaCpp;
  vectorStore : option FaissStore;
  chatHandler : option (gmap string ChatHandler.method);
  isInitialized : bool;
  initializationPromise : option nat;
  config : RAGConfig;
  cleanupModel : bool   (* whether the loader's [cleanup] has been stored *)
}.

Definition new_RagService (env : gmap string string) (parsed_temperature : Q)
  : RagService :=
  {| llm := None; vectorStore := None; chatHandler := None;
     isInitialized := false; initializationPromise := None;
     config := new_config env parsed_temperature;
     cleanupModel := false |}.

Definition set_llm (v : option ChatLlamaCpp) (r : RagService) : RagService :=
  {| llm := v; vectorStore := vectorStore r; chatHandler := chatHandler r;
     isInitialized := isInitialized r;
     initializationPromise := initializationPromise r;
     config := config r; cleanupModel := cleanupModel r |}.

Definition set_vectorStore (v : option FaissStore) (r : RagService)
  : RagService :=
  {| llm := llm r; vectorStore := v; chatHandler := chatHandler r;
     isInitialized := isInitialized r;
     initializationPromise := initializationPromise r;
     config := config r; cleanupModel := cleanupModel r |}.

Definition set_chatHandler (v : option (gmap string ChatHandler.method))
    (r : RagService) : RagService :=
  {| llm := llm r; vectorStore := vectorStore r; chatHandler := v;
     isInitialized := isInitialized r;
     initializationPromise := initializationPromise r;
     config := config r; cleanupModel := cleanupModel r |}.

Definition set_isInitialized (v : bool) (r : RagService) : RagService :=
  {| llm := llm r; vectorStore := vectorStore r; chatHandler := chatHandler r;
     isInitialized := v;
     initializationPromise := initializationPromise r;
     config := config r; cleanupModel := cleanupModel r |}.

Definition set_initializationPromise (v : option nat) (r : RagService)
  : RagService :=
  {| llm := llm r; vectorStore := vectorStore r; chatHandler := chatHandler r;
     isInitialized := isInitialized r;
     initializationPromise := v;
     config := config r; cleanupModel := cleanupModel r |}.

Definition set_cleanupModel (v : bool) (r : RagService) : RagService :=
  {| llm := llm r; vectorStore := vectorStore r; chatHandler := chatHandler r;
     isInitialized := isInitialized r;
     initializationPromise := initializationPromise r;
     config := config r; cleanupModel := v |}.

(** Where an invocation of [_doInitialize] is suspended, with the locals
    it still needs. *)
Inductive pc : Type :=
| AtImport (i : nat)                       (* lines 69-79, the i-th import *)
| AtLoadModel (at_ : load_pc)              (* line 88, inside [loadModel] *)
| AtImportFaissForLoad                     (* line 121 *)
| AtFaissLoad                              (* line 124 *)
| AtLoadDocuments                          (* line 134 *)
| AtImportFaissForBuild (documents : list Document)   (* line 141 *)
| AtFromDocuments (documents : list Document)         (* line 145 *)
| AtSaveVectorStore (store : FaissStore)   (* line 146 *)
| AtInitializeVectorStore.                 (* line 152 *)

(** The setup sequence as an observer sees it: each invocation of
    [_doInitialize] and each call it makes outside the service. *)
Inductive setup_call : Type :=
| DoInitialize (p : nat)
| Import_ (module : string)
| GetLlama
| LlamaLoadModel (path : string)
| CreateContext
| FaissLoad (path : string)
| LoadAndProcessDocuments (dir : string) (size overlap : js_value)
| FromDocuments (documents : list Document)
| SaveVectorStore (path : string)
| InitializeVectorStore (path : string).

Definition imports : list string :=
  [ "../llm/modelLoader.js"; "../llm/llamaAdapter.js"; "./embeddings.js";
    "./vectorStore.js"; "./documentLoader.js"; "../chat/chatHandler.js" ].

Definition faiss_module : string := "@langchain/community/vectorstores/faiss".

Record system : Type := {
  service : RagService;
  loader_vars : loader;
  promises : list promise_state;
  frames : gmap nat pc;
  trace : list setup_call
}.

Definition set_service (f : RagService -> RagService) (s : system) : system :=
  {| service := f (service s); loader_vars := loader_vars s;
     promises := promises s; frames := frames s; trace := trace s |}.

Definition set_loader (ld : loader) (s : system) : system :=
  {| service := service s; loader_vars := ld;
     promises := promises s; frames := frames s; trace := trace s |}.

Definition set_promises (f : list promise_state -> list promise_state)
    (s : system) : system :=
  {| service := service s; loader_vars := loader_vars s;
     promises := f (promises s); frames := frames s; trace := trace s |}.

Definition set_frames (f : gmap nat pc -> gmap nat pc) (s : system) : system :=
  {| service := service s; loader_vars := loader_vars s;
     promises := promises s; frames := f (frames s); trace := trace s |}.

Definition log (c : setup_call) (s : system) : system :=
  {| service := service s; loader_vars := loader_vars s;
     promises := promises s; frames := frames s; trace := trace s ++ [c] |}.

(** What the world outside the service answers during one step: the
    settlement of the awaited operation, and the file system's answers to
    the synchronous calls of that step. *)
Record answers : Type := {
  ans_import : completion unit;
  ans_loader : load_answers;
  ans_dir_exists : bool;          (* [fs.existsSync(resolvedIndexPath)] *)
  ans_mkdir : completion unit;    (* [fs.mkdirSync] *)
  ans_index_exists : bool;        (* [fs.existsSync(indexFile)] *)
  ans_faiss_load : completion FaissStore;
  ans_documents : completion (list Document);
  ans_fromDocuments : completion FaissStore;
  ans_save : save_env;
  ans_initialize : load_env
}.

(** How a resumed invocation leaves its step. *)
Inductive outcome : Type :=
| Suspend (at_ : pc)
| Return
| Raise (e : thrown).

(** Lines 162-165. *)
Definition finish (s : system) : system * outcome :=
  let s1 :=
    set_service
      (fun this =>
         set_chatHandler
           (Some (ChatHandler.new_ChatHandler (vectorStore this) (llm this)))
           this) s in
  (set_service (set_isInitialized true) s1, Return).

(** Lines 89-134, once [loadModel] has returned: the adapter, the index
    directory, and the choice between loading and building. *)
Definition after_loadModel (ans : answers) (s : system) : system * outcome :=
  let cfg := config (service s) in
  match new_ChatLlamaCpp (loader_vars s) (maxTokens cfg) (temperature cfg) with
  | Throw e => (s, Raise e)
  | Normal adapter =>
      let s1 := set_service (set_llm (Some adapter)) s in
      match (if ans_dir_exists ans then Normal tt else ans_mkdir ans) with
      | Throw e => (s1, Raise e)
      | Normal _ =>
          let indexExists := ans_index_exists ans in
          if indexExists then
            (log (Import_ faiss_module) s1, Suspend AtImportFaissForLoad)
          else
            (log (LoadAndProcessDocuments (knowledgeBaseDir cfg)
                    (chunkSize cfg) (chunkOverlap cfg)) s1,
             Suspend AtLoadDocuments)
      end
  end.

Definition loader_call (cfg : RAGConfig) (at_ : load_pc) : setup_call :=
  match at_ with
  | AtGetLlama => GetLlama
  | AtLlamaLoadModel => LlamaLoadModel (modelPath cfg)
  | AtCreateContext => CreateContext
  end.

(** Line 88: [loadModel] suspends at [next], or has returned. *)
Definition continue_load (next : option load_pc) (ans : answers) (s : system)
  : system * outcome :=
  match next with
  | Some at_ =>
      (log (loader_call (config (service s)) at_) s, Suspend (AtLoadModel at_))
  | None => after_loadModel ans s
  end.

(** Lines 82-88. *)
Definition after_imports (ans : answers) (s : system) : system * outcome :=
  let s1 := set_service (set_cleanupModel true) s in
  continue_load (loadModel (loader_vars s1)) ans s1.

(** The body of the [try] block, resumed at [at_]. *)
Definition resume (at_ : pc) (ans : answers) (s : system) : system * outcome :=
  let cfg := config (service s) in
  match at_ with
  | AtImport i =>
      match ans_import ans with
      | Throw e => (s, Raise e)
      | Normal _ =>
          match imports !! S i with
          | Some m => (log (Import_ m) s, Suspend (AtImport (S i)))
          | None => after_imports ans s
          end
      end
  | AtLoadModel at_ =>
      let '(ld, r) := loadModel_resume at_ (ans_loader ans) (loader_vars s) in
      let s1 := set_loader ld s in
      match r with
      | Throw e => (s1, Raise e)
      | Normal next => continue_load next ans s1
      end
  | AtImportFaissForLoad =>
      match ans_import ans with
      | Throw e => (s, Raise e)
      | Normal _ => (log (FaissLoad (faissIndexPath cfg)) s, Suspend AtFaissLoad)
      end
  | AtFaissLoad =>
      match ans_faiss_load ans with
      | Throw e => (s, Raise e)
      | Normal store => finish (set_service (set_vectorStore (Some store)) s)
      end
  | AtLoadDocuments =>
      match ans_documents ans with
      | Throw e => (s, Raise e)
      | Normal documents =>
          if (0 <? length documents)%nat then
            (log (Import_ faiss_module) s,
             Suspend (AtImportFaissForBuild documents))
          else
            (log (InitializeVectorStore (faissIndexPath cfg)) s,
             Suspend AtInitializeVectorStore)
      end
  | AtImportFaissForBuild documents =>
      match ans_import ans with
      | Throw e => (s, Raise e)
      | Normal _ =>
          (log (FromDocuments documents) s, Suspend (AtFromDocuments documents))
      end
  | AtFromDocuments documents =>
      match ans_fromDocuments ans with
      | Throw e => (s, Raise e)
      | Normal store =>
          (log (SaveVectorStore (faissIndexPath cfg))
             (set_service (set_vectorStore (Some store)) s),
           Suspend (AtSaveVectorStore store))
      end
  | AtSaveVectorStore store =>
      match saveVectorStore (ans_save ans) store with
      | Throw e => (s, Raise e)
      | Normal _ => finish s
      end
  | AtInitializeVectorStore =>
      match initializeVectorStore (ans_initialize ans) with
      | Throw e => (s, Raise e)
      | Normal store => finish (set_service (set_vectorStore (Some store)) s)
      end
  end.

(** [_doInitialize()] up to its first [await]: a new pending promise and
    a new suspended invocation. *)
Definition _doInitialize (s : system) : system * nat :=
  let p := length (promises s) in
  let s1 := log (Import_ "../llm/modelLoader.js") (log (DoInitialize p) s) in
  (set_frames (insert p (AtImport 0)) (set_promises (fun ps => ps ++ [Pending]) s1),
   p).

(** What a call of [initialize()] hands its caller: nothing to wait for,
    the shared promise itself ([return this.initializationPromise]), or an
    [await] of the promise the call has just created. *)
Inductive init_result : Type :=
| ReturnedAtOnce
| Shares (p : nat)
| Awaits (p : nat).

(** [initialize()], lines 50-64. *)
Definition initialize (s : system) : system * init_result :=
  if isInitialized (service s) then (s, ReturnedAtOnce)
  else
    match initializationPromise (service s) with
    | Some p => (s, Shares p)
    | None =>
        let '(s1, p) := _doInitialize s in
        (set_service (set_initializationPromise (Some p)) s1, Awaits p)
    end.

(** The awaited operation of invocation [p] settles: the [try] block runs
    on to its next suspension, to its end, or into the [catch] clause
    (lines 166-170), which clears the handle and rethrows. *)
Definition deliver (p : nat) (ans : answers) (s : system) : system :=
  match frames s !! p with
  | None => s
  | Some at_ =>
      let '(s1, r) := resume at_ ans s in
      match r with
      | Suspend at' => set_frames (insert p at') s1
      | Return =>
          set_promises (insert p Fulfilled) (set_frames (delete p) s1)
      | Raise e =>
          set_promises (insert p (Rejected e))
            (set_frames (delete p)
               (set_service (set_initializationPromise None) s1))
      end
  end.

(** [onModuleDestroy] *)
Definition onModuleDestroy (s : system) : system :=
  if cleanupModel (service s) then set_loader (cleanup (loader_vars s)) s
  else s.

Inductive event : Type :=
| CallInitialize
| Deliver (p : nat) (ans : answers)
| ModuleDestroy.

Definition step (ev : event) (s : system) : system * list init_result :=
  match ev with
  | CallInitialize => let '(s', r) := initialize s in (s', [r])
  | Deliver p ans => (deliver p ans s, [])
  | ModuleDestroy => (onModuleDestroy s, [])
  end.

(** A run: the state it ends in and what each call of [initialize] was
    handed, in the order of the calls. *)
Fixpoint run (evs : list event) (s : system) : system * list init_result :=
  match evs with
  | [] => (s, [])
  | ev :: rest =>
      let '(s1, out1) := step ev s in
      let '(s2, out2) := run rest s1 in
      (s2, out1 ++ out2)
  end.

(** The process right after the service has been constructed. *)
Definition boot (env : gmap string string) (parsed_temperature : Q) : system :=
  {| service := new_RagService env parsed_temperature;
     loader_vars := loader_start;
     promises := [];
     frames := ∅;
     trace := [] |}.

Definition reachable (s : system) : Prop :=
  exists env t evs, s = (run evs (boot env t)).1.

(** The promise a caller of [initialize] is attached to, and what the
    caller observes: an [await] or an adopted promise settles as the promise
    does. *)
Definition promise_of (r : init_result) : option nat :=
  match r with
  | ReturnedAtOnce => None
  | Shares p | Awaits p => Some p
  end.

Definition observed (s : system) (r : init_result) : option promise_state :=
  match promise_of r with
  | None => Some Fulfilled
  | Some p => promises s !! p
  end.

(** [isReady()] *)
Definition isReady (this : RagService) : bool :=
  isInitialized this && bool_decide (is_Some (llm this))
  && bool_decide (is_Some (vectorStore this)).

(** [getTopK()] *)
Definition getTopK (this : RagService) : js_value := topK (config this).

(** [getChatHandler()].  [awaited] is how [await this.initialize()] ends
    when the service is not initialised yet: the service as it is then, or
    the rejection. *)
Definition getChatHandler (this : RagService) (awaited : completion RagService)
  : completion (gmap string ChatHandler.method) :=
  bind (if isInitialized this then Normal this else awaited)
       (fun this' =>
          match chatHandler this' with
          | Some handler => Normal handler
          | None => Throw (Error "Chat handler not available")
          end).

(** How many invocations of [_doInitialize] a trace shows. *)
Definition is_invocation (c : setup_call) : bool :=
  match c with
  | DoInitialize _ => true
  | _ => false
  end.

Definition invocations (tr : list setup_call) : nat :=
  length (List.filter is_invocation tr).

(** What the promise of an invocation holds after the invocation has been
    resumed. *)
Definition settlement (r : outcome) : promise_state :=
  match r with
  | Suspend _ => Pending
  | Return => Fulfilled
  | Raise e => Rejected e
  end.

Definition is_build_call (c : setup_call) : bool :=
  match c with
  | LoadAndProcessDocuments _ _ _ | FromDocuments _ | InitializeVectorStore _ => true
  | _ => false
  end.

Definition is_settled (st : promise_state) : bool :=
  match st with
  | Pending => false
  | _ => true
  end.

(** How many initialisation attempts have completed. *)
Definition settled (s : system) : nat :=
  length (List.filter is_settled (promises s)).

(** What the service holds by the time an invocation is suspended at a
    given point. *)
Definition pc_ok (at_ : pc) (this : RagService) : Prop :=
  match at_ with
  | AtImport _ | AtLoadModel _ => True
  | AtSaveVectorStore _ => is_Some (llm this) /\ is_Some (vectorStore this)
  | _ => is_Some (llm this)
  end.

(** The lifecycle of the service, as an invariant of its reachable states:
    an invocation in flight is the one behind the handle, and its promise is
    pending; a handle without the ready flag has its invocation in flight;
    the ready flag comes with the three collaborators and a fulfilled
    promise, and never without one. *)
Record lifecycle (s : system) : Prop := {
  in_flight :
    forall p at_, frames s !! p = Some at_ ->
      initializationPromise (service s) = Some p
      /\ promises s !! p = Some Pending
      /\ isInitialized (service s) = false
      /\ pc_ok at_ (service s);
  handle_live :
    forall p, initializationPromise (service s) = Some p ->
      isInitialized (service s) = false -> is_Some (frames s !! p);
  ready_complete :
    isInitialized (service s) = true ->
      is_Some (llm (service s)) /\ is_Some (vectorStore (service s))
      /\ is_Some (chatHandler (service s))
      /\ frames s = ∅
      /\ exists p, initializationPromise (service s) = Some p
                   /\ promises s !! p = Some Fulfilled;
  not_ready_yet :
    isInitialized (service s) = false ->
      forall p, promises s !! p <> Some Fulfilled
}.

(** The loader's [cleanup] has been stored by the time an invocation is
    past its imports, and so by the time the service is initialised. *)
Definition cleanup_stored (s : system) : Prop :=
  (forall p at_, frames s !! p = Some at_ ->
     match at_ with
     | AtImport _ => True
     | _ => cleanupModel (service s) = true
     end)
  /\ (isInitialized (service s) = true -> cleanupModel (service s) = true).

(** The step of the loader that an entry of the setup sequence stands
    for. *)
Definition request_of (c : setup_call) : option load_pc :=
  match c with
  | GetLlama => Some AtGetLlama
  | LlamaLoadModel _ => Some AtLlamaLoadModel
  | CreateContext => Some AtCreateContext
  | _ => None
  end.

(** An invocation that waits for the engine waits for a handle the loader
    does not hold. *)
Definition awaited_is_missing (s : system) : Prop :=
  forall p at_, frames s !! p = Some (AtLoadModel at_) ->
    at_ ∈ missing (loader_vars s).

(** An upper bound on the settlements an invocation suspended at [at_]
    still awaits before it returns. *)
Definition remaining (at_ : pc) : nat :=
  match at_ with
  | AtImport i => 8 + (5 - i)
  | AtLoadModel AtGetLlama => 7
  | AtLoadModel AtLlamaLoadModel => 6
  | AtLoadModel AtCreateContext => 5
  | AtLoadDocuments => 4
  | AtImportFaissForBuild _ => 3
  | AtFromDocuments _ => 2
  | AtImportFaissForLoad => 2
  | AtSaveVectorStore _ | AtFaissLoad | AtInitializeVectorStore => 1
  end.

Definition is_normal {A : Type} (c : completion A) : bool :=
  match c with
  | Normal _ => true
  | Throw _ => false
  end.

(** A world in which no step of the setup fails: every awaited operation
    fulfils, a context hands out a sequence, a directory that is missing can
    be made, a store that is built can be saved and [initializeVectorStore]
    returns. *)
Definition cooperative (ans : answers) : bool :=
  is_normal (ans_import ans)
  && is_normal (ans_getLlama (ans_loader ans))
  && is_normal (ans_loadModel (ans_loader ans))
  && match ans_createContext (ans_loader ans) with
     | Normal ctx => is_normal (getSequence ctx)
     | Throw _ => false
     end
  && (ans_dir_exists ans || is_normal (ans_mkdir ans))
  && is_normal (ans_faiss_load ans)
  && is_normal (ans_documents ans)
  && match ans_fromDocuments ans with
     | Normal store => is_normal (store_save store)
     | Throw _ => false
     end
  && (save_dir_exists (ans_save ans) || is_normal (save_mkdir (ans_save ans)))
  && is_normal (initializeVectorStore (ans_initialize ans)).

(** What a state owes to such a world for the steps that are behind it: the
    context the loader holds hands out a sequence, the model that was there
    when [loadModel] went on to the context is still there, and a store that
    waits to be saved can be saved. *)
Definition sound (at_ : pc) (s : system) : Prop :=
  (forall ctx, context (loader_vars s) = Some ctx ->
     is_normal (getSequence ctx) = true)
  /\ match at_ with
     | AtLoadModel AtCreateContext => is_Some (model (loader_vars s))
     | AtSaveVectorStore store => is_normal (store_save store) = true
     | _ => True
     end.

End Rag.


(** * src/chat/chat.controller.ts *)

Module ChatController.
Import Effects ChatHandler.

Record ChatRequestDto : Type := {
  query : js_value;
  topK : js_value
}.

Record MessageEvent : Type := {
  data : string
}.

(** The subscriber of the returned [Observable]: what it has been sent,
    and whether it has been completed.  A completed subscriber ignores
    [next]. *)
Record Subscriber : Type := {
  emitted : list MessageEvent;
  closed : bool
}.

Definition subscriber_start : Subscriber :=
  {| emitted := []; closed := false |}.

Definition next (ev : MessageEvent) (observer : Subscriber) : Subscriber :=
  if closed observer then observer
  else {| emitted := emitted observer ++ [ev]; closed := false |}.

Definition complete (observer : Subscriber) : Subscriber :=
  {| emitted := emitted observer; closed := true |}.

Definition chunk_event (content : string) : MessageEvent :=
  {| data := JSON_stringify [("type", "chunk"); ("content", content)] |}.

Definition done_event (message : string) : MessageEvent :=
  {| data := JSON_stringify [("type", "done"); ("message", message)] |}.

Definition error_event (message : string) : MessageEvent :=
  {| data := JSON_stringify [("type", "error"); ("message", message)] |}.

(** A string that is empty or holds white space only, in the words of the
    specification. *)
Fixpoint whitespace_only (s : string) : bool :=
  match s with
  | EmptyString => true
  | String c r => is_white_space c && whitespace_only r
  end.

(** [!query || typeof query !== 'string' || query.trim() === ''] *)
Definition invalid_query (query : js_value) : bool :=
  negb (truthy query)
  || negb (String.eqb (typeof query) "string")
  || match query with
     | JStr s => String.eqb (trim s) EmptyString
     | _ => false
     end.

(** The query as the string it is once [invalid_query] has let it pass. *)
Definition query_text (query : js_value) : string :=
  match query with
  | JStr s => s
  | _ => EmptyString
  end.

(** [error instanceof Error ? error.message : 'Unknown error occurred'] *)
Definition error_message (error : thrown) : string :=
  match error with
  | ErrorObj _ message => message
  | ThrownObject _ | NonError _ => "Unknown error occurred"
  end.

(** Line 32, [topK || this.ragService.getTopK()]. *)
Definition requested_k (ragService : Rag.RagService) (body : ChatRequestDto)
  : js_value :=
  js_or (topK body) (Rag.getTopK ragService).

(** [chatHandler.streamResponse(query, k)] as the head of the [for await]:
    the property is looked up and called, and its result must be
    asynchronously iterable.  A call in the head of a [for await] that
    fails in either way throws the one [TypeError], in the engine's
    wording. *)
Definition call_streamResponse (chatHandler : gmap string method)
    (query : string) (k : js_value) : M stream :=
  match chatHandler !! "streamResponse" with
  | Some (AsyncGeneratorMethod g) =>
      perform (CallStreamResponse query k) (Normal (g query k))
  | Some (AsyncMethod f) =>
      _ ← perform (CallStreamResponse query k) (Normal tt);
      (Throw (TypeError "chatHandler.streamResponse(...) is not a function or its return value is not async iterable"),
       calls (f query k))
  | None =>
      raise (TypeError "chatHandler.streamResponse(...) is not a function or its return value is not async iterable")
  end.

(** The [for await] loop: one chunk event per value the stream yields;
    [None] while the loop still waits for the stream. *)
Fixpoint for_await (chunks : stream) (observer : Subscriber)
  : option (completion unit) * Subscriber :=
  match chunks with
  | SYield chunk rest => for_await rest (next (chunk_event chunk) observer)
  | SReturn => (Some (Normal tt), observer)
  | SThrow e => (Some (Throw e), observer)
  | SOpen => (None, observer)
  end.

(** Lines 46-54, the [catch] clause. *)
Definition catch_clause (error : thrown) (observer : Subscriber) : Subscriber :=
  complete (next (error_event (error_message error)) observer).

(** Lines 35-54 once the head of the loop has its stream: the loop, then
    the completion event, or the [catch] clause; while the loop waits, the
    subscriber stays as it is. *)
Definition stream_to (observer : Subscriber) (chunks : stream) : Subscriber :=
  let '(r, observer1) := for_await chunks observer in
  match r with
  | None => observer1
  | Some (Normal _) => complete (next (done_event "Stream completed") observer1)
  | Some (Throw error) => catch_clause error observer1
  end.

(** Lines 31-35, up to the head of the loop. *)
Definition stream_head (ragService : Rag.RagService)
    (awaited : completion Rag.RagService) (body : ChatRequestDto) : M stream :=
  chatHandler ← perform CallGetChatHandler
                  (Rag.getChatHandler ragService awaited);
  let k := requested_k ragService body in
  call_streamResponse chatHandler (query_text (query body)) k.

(** [streamChat(body)], as what a subscriber of the returned observable is
    sent and the calls made on the way. *)
Definition streamChat (ragService : Rag.RagService)
    (awaited : completion Rag.RagService) (body : ChatRequestDto)
  : Subscriber * list call :=
  if invalid_query (query body) then
    (complete
       (next (error_event "Query is required and must be a non-empty string")
             subscriber_start),
     [])
  else
    let head := stream_head ragService awaited body in
    (match outcome head with
     | Normal chunks => stream_to subscriber_start chunks
     | Throw error => catch_clause error subscriber_start
     end,
     calls head).

End ChatController.

(** * health/health.controller.ts *)

Module HealthController.

Record HealthResponse : Type := {
  http_status : Z;
  status : string;
  initialized : bool;
  ready : bool
}.

(** [checkHealth]; the timestamp is left out. *)
Definition checkHealth (ragService : Rag.RagService) : HealthResponse :=
  let isReady := Rag.isReady ragService in
  if isReady then
    {| http_status := 200; status := "healthy";
       initialized := true; ready := true |}
  else
    {| http_status := 503; status := "unhealthy";
       initialized := false; ready := false |}.

End HealthController.

(** * src/rag/rag.controller.ts *)

Module RagController.

Record WarmupResponse : Type := {
  http_status : Z;
  status : string;
  message : string
}.

Definition already_initialized : WarmupResponse :=
  {| http_status := 200; status := "success";
     message := "RAG system is already initialized" |}.

Definition initialized_successfully : WarmupResponse :=
  {| http_status := 200; status := "success";
     message := "RAG system initialized successfully" |}.

(** The response of the [catch] clause. *)
Definition initialization_failed (error : thrown) : WarmupResponse :=
  {| http_status := 500; status := "error";
     message :=
       match error with
       | ErrorObj _ m => m
       | ThrownObject _ | NonError _ => "Failed to initialize RAG system"
       end |}.

(** Where [warmup] stands after its synchronous part: it has responded, or
    it awaits what [initialize()] handed it. *)
Inductive warmup_state : Type :=
| Responded (response : WarmupResponse)
| AwaitingInitialize (handed : Rag.init_result).

(** [warmup] up to its [await]; the timestamp is left out. *)
Definition warmup (s : Rag.system) : Rag.system * warmup_state :=
  if Rag.isReady (Rag.service s) then (s, Responded already_initialized)
  else
    let '(s1, handed) := Rag.initialize s in
    (s1, AwaitingInitialize handed).

(** [warmup] from its [await] on, given how the awaited promise settled. *)
Definition warmup_resume (awaited : completion unit) : WarmupResponse :=
  match awaited with
  | Normal _ => initialized_successfully
  | Throw error => initialization_failed error
  end.

(** What [warmup] has answered in state [s], if it has: at once, or once
    the promise it awaits is settled there. *)
Definition warmup_response (s : Rag.system) (w : warmup_state)
  : option WarmupResponse :=
  match w with
  | Responded response => Some response
  | AwaitingInitialize handed =>
      match Rag.observed s handed with
      | Some Rag.Fulfilled => Some (warmup_resume (Normal tt))
      | Some (Rag.Rejected e) => Some (warmup_resume (Throw e))
      | _ => None
      end
  end.

End RagController.

(** * src/index.js, the question loop *)

Module Cli.
Import Effects ChatHandler.

(** [String.prototype.toLowerCase] on the code units below 256. *)
Definition lower_code_unit (c : ascii) : ascii :=
  let n := nat_of_ascii c in
  if ((65 <=? n) && (n <=? 90)
      || (192 <=? n) && (n <=? 222) && negb (n =? 215))%nat
  then ascii_of_nat (n + 32)
  else c.

Fixpoint toLowerCase (s : string) : string :=
  match s with
  | EmptyString => EmptyString
  | String c r => String (lower_code_unit c) (toLowerCase r)
  end.

(** What one line typed at the prompt leads to: the last is a callback
    whose promise rejects with nothing to catch it, which ends the
    process. *)
Inductive reaction : Type :=
| Goodbye
| AskAgain
| Answer (response : string)
| ErrorLine (message : string)
| UnhandledRejection (e : thrown).

(** The callback of [rl.question]. *)
Definition askQuestion (chatHandler : ChatHandler) (config_topK : js_value)
    (query : string) : reaction * list call :=
  if String.eqb (toLowerCase query) "exit" || String.eqb (toLowerCase query) "quit"
  then (Goodbye, [])
  else if String.eqb (trim query) EmptyString then (AskAgain, [])
  else
    let m := generateResponse chatHandler query config_topK in
    match outcome m with
    | Normal response => (Answer response, calls m)
    | Throw error =>
        (* [console.error('Error:', error.message)] *)
        match get_message error with
        | Normal _ => (ErrorLine (LlamaAdapter.message_text error), calls m)
        | Throw e => (UnhandledRejection e, calls m)
        end
    end.

End Cli.

(** * rag/documentLoader.js, which the sources hold as the second half of
      src/llm/modelLoader.js *)

Module DocumentLoader.
Import VectorStore.

(** Node's [fs/promises] and [path], external: the listing of the
    directory, the content of a file by its path, and the two functions of
    [path] the loader calls. *)
Record file_system : Type := {
  readdir : completion (list string);
  readFile : string -> completion string;
  path_join : string -> string -> string;
  path_extname : string -> string
}.

(** A [Document] with the [filename] of its metadata. *)
Record FileDocument : Type := {
  document : Document;
  filename : string
}.

(** [extensions.includes(ext)] *)
Definition includes (extensions : list string) (ext : string) : bool :=
  existsb (String.eqb ext) extensions.

Definition default_extensions : list string := [".txt"; ".md"].

(** The body of the [for] loop, on the documents collected so far: a file
    that cannot be read is warned about, which reads [error.message], and
    left out. *)
Definition load_file (fs : file_system) (resolvedPath : string)
    (extensions : list string) (documents : list FileDocument) (file : string)
  : completion (list FileDocument) :=
  let filePath := path_join fs resolvedPath file in
  let ext := Cli.toLowerCase (path_extname fs file) in
  if includes extensions ext then
    match readFile fs filePath with
    | Normal content =>
        Normal (documents ++ [ {| document := {| pageContent := content;
                                                 source := filePath |};
                                  filename := file |} ])
    | Throw error => bind (get_message error) (fun _ => Normal documents)
    end
  else Normal documents.

(** [loadDocumentsFromDirectory]: whatever is thrown inside the outer
    [try], by [readdir] or by the body of the loop, is logged and
    rethrown. *)
Definition loadDocumentsFromDirectory (fs : file_system)
    (resolvedPath : string) (extensions : list string)
  : completion (list FileDocument) :=
  bind (readdir fs)
       (fun files =>
          fold_left
            (fun collected file =>
               bind collected
                    (fun documents =>
                       load_file fs resolvedPath extensions documents file))
            files (Normal [])).

(** [splitDocuments] hands the documents to LangChain's
    [RecursiveCharacterTextSplitter], external, and rethrows what it throws;
    [loadAndProcessDocuments] is the one after the other. *)
Definition loadAndProcessDocuments (fs : file_system)
    (splitDocuments : list FileDocument -> completion (list FileDocument))
    (resolvedPath : string) : completion (list FileDocument) :=
  bind (loadDocumentsFromDirectory fs resolvedPath default_extensions)
       splitDocuments.

End DocumentLoader.

(** * The end-to-end scenario *)

Module Scenario.
Import NodeLlamaCpp ModelLoader LlamaAdapter VectorStore Effects.

(** A stub generator that echoes [Paris]. *)
Definition stub_session : LlamaChatSession :=
  {| prompt := fun _ _ => Normal "Paris";
     completePrompt := fun _ _ => [OnTextChunk "Paris"; Resolve] |}.

Definition paris_document : Document :=
  {| pageContent := "Paris is the capital of France.";
     source := "knowledge-base/france.txt" |}.

(** The index built from the one document. *)
Definition paris_store : FaissStore :=
  {| store_similaritySearch := fun _ _ => Normal [paris_document];
     store_save := Normal tt |}.

Definition empty_store : FaissStore :=
  {| store_similaritySearch := fun _ _ => Normal [];
     store_save := Normal tt |}.

(** A world in which every step of the setup succeeds, no index has been
    saved yet, and the knowledge base holds the one document. *)
Definition all_well : Rag.answers :=
  {| Rag.ans_import := Normal tt;
     Rag.ans_loader :=
       {| ans_getLlama := Normal LlamaBinding;
          ans_loadModel := Normal LoadedModel;
          ans_createContext := Normal {| getSequence := Normal stub_session |} |};
     Rag.ans_dir_exists := false;
     Rag.ans_mkdir := Normal tt;
     Rag.ans_index_exists := false;
     Rag.ans_faiss_load := Normal paris_store;
     Rag.ans_documents := Normal [paris_document];
     Rag.ans_fromDocuments := Normal paris_store;
     Rag.ans_save := {| save_dir_exists := true; save_mkdir := Normal tt |};
     Rag.ans_initialize :=
       {| dir_exists := true; mkdir := Normal tt; path_exists := true;
          load := Throw (Error "could not open faiss.index");
          fresh := empty_store |} |}.

(** The same world, except that the model file cannot be loaded. *)
Definition no_model : Rag.answers :=
  {| Rag.ans_import := Normal tt;
     Rag.ans_loader :=
       {| ans_getLlama := Normal LlamaBinding;
          ans_loadModel := Throw (Error "model file not found");
          ans_createContext := Normal {| getSequence := Normal stub_session |} |};
     Rag.ans_dir_exists := false;
     Rag.ans_mkdir := Normal tt;
     Rag.ans_index_exists := false;
     Rag.ans_faiss_load := Normal paris_store;
     Rag.ans_documents := Normal [paris_document];
     Rag.ans_fromDocuments := Normal paris_store;
     Rag.ans_save := {| save_dir_exists := true; save_mkdir := Normal tt |};
     Rag.ans_initialize :=
       {| dir_exists := true; mkdir := Normal tt; path_exists := true;
          load := Throw (Error "could not open faiss.index");
          fresh := empty_store |} |}.

(** A world in which the index file is there and cannot be read. *)
Definition corrupt_index : Rag.answers :=
  {| Rag.ans_import := Normal tt;
     Rag.ans_loader :=
       {| ans_getLlama := Normal LlamaBinding;
          ans_loadModel := Normal LoadedModel;
          ans_createContext := Normal {| getSequence := Normal stub_session |} |};
     Rag.ans_dir_exists := true;
     Rag.ans_mkdir := Normal tt;
     Rag.ans_index_exists := true;
     Rag.ans_faiss_load := Throw (Error "could not read faiss.index");
     Rag.ans_documents := Normal [paris_document];
     Rag.ans_fromDocuments := Normal paris_store;
     Rag.ans_save := {| save_dir_exists := true; save_mkdir := Normal tt |};
     Rag.ans_initialize :=
       {| dir_exists := true; mkdir := Normal tt; path_exists := true;
          load := Throw (Error "could not read faiss.index");
          fresh := empty_store |} |}.

(** The adapter over the stub generator. *)
Definition stub_llm : ChatLlamaCpp :=
  {| this_maxTokens := JNum 512; this_temperature := 7 # 10;
     chatSession := stub_session |}.

(** One call of [initialize] and the settlements that carry it to the end. *)
Definition warm_up : list Rag.event :=
  Rag.CallInitialize :: replicate 13 (Rag.Deliver 0 all_well).

Definition ready_system : Rag.system := (Rag.run warm_up (Rag.boot ∅ (7 # 10))).1.

(** The run that finds an index file it cannot read: the call, the six
    imports, the three steps of the loader, the import of the store module
    and the load. *)
Definition unreadable_index_run : list Rag.event :=
  Rag.CallInitialize :: replicate 11 (Rag.Deliver 0 corrupt_index).

(** The chat handler over the one-document index and the stub generator. *)
Definition paris_handler : ChatHandler.ChatHandler :=
  {| ChatHandler.vectorStore := Some paris_store;
     ChatHandler.llm := Some stub_llm |}.

Definition request : ChatController.ChatRequestDto :=
  {| ChatController.query := JStr "What is the capital of France?";
     ChatController.topK := JNum 1 |}.

(** A generator whose streaming call pushes one fragment and then rejects
    with an error. *)
Definition failing_session : LlamaChatSession :=
  {| prompt := fun _ _ => Throw (Error "out of memory");
     completePrompt := fun _ _ => [OnTextChunk "Par"; Reject (Error "out of memory")] |}.

Definition failing_llm : ChatLlamaCpp :=
  {| this_maxTokens := JNum 512; this_temperature := 7 # 10;
     chatSession := failing_session |}.

(** A second document, and an index that returns the two in this order. *)
Definition berlin_document : Document :=
  {| pageContent := "Berlin is the capital of Germany.";
     source := "knowledge-base/germany.txt" |}.

Definition two_document_store : FaissStore :=
  {| store_similaritySearch := fun _ _ => Normal [paris_document; berlin_document];
     store_save := Normal tt |}.

Definition two_document_handler : ChatHandler.ChatHandler :=
  {| ChatHandler.vectorStore := Some two_document_store;
     ChatHandler.llm := Some stub_llm |}.

(** A generator whose streaming call pushes one fragment and then rejects
    with [undefined]. *)
Definition rejecting_undefined_session : LlamaChatSession :=
  {| prompt := fun _ _ => Throw (NonError JUndefined);
     completePrompt := fun _ _ => [OnTextChunk "Par"; Reject (NonError JUndefined)] |}.

Definition rejecting_undefined_llm : ChatLlamaCpp :=
  {| this_maxTokens := JNum 512; this_temperature := 7 # 10;
     chatSession := rejecting_undefined_session |}.

(** A generator whose streaming call pushes one fragment and then rejects
    with an object that is no [Error] and has a [message]. *)
Definition rejecting_object_session : LlamaChatSession :=
  {| prompt := fun _ _ => Throw (ThrownObject "disk full");
     completePrompt := fun _ _ => [OnTextChunk "Par"; Reject (ThrownObject "disk full")] |}.

Definition rejecting_object_llm : ChatLlamaCpp :=
  {| this_maxTokens := JNum 512; this_temperature := 7 # 10;
     chatSession := rejecting_object_session |}.

End Scenario.

(** * The stream adapter delivers what the producer pushes *)

Section StreamAdapterFacts.
Import NodeLlamaCpp LlamaAdapter.


Lemma string_app_assoc (a b c : string) : (a +:+ b) +:+ c = a +:+ (b +:+ c).
Proof.
  induction a as [|x a IH]; [done|].
  change (String x ((a +:+ b) +:+ c) = String x (a +:+ (b +:+ c))).
  by rewrite IH.
Qed.

Lemma string_app_nil_r (a : string) : a +:+ EmptyString = a.
Proof.
  induction a as [|x a IH]; [done|].
  change (String x (a +:+ EmptyString) = String x a). by rewrite IH.
Qed.

Lemma adapter_run_app (a b : list turn) (s : stream_state) :
  run (a ++ b) s = run b (run a s).
Proof. unfold run. apply fold_left_app. Qed.

Lemma adapter_run_cons (t : turn) (a : list turn) (s : stream_state) :
  run (t :: a) s = run a (step t s).
Proof. reflexivity. Qed.

Lemma adapter_run_snoc (a : list turn) (t : turn) (s : stream_state) :
  run (a ++ [t]) s = step t (run a s).
Proof. rewrite adapter_run_app. reflexivity. Qed.

Lemma stage_step tokens final t s :
  (match final with OnTextChunk _ => False | _ => True end) ->
  stage tokens final s -> stage tokens final (step t s).
Proof.
  intros Hfin [rest Hp Hc He Hs Hcons | Hp Hc He Hs Hcons | Hp Hq Hs Hy].
  - destruct t; unfold step.
    + rewrite Hp. destruct rest as [|tok rest]; simpl.
      * rewrite app_nil_r in Hcons.
        destruct final; try done; apply Draining; simpl; auto.
      * apply (Producing _ _ _ rest); simpl; auto.
        rewrite <- Hcons. rewrite <- !app_assoc. done.
    + rewrite Hs. unfold consumer_step. rewrite Hc. simpl.
      destruct (chunkQueue (vars s)) as [|c q] eqn:Hq; simpl.
      * apply (Producing _ _ _ rest); simpl; auto. rewrite Hq. done.
      * apply (Producing _ _ _ rest); simpl; auto.
        rewrite fmap_app. simpl. rewrite <- Hcons. rewrite <- !app_assoc. done.
  - destruct t; unfold step.
    + rewrite Hp. by apply Draining.
    + rewrite Hs. unfold consumer_step. rewrite Hc. simpl.
      destruct (chunkQueue (vars s)) as [|c q] eqn:Hq; simpl.
      * rewrite He. rewrite app_nil_r in Hcons.
        destruct final as [| |err]; try done; simpl.
        -- apply Over; simpl; auto.
        -- destruct (thrown_truthy err) eqn:Ht; apply Over; simpl; auto; by rewrite Ht.
      * apply Draining; simpl; auto.
        rewrite fmap_app. simpl. rewrite <- Hcons. rewrite <- !app_assoc. done.
  - assert (status s <> Running) as Hne.
    { rewrite Hs. destruct final as [| |err]; simpl; try done.
      destruct (thrown_truthy err); done. }
    destruct t; unfold step.
    + rewrite Hp. by apply Over.
    + destruct (status s) eqn:E; try done; by apply Over; rewrite ?E.
Qed.

Lemma stage_run tokens final schedule s :
  (match final with OnTextChunk _ => False | _ => True end) ->
  stage tokens final s -> stage tokens final (run schedule s).
Proof.
  intros Hfin. revert s. induction schedule as [|t sch IH]; intros s Hs; [done|].
  simpl. apply IH. by apply stage_step.
Qed.

Lemma stage_start this messages options tokens final :
  well_formed (completePrompt (chatSession this) (_formatMessages messages)
                 (sampling this options)) tokens final ->
  stage tokens final (_streamResponseChunks this messages options).
Proof.
  intros [Hscript _]. apply (Producing _ _ _ tokens); simpl; auto.
Qed.

Lemma stage_prefix tokens final s :
  stage tokens final s -> (text <$> yields s) `prefix_of` tokens.
Proof.
  intros [rest _ _ _ _ H | _ _ _ _ H | _ _ _ H]; rewrite <- H.
  - by apply prefix_app_r.
  - by apply prefix_app_r.
  - done.
Qed.

Lemma stage_stopped tokens final s :
  stage tokens final s -> status s <> Running ->
  text <$> yields s = tokens /\ status s = final_status final.
Proof.
  intros [rest _ _ _ Hs _ | _ _ _ Hs _ | _ _ Hs Hy]; try done.
Qed.

Lemma stopped_step t s : status s <> Running -> status (step t s) <> Running.
Proof.
  intros Hne. destruct t; unfold step.
  - by destruct (pending s).
  - by destruct (status s) eqn:E; rewrite ?E.
Qed.

Lemma stopped_run schedule s :
  status s <> Running -> status (run schedule s) <> Running.
Proof.
  revert s. induction schedule as [|t sch IH]; intros s Hne; [done|].
  rewrite adapter_run_cons. by apply IH, stopped_step.
Qed.

(** Each generation yielded carries its fragment twice: as its [text] and
    as the content of its message. *)
Lemma yields_messages schedule s :
  Forall (fun g => message g = AIMessage (text g)) (yields s) ->
  Forall (fun g => message g = AIMessage (text g)) (yields (run schedule s)).
Proof.
  revert s. induction schedule as [|t sch IH]; intros s Hs; [done|].
  rewrite adapter_run_cons. apply IH. destruct t; unfold step.
  - by destruct (pending s).
  - destruct (status s); [|done|done]. unfold consumer_step.
    destruct (negb (isComplete (vars s)) || (0 <? length (chunkQueue (vars s)))%nat).
    + destruct (chunkQueue (vars s)) as [|c q]; simpl; [done|].
      apply Forall_app. split; [done|]. by constructor.
    + by repeat case_match.
Qed.

Lemma yields_of_texts (l : list ChatGeneration) :
  Forall (fun g => message g = AIMessage (text g)) l ->
  l = (fun c => {| text := c; message := AIMessage c |}) <$> (text <$> l).
Proof.
  induction 1 as [|[t m] l Hg _ IH]; [done|].
  simpl in Hg. subst m. rewrite !fmap_cons. simpl. by f_equal.
Qed.

(** Producer turns empty the script. *)
Lemma producer_turns tokens final s n :
  (match final with OnTextChunk _ => False | _ => True end) ->
  stage tokens final s -> (length (pending s) <= n)%nat ->
  pending (run (replicate n ProducerTurn) s) = [].
Proof.
  intros Hfin. revert s. induction n as [|n IH]; intros s Hst Hlen.
  - simpl. destruct (pending s); simpl in *; [done | lia].
  - rewrite replicate_S, adapter_run_cons. apply IH; [by apply stage_step|].
    unfold step. destruct (pending s) eqn:E; simpl in *; [rewrite E; simpl; lia | lia].
Qed.

(** Once the script is empty, consumer turns end the generator. *)
Lemma consumer_turns tokens final s n :
  (match final with OnTextChunk _ => False | _ => True end) ->
  stage tokens final s -> pending s = [] ->
  (length (chunkQueue (vars s)) < n)%nat ->
  status (run (replicate n ConsumerTurn) s) <> Running.
Proof.
  intros Hfin. revert s. induction n as [|n IH]; intros s Hst Hp Hlen; [lia|].
  rewrite replicate_S, adapter_run_cons.
  destruct Hst as [rest Hp' _ _ _ _ | Hp' Hc He Hs Hcons | Hp' Hq Hs Hy].
  - rewrite Hp in Hp'. destruct rest; simpl in Hp'; discriminate.
  - assert (stage tokens final (step ConsumerTurn s)) as Hst'.
    { apply stage_step; [done|]. by apply Draining. }
    destruct (chunkQueue (vars s)) as [|c q] eqn:Hq.
    + assert (status (step ConsumerTurn s) <> Running) as Hne.
      { unfold step. rewrite Hs. unfold consumer_step. rewrite Hc, Hq. simpl.
        rewrite He. destruct final as [| |err]; simpl; try done.
        destruct (thrown_truthy err); done. }
      by apply stopped_run.
    + apply IH.
      * done.
      * unfold step. rewrite Hs. unfold consumer_step. rewrite Hc, Hq. simpl. done.
      * unfold step. rewrite Hs. unfold consumer_step. rewrite Hc, Hq. simpl.
        simpl in Hlen. lia.
  - assert (status s <> Running) as Hne.
    { rewrite Hs. destruct final as [| |err]; simpl; try done.
      destruct (thrown_truthy err); done. }
    by apply stopped_run, stopped_step.
Qed.

Lemma stage_lengths tokens final s :
  stage tokens final s ->
  (length (pending s) <= S (length tokens))%nat /\
  (length (chunkQueue (vars s)) <= length tokens)%nat.
Proof.
  intros [rest Hp _ _ _ H | Hp _ _ _ H | Hp Hq _ H]; rewrite <- H.
  - rewrite Hp. rewrite !length_app, !length_fmap. simpl. lia.
  - rewrite Hp, !length_app, !length_fmap. simpl. lia.
  - rewrite Hp, Hq. simpl. lia.
Qed.

(** C3. Whatever the interleaving of producer and consumer, the consumer
    of [_streamResponseChunks] has at every moment seen an initial segment
    of the fragments pushed by [onTextChunk]; once the generator is over it
    has seen all of them, in order, and their concatenation is the
    whole-response text; and the generator is over once the producer has
    had its turns and the consumer has drained the queue. *)
Theorem stream_adapter_fifo this messages options tokens final schedule :
  well_formed (completePrompt (chatSession this) (_formatMessages messages)
                 (sampling this options)) tokens final ->
  let start := _streamResponseChunks this messages options in
  let s := run schedule start in
  (text <$> yields s) `prefix_of` tokens
  /\ (status s <> Running ->
      text <$> yields s = tokens
      /\ String.concat EmptyString (text <$> yields s) = whole_response tokens
      /\ status s = final_status final)
  /\ status (run (schedule
                  ++ replicate (S (length tokens)) ProducerTurn
                  ++ replicate (S (length tokens)) ConsumerTurn) start)
     <> Running.
Proof.
  intros Hwf start s.
  assert (match final with OnTextChunk _ => False | _ => True end) as Hfin
    by apply Hwf.
  assert (stage tokens final s) as Hs
    by (apply stage_run; [done | by apply stage_start]).
  split; [by eapply stage_prefix|]. split.
  - intros Hne. destruct (stage_stopped _ _ _ Hs Hne) as [Hy Hf].
    rewrite Hy. done.
  - rewrite !adapter_run_app. fold s.
    destruct (stage_lengths _ _ _ Hs) as [Hlp _].
    set (s1 := run (replicate (S (length tokens)) ProducerTurn) s).
    assert (stage tokens final s1) as Hs1 by (by apply stage_run).
    assert (pending s1 = []) as Hp1 by (by eapply producer_turns).
    destruct (stage_lengths _ _ _ Hs1) as [_ Hlq].
    eapply consumer_turns; eauto. lia.
Qed.

Lemma stream_adapter_fifo_witness :
  let start := _streamResponseChunks Scenario.stub_llm [HumanMessage "capital?"] no_options in
  let s := run [ConsumerTurn; ProducerTurn; ConsumerTurn; ProducerTurn; ConsumerTurn] start in
  well_formed (completePrompt (chatSession Scenario.stub_llm)
                 (_formatMessages [HumanMessage "capital?"])
                 (sampling Scenario.stub_llm no_options)) ["Paris"] Resolve
  /\ text <$> yields s = ["Paris"] /\ status s = Returned.
Proof.
  split; [by split|].
  assert (status (run [ConsumerTurn; ProducerTurn; ConsumerTurn; ProducerTurn; ConsumerTurn]
            (_streamResponseChunks Scenario.stub_llm [HumanMessage "capital?"] no_options))
          <> Running) as Hne by (vm_compute; discriminate).
  destruct (stream_adapter_fifo Scenario.stub_llm [HumanMessage "capital?"] no_options
              ["Paris"] Resolve
              [ConsumerTurn; ProducerTurn; ConsumerTurn; ProducerTurn; ConsumerTurn]
              (conj eq_refl I)) as (_ & Hdone & _).
  destruct (Hdone Hne) as (Hy & _ & Hst). split; assumption.
Defined.

End StreamAdapterFacts.

(** * The service initialises once at a time *)

Section RagFacts.
Import NodeLlamaCpp ModelLoader LlamaAdapter VectorStore Rag.


Lemma run_app (a b : list event) (s : system) :
  run (a ++ b) s =
  let '(s1, o1) := run a s in let '(s2, o2) := run b s1 in (s2, o1 ++ o2).
Proof.
  revert s. induction a as [|ev a IH]; intros s; simpl.
  - by destruct (run b s).
  - destruct (step ev s) as [s1 o1]. rewrite IH.
    destruct (run a s1) as [s2 o2]. destruct (run b s2) as [s3 o3].
    by rewrite app_assoc.
Qed.

Lemma reachable_boot env t : reachable (boot env t).
Proof. by exists env, t, []. Qed.

Lemma reachable_step ev s : reachable s -> reachable (step ev s).1.
Proof.
  intros (env & t & evs & ->). exists env, t, (evs ++ [ev]).
  rewrite run_app. destruct (run evs (boot env t)) as [s1 o1]. simpl.
  by destruct (step ev s1).
Qed.

Lemma reachable_run evs s : reachable s -> reachable (run evs s).1.
Proof.
  revert s. induction evs as [|ev evs IH]; intros s Hs; [done|]. simpl.
  destruct (step ev s) as [s1 o1] eqn:E.
  specialize (IH s1). destruct (run evs s1) as [s2 o2]. simpl in *.
  apply IH. change s1 with (s1, o1).1. rewrite <- E. by apply reachable_step.
Qed.

(** What a resumed invocation may touch. *)
Lemma resume_frame at_ ans s :
  let '(s', r) := resume at_ ans s in
  promises s' = promises s /\ frames s' = frames s
  /\ initializationPromise (service s') = initializationPromise (service s)
  /\ (is_Some (llm (service s)) -> is_Some (llm (service s')))
  /\ (is_Some (vectorStore (service s)) -> is_Some (vectorStore (service s')))
  /\ match r with
     | Suspend at' =>
         isInitialized (service s') = isInitialized (service s)
         /\ (pc_ok at_ (service s) -> pc_ok at' (service s'))
     | Return =>
         pc_ok at_ (service s) ->
         isInitialized (service s') = true
         /\ is_Some (llm (service s')) /\ is_Some (vectorStore (service s'))
         /\ is_Some (chatHandler (service s'))
     | Raise _ => isInitialized (service s') = isInitialized (service s)
     end.
Proof.
  destruct at_ as [i|l| | | |docs|docs|store|]; unfold resume.
  - destruct (ans_import ans); [|by simpl].
    destruct (imports !! S i); [by simpl|].
    unfold after_imports, continue_load.
    destruct (loadModel _); [by simpl|].
    unfold after_loadModel.
    destruct (new_ChatLlamaCpp _ _ _); [|by simpl].
    destruct (if ans_dir_exists ans then _ else _); [|by simpl; eauto 10].
    destruct (ans_index_exists ans); simpl; eauto 10.
  - destruct (loadModel_resume _ _ _) as [ld r]. destruct r as [next|e]; [|by simpl].
    unfold continue_load. destruct next; [by simpl|].
    unfold after_loadModel.
    destruct (new_ChatLlamaCpp _ _ _); [|by simpl].
    destruct (if ans_dir_exists ans then _ else _); [|by simpl; eauto 10].
    destruct (ans_index_exists ans); simpl; eauto 10.
  - destruct (ans_import ans); by simpl.
  - destruct (ans_faiss_load ans); simpl; [|done]. eauto 10.
  - destruct (ans_documents ans); [|by simpl].
    destruct (0 <? length a)%nat; by simpl.
  - destruct (ans_import ans); by simpl.
  - destruct (ans_fromDocuments ans); simpl; [|done]. eauto 10.
  - destruct (saveVectorStore _ _); simpl; [|done].
    split_and!; try done. intros [? ?]. eauto.
  - destruct (initializeVectorStore _); simpl; [|done]. eauto 10.
Qed.

Lemma lifecycle_boot env t : lifecycle (boot env t).
Proof. split; simpl; done. Qed.

Lemma lifecycle_no_frames s :
  lifecycle s -> initializationPromise (service s) = None -> frames s = ∅.
Proof.
  intros L Hnone. apply map_empty. intros p.
  destruct (frames s !! p) as [at_|] eqn:E; [|done].
  destruct (in_flight s L p at_ E) as [Hp _]. congruence.
Qed.

Lemma lifecycle_one_frame s p q at_ :
  lifecycle s -> frames s !! p = Some at_ -> q <> p -> frames s !! q = None.
Proof.
  intros L Hp Hne. destruct (frames s !! q) as [x|] eqn:E; [|done].
  destruct (in_flight s L p at_ Hp) as [H1 _].
  destruct (in_flight s L q x E) as [H2 _]. congruence.
Qed.

Lemma lifecycle_initialize s : lifecycle s -> lifecycle (initialize s).1.
Proof.
  intros L. unfold initialize.
  destruct (isInitialized (service s)) eqn:Hi; [done|].
  destruct (initializationPromise (service s)) as [p|] eqn:Hp; [done|].
  pose proof (lifecycle_no_frames s L Hp) as Hf.
  simpl. split; simpl; rewrite ?Hf.
  - intros q at_ Hq.
    apply lookup_insert_Some in Hq as [[<- <-]|[_ Hq]]; [|by rewrite lookup_empty in Hq].
    split_and!; try done.
    rewrite lookup_app_r, Nat.sub_diag; done.
  - intros q [= <-] _. rewrite lookup_insert_eq. eauto.
  - congruence.
  - intros _ q Hq. apply lookup_app_Some in Hq as [Hq|[_ Hq]].
    + by eapply (not_ready_yet s L).
    + destruct (q - length (promises s))%nat; done.
Qed.

Lemma lifecycle_deliver p ans s : lifecycle s -> lifecycle (deliver p ans s).
Proof.
  intros L. unfold deliver.
  destruct (frames s !! p) as [at_|] eqn:Hp; [|done].
  destruct (in_flight s L p at_ Hp) as (Hh & Hpend & Hi & Hok).
  pose proof (resume_frame at_ ans s) as R.
  destruct (resume at_ ans s) as [s1 r].
  destruct R as (Rp & Rf & Rh & Rl & Rv & Rr).
  assert (forall q x, frames s1 !! q = Some x -> q = p) as Honly.
  { intros q x Hq. rewrite Rf in Hq. destruct (decide (q = p)); [done|].
    by rewrite (lifecycle_one_frame s p q at_) in Hq. }
  assert (p < length (promises s))%nat as Hlt by (by eapply lookup_lt_Some).
  destruct r as [at'| |e].
  - destruct Rr as [Ri Rok]. split; simpl.
    + intros q x Hq. apply lookup_insert_Some in Hq as [[<- <-]|[Hne Hq]].
      * rewrite Rh, Rp, Ri. auto.
      * by apply Honly in Hq.
    + intros q Hq _. rewrite Rh, Hh in Hq. injection Hq as <-.
      rewrite lookup_insert_eq. eauto.
    + congruence.
    + intros _ q. rewrite Rp. by apply (not_ready_yet s L).
  - destruct (Rr Hok) as (Ri & Hl & Hv & Hc). split; simpl.
    + intros q x Hq. apply lookup_delete_Some in Hq as [Hne Hq].
      by apply Honly in Hq.
    + congruence.
    + intros _. split_and!; try done.
      * apply map_empty. intros q. apply lookup_delete_None.
        destruct (frames s1 !! q) eqn:E; [left; symmetry; by eapply Honly | by right].
      * exists p. rewrite Rh, Rp. split; [done|].
        by apply list_lookup_insert_eq.
    + congruence.
  - split; simpl.
    + intros q x Hq. apply lookup_delete_Some in Hq as [Hne Hq].
      by apply Honly in Hq.
    + done.
    + congruence.
    + intros _ q. rewrite Rp. destruct (decide (q = p)) as [->|Hne].
      * rewrite list_lookup_insert_eq; done.
      * rewrite list_lookup_insert_ne by done. by apply (not_ready_yet s L).
Qed.

Lemma lifecycle_onModuleDestroy s : lifecycle s -> lifecycle (onModuleDestroy s).
Proof.
  intros L. unfold onModuleDestroy. destruct (cleanupModel (service s)); [|done].
  destruct L. by split.
Qed.

Lemma lifecycle_step ev s : lifecycle s -> lifecycle (step ev s).1.
Proof.
  intros L. destruct ev as [|p ans|]; simpl.
  - pose proof (lifecycle_initialize s L). by destruct (initialize s).
  - by apply lifecycle_deliver.
  - by apply lifecycle_onModuleDestroy.
Qed.

Lemma lifecycle_run evs s : lifecycle s -> lifecycle (run evs s).1.
Proof.
  revert s. induction evs as [|ev evs IH]; intros s L; [done|]. simpl.
  pose proof (lifecycle_step ev s L) as L1.
  destruct (step ev s) as [s1 o1]. specialize (IH s1 L1).
  by destruct (run evs s1).
Qed.

Lemma lifecycle_reachable s : reachable s -> lifecycle s.
Proof. intros (env & t & evs & ->). apply lifecycle_run, lifecycle_boot. Qed.

(** ** The configuration is fixed by the constructor *)




(** ** The handler the service builds *)

Lemma resume_chatHandler at_ ans s :
  chatHandler (service (resume at_ ans s).1) = chatHandler (service s)
  \/ exists store model,
       chatHandler (service (resume at_ ans s).1)
       = Some (ChatHandler.new_ChatHandler store model).
Proof.
  destruct at_ as [i|l| | | |docs|docs|store|]; unfold resume.
  - destruct (ans_import ans); [|by left].
    destruct (imports !! S i); [by left|].
    unfold after_imports, continue_load.
    destruct (loadModel _); [by left|].
    unfold after_loadModel.
    destruct (new_ChatLlamaCpp _ _ _); [|by left].
    destruct (if ans_dir_exists ans then _ else _); [|by left].
    destruct (ans_index_exists ans); by left.
  - destruct (loadModel_resume _ _ _) as [ld r]. destruct r as [next|e]; [|by left].
    unfold continue_load. destruct next; [by left|].
    unfold after_loadModel.
    destruct (new_ChatLlamaCpp _ _ _); [|by left].
    destruct (if ans_dir_exists ans then _ else _); [|by left].
    destruct (ans_index_exists ans); by left.
  - destruct (ans_import ans); by left.
  - destruct (ans_faiss_load ans); [right; simpl; eauto | by left].
  - destruct (ans_documents ans); [|by left].
    destruct (0 <? length a)%nat; by left.
  - destruct (ans_import ans); by left.
  - destruct (ans_fromDocuments ans); by left.
  - destruct (saveVectorStore _ _); [right; simpl; eauto | by left].
  - destruct (initializeVectorStore _); [right; simpl; eauto | by left].
Qed.

(** In every reachable state the chat handler, when there is one, is an
    instance of [ChatHandler], which has no [streamResponse]. *)
Lemma reachable_handler s handler :
  reachable s ->
  chatHandler (service s) = Some handler ->
  handler !! "streamResponse" = None.
Proof.
  intros (env & t & evs & ->). revert handler.
  assert (forall s, (forall h, chatHandler (service s) = Some h ->
                        h !! "streamResponse" = None) ->
          forall ev h, chatHandler (service (step ev s).1) = Some h ->
                       h !! "streamResponse" = None) as Hstep.
  { intros s IH ev h. destruct ev as [|p ans|]; simpl.
    - unfold initialize. destruct (isInitialized _); [by apply IH|].
      destruct (initializationPromise _); [by apply IH|]. simpl. by apply IH.
    - unfold deliver. destruct (frames s !! p) as [at_|]; [|by apply IH].
      destruct (resume_chatHandler at_ ans s) as [Heq|(store & model & Heq)];
        destruct (resume at_ ans s) as [s1 r]; simpl in Heq;
        destruct r; simpl; rewrite Heq; try by apply IH.
      all: intros [= <-]; by vm_compute.
    - unfold onModuleDestroy. destruct (cleanupModel _); by apply IH. }
  assert (forall evs s, (forall h, chatHandler (service s) = Some h ->
                           h !! "streamResponse" = None) ->
          forall h, chatHandler (service (run evs s).1) = Some h ->
                    h !! "streamResponse" = None) as Hrun.
  { clear evs. induction evs as [|ev evs IH]; intros s Hs h; [by apply Hs|].
    simpl. pose proof (Hstep s Hs ev) as H1.
    destruct (step ev s) as [s1 o1]. specialize (IH s1 H1 h).
    by destruct (run evs s1). }
  apply Hrun. by intros h.
Qed.

(** ** Counting attempts *)

Lemma settled_app (l1 l2 : list promise_state) :
  length (List.filter is_settled (l1 ++ l2))
  = (length (List.filter is_settled l1) + length (List.filter is_settled l2))%nat.
Proof. by rewrite List.filter_app, length_app. Qed.

Lemma settled_insert (l : list promise_state) p v :
  is_settled v = true ->
  (length (List.filter is_settled l)
   <= length (List.filter is_settled (<[p:=v]> l)))%nat
  /\ (l !! p = Some Pending ->
      length (List.filter is_settled (<[p:=v]> l))
      = S (length (List.filter is_settled l))).
Proof.
  intros Hv. revert p. induction l as [|x l IH]; intros p; [done|].
  destruct p as [|p]; simpl.
  - rewrite Hv. split.
    + destruct (is_settled x); simpl; lia.
    + by intros [= ->].
  - destruct (IH p) as [IH1 IH2].
    destruct (is_settled x); simpl; split; auto; try lia.
Qed.

Lemma resume_invocations at_ ans s :
  invocations (trace (resume at_ ans s).1) = invocations (trace s).
Proof.
  assert (forall c, is_invocation c = false ->
            invocations (trace s ++ [c]) = invocations (trace s)) as Hlog.
  { intros c Hc. unfold invocations. rewrite List.filter_app. simpl.
    rewrite Hc. by rewrite app_nil_r. }
  destruct at_ as [i|l| | | |docs|docs|store|]; unfold resume.
  - destruct (ans_import ans); [|done].
    destruct (imports !! S i); [by apply Hlog|].
    unfold after_imports, continue_load.
    destruct (loadModel _) as [[]|]; [by apply Hlog..|].
    unfold after_loadModel.
    destruct (new_ChatLlamaCpp _ _ _); [|done].
    destruct (if ans_dir_exists ans then _ else _); [|done].
    destruct (ans_index_exists ans); by apply Hlog.
  - destruct (loadModel_resume _ _ _) as [ld r]. destruct r as [next|e]; [|done].
    unfold continue_load. destruct next as [[]|]; [by apply Hlog..|].
    unfold after_loadModel.
    destruct (new_ChatLlamaCpp _ _ _); [|done].
    destruct (if ans_dir_exists ans then _ else _); [|done].
    destruct (ans_index_exists ans); by apply Hlog.
  - destruct (ans_import ans); [by apply Hlog|done].
  - by destruct (ans_faiss_load ans).
  - destruct (ans_documents ans); [|done].
    destruct (0 <? length a)%nat; by apply Hlog.
  - destruct (ans_import ans); [by apply Hlog|done].
  - destruct (ans_fromDocuments ans); [by apply Hlog|done].
  - by destruct (saveVectorStore _ _).
  - by destruct (initializeVectorStore _).
Qed.

Lemma settled_step ev s : (settled s <= settled (step ev s).1)%nat.
Proof.
  destruct ev as [|p ans|]; simpl.
  - unfold initialize. destruct (isInitialized _); [done|].
    destruct (initializationPromise _); [done|]. simpl.
    unfold settled. simpl. rewrite settled_app. simpl. lia.
  - unfold deliver. destruct (frames s !! p); [|done].
    pose proof (resume_frame p0 ans s) as R.
    destruct (resume p0 ans s) as [s1 r]. destruct R as (Rp & _).
    destruct r; unfold settled; simpl; rewrite Rp; [done|..];
      by apply settled_insert.
  - unfold onModuleDestroy. by destruct (cleanupModel _).
Qed.

Lemma settled_run evs s : (settled s <= settled (run evs s).1)%nat.
Proof.
  revert s. induction evs as [|ev evs IH]; intros s; [done|]. simpl.
  pose proof (settled_step ev s) as H1.
  destruct (step ev s) as [s1 o1]. specialize (IH s1).
  destruct (run evs s1) as [s2 o2]. simpl in *. lia.
Qed.

(** One step during which no attempt completes, from a state that is not
    ready: the handle, once set, stays; a call is handed the handle; and a
    new invocation starts only when there was no handle. *)
Lemma quiet_step ev s :
  lifecycle s -> isInitialized (service s) = false ->
  settled (step ev s).1 = settled s ->
  let '(s1, out) := step ev s in
  isInitialized (service s1) = false
  /\ match initializationPromise (service s) with
     | Some p =>
         initializationPromise (service s1) = Some p
         /\ (forall r, r ∈ out -> r = Shares p)
         /\ invocations (trace s1) = invocations (trace s)
     | None =>
         (out = [] /\ initializationPromise (service s1) = None
          /\ invocations (trace s1) = invocations (trace s))
         \/ (exists p, out = [Awaits p]
                       /\ initializationPromise (service s1) = Some p
                       /\ invocations (trace s1) = S (invocations (trace s)))
     end.
Proof.
  intros L Hi Hq. destruct ev as [|p ans|]; simpl in *.
  - unfold initialize in *. rewrite Hi in *.
    destruct (initializationPromise (service s)) as [p|] eqn:Hp; simpl.
    + rewrite Hp. split_and!; try done. by intros r ->%list_elem_of_singleton.
    + split; [done|]. right. exists (length (promises s)). split_and!; try done.
      unfold invocations. by rewrite !List.filter_app, !length_app; simpl; lia.
  - unfold deliver in *. destruct (frames s !! p) as [at_|] eqn:Hf.
    + destruct (in_flight s L p at_ Hf) as (Hh & Hpend & _ & _).
      pose proof (resume_frame at_ ans s) as R.
      pose proof (resume_invocations at_ ans s) as Rt.
      destruct (resume at_ ans s) as [s1 r]. destruct R as (Rp & _ & Rh & _ & _ & Rr).
      rewrite Hh. simpl in Rt.
      destruct r as [at'| |e]; simpl in *.
      * destruct Rr as [Ri _]. rewrite Ri, Rh. split_and!; try done.
        intros r Hr. by apply elem_of_nil in Hr.
      * exfalso. unfold settled in Hq. simpl in Hq. rewrite Rp in Hq.
        destruct (settled_insert (promises s) p Fulfilled eq_refl) as [_ H].
        rewrite (H Hpend) in Hq. lia.
      * exfalso. unfold settled in Hq. simpl in Hq. rewrite Rp in Hq.
        destruct (settled_insert (promises s) p (Rejected e) eq_refl) as [_ H].
        rewrite (H Hpend) in Hq. lia.
    + split; [done|]. destruct (initializationPromise (service s)); [|by left].
      split_and!; try done. intros r Hr. by apply elem_of_nil in Hr.
  - unfold onModuleDestroy. 
    assert (forall ld, initializationPromise (service (set_loader ld s))
                       = initializationPromise (service s)) as E by done.
    destruct (cleanupModel (service s)); simpl; (split; [done|]);
      destruct (initializationPromise (service s)); try by left.
    all: split_and!; try done; intros r Hr; by apply elem_of_nil in Hr.
Qed.

(** A batch of events during which no attempt completes, entered while an
    attempt is in flight. *)
Lemma batch_initializing evs s p :
  lifecycle s -> isInitialized (service s) = false ->
  initializationPromise (service s) = Some p ->
  settled (run evs s).1 = settled s ->
  let '(s', handed) := run evs s in
  isInitialized (service s') = false
  /\ initializationPromise (service s') = Some p
  /\ (forall r, r ∈ handed -> r = Shares p)
  /\ invocations (trace s') = invocations (trace s).
Proof.
  revert s. induction evs as [|ev evs IH]; intros s L Hi Hp Hq; simpl in *.
  - split_and!; try done. intros r Hr. by apply elem_of_nil in Hr.
  - pose proof (settled_step ev s) as M1.
    pose proof (quiet_step ev s L Hi) as Q.
    pose proof (lifecycle_step ev s L) as L1.
    destruct (step ev s) as [s1 o1]. simpl in *.
    pose proof (settled_run evs s1) as M2.
    specialize (IH s1 L1).
    destruct (run evs s1) as [s2 o2]. simpl in *.
    rewrite Hp in Q. destruct Q as (Hi1 & Hp1 & Ho1 & Ht1); [lia|].
    destruct IH as (Hi2 & Hp2 & Ho2 & Ht2); try done; [lia|].
    split_and!; try done; [|congruence].
    intros r [Hr|Hr]%elem_of_app; auto.
Qed.

(** The same, entered with no handle set. *)
Lemma batch_uninitialized evs s :
  lifecycle s -> isInitialized (service s) = false ->
  initializationPromise (service s) = None ->
  settled (run evs s).1 = settled s ->
  let '(s', handed) := run evs s in
  isInitialized (service s') = false
  /\ ((handed = [] /\ initializationPromise (service s') = None
       /\ invocations (trace s') = invocations (trace s))
      \/ (exists p, initializationPromise (service s') = Some p
                    /\ (forall r, r ∈ handed -> promise_of r = Some p)
                    /\ invocations (trace s') = S (invocations (trace s)))).
Proof.
  revert s. induction evs as [|ev evs IH]; intros s L Hi Hp Hq; simpl in *.
  - split; [done|]. by left.
  - pose proof (settled_step ev s) as M1.
    pose proof (quiet_step ev s L Hi) as Q.
    pose proof (lifecycle_step ev s L) as L1.
    destruct (step ev s) as [s1 o1]. simpl in *.
    pose proof (settled_run evs s1) as M2.
    specialize (IH s1 L1).
    pose proof (batch_initializing evs s1) as B.
    destruct (run evs s1) as [s2 o2]. simpl in *.
    rewrite Hp in Q. destruct Q as (Hi1 & [(-> & Hp1 & Ht1)|(p & -> & Hp1 & Ht1)]); [lia|..].
    + destruct IH as (Hi2 & IH); try done; [lia|]. split; [done|].
      destruct IH as [(-> & Hp2 & Ht2)|(p & Hp2 & Ho2 & Ht2)].
      * left. split_and!; try done. congruence.
      * right. exists p. split_and!; try done. congruence.
    + destruct (B p L1 Hi1 Hp1) as (Hi2 & Hp2 & Ho2 & Ht2); [lia|].
      split; [done|]. right. exists p. split_and!; try done; [|congruence].
      intros r [->%list_elem_of_singleton|Hr%Ho2]%elem_of_app; [done|by subst].
Qed.

Lemma deliver_settlement s p at_ ans :
  lifecycle s -> frames s !! p = Some at_ ->
  promises (deliver p ans s) !! p = Some (settlement (resume at_ ans s).2).
Proof.
  intros L Hf. unfold deliver. rewrite Hf.
  destruct (in_flight s L p at_ Hf) as (_ & Hpend & _ & _).
  pose proof (resume_frame at_ ans s) as R.
  destruct (resume at_ ans s) as [s1 r]. destruct R as (Rp & _).
  assert (p < length (promises s))%nat as Hlt by (by eapply lookup_lt_Some).
  destruct r; simpl; rewrite Rp; [done|..]; by apply list_lookup_insert_eq.
Qed.

Lemma lifecycle_frames s p :
  lifecycle s -> isInitialized (service s) = false ->
  initializationPromise (service s) = Some p ->
  exists at_, frames s = {[p := at_]} /\ promises s !! p = Some Pending.
Proof.
  intros L Hi Hp. destruct (handle_live s L p Hp Hi) as [at_ Hf].
  exists at_. split; [|by apply (in_flight s L p at_ Hf)].
  apply map_eq. intros q. destruct (decide (q = p)) as [->|Hne].
  - by rewrite lookup_singleton_eq.
  - rewrite lookup_singleton_ne by done. by eapply lifecycle_one_frame.
Qed.

(** C1. Single-flight initialisation. Take any reachable state and any
    batch of events (calls of [initialize], settlements of awaited
    operations, a module destruction) during which no attempt completes.
    If the service was not ready, every call of the batch is attached to one
    and the same promise, which is pending and is the handle; exactly one
    invocation of [_doInitialize] is in flight; the batch has started one
    invocation when it found no handle and none when it found one; and when
    that invocation is resumed, every caller observes the promise's one
    settlement. If the service was ready, a call returns at once and
    changes nothing. *)
Theorem single_flight s batch :
  reachable s ->
  settled (run batch s).1 = settled s ->
  let '(s', handed) := run batch s in
  (isInitialized (service s) = false -> handed <> [] ->
   exists p at_,
     (forall r, r ∈ handed -> promise_of r = Some p)
     /\ initializationPromise (service s') = Some p
     /\ promises s' !! p = Some Pending
     /\ frames s' = {[p := at_]}
     /\ invocations (trace s')
        = (invocations (trace s)
           + match initializationPromise (service s) with
             | Some _ => 0
             | None => 1
             end)%nat
     /\ forall ans r, r ∈ handed ->
          observed (deliver p ans s') r
          = Some (settlement (resume at_ ans s').2))
  /\ (isInitialized (service s) = true -> initialize s = (s, ReturnedAtOnce)).
Proof.
  intros Hr Hq. pose proof (lifecycle_reachable s Hr) as L.
  pose proof (lifecycle_run batch s L) as L'.
  pose proof (batch_initializing batch s) as B1.
  pose proof (batch_uninitialized batch s L) as B2.
  destruct (run batch s) as [s' handed]. simpl in *. split.
  - intros Hi Hne.
    assert (exists p, isInitialized (service s') = false
              /\ initializationPromise (service s') = Some p
              /\ (forall r, r ∈ handed -> promise_of r = Some p)
              /\ invocations (trace s')
                 = (invocations (trace s)
                    + match initializationPromise (service s) with
                      | Some _ => 0
                      | None => 1
                      end)%nat) as (p & Hi' & Hp' & Hall & Hinv).
    { destruct (initializationPromise (service s)) as [p|] eqn:Hp.
      - destruct (B1 p L Hi eq_refl Hq) as (Hi' & Hp' & Hall & Hinv).
        exists p. split_and!; try done; [|lia].
        intros r Hr'. by rewrite (Hall r Hr').
      - destruct (B2 Hi eq_refl Hq) as (Hi' & [(-> & _)|(p & Hp' & Hall & Hinv)]); [done|].
        exists p. split_and!; try done. lia. }
    destruct (lifecycle_frames s' p L' Hi' Hp') as (at_ & Hf & Hpend).
    exists p, at_. split_and!; try done.
    intros ans r Hr'. unfold observed. rewrite (Hall r Hr').
    apply deliver_settlement; [done|]. rewrite Hf. by rewrite lookup_singleton_eq.
  - intros Hi. unfold initialize. by rewrite Hi.
Qed.

Lemma single_flight_witness :
  let s := boot ∅ (7 # 10) in
  let batch := [CallInitialize; CallInitialize;
                Deliver 0 Scenario.all_well; CallInitialize] in
  reachable s
  /\ settled (run batch s).1 = settled s
  /\ (run batch s).2 = [Awaits 0; Shares 0; Shares 0]
  /\ exists p, forall r, r ∈ (run batch s).2 -> promise_of r = Some p.
Proof.
  intros s batch.
  assert (reachable s) as Hr by apply reachable_boot.
  assert (settled (run batch s).1 = settled s) as Hq by (vm_compute; reflexivity).
  assert ((run batch s).2 = [Awaits 0; Shares 0; Shares 0]) as Hh
    by (vm_compute; reflexivity).
  split_and!; try done.
  pose proof (single_flight s batch Hr Hq) as H.
  destruct (run batch s) as [s' handed]. simpl in *.
  destruct H as [H _]. destruct H as (p & at_ & Hall & _); [done|by rewrite Hh|].
  by exists p.
Defined.

(** Every suspension point of the setup can be answered with a failure. *)
Lemma every_step_can_fail at_ s e :
  exists ans, (resume at_ ans s).2 = Raise e.
Proof.
  exists {| ans_import := Throw e;
            ans_loader := {| ans_getLlama := Throw e; ans_loadModel := Throw e;
                             ans_createContext := Throw e |};
            ans_dir_exists := false; ans_mkdir := Throw e;
            ans_index_exists := false;
            ans_faiss_load := Throw e; ans_documents := Throw e;
            ans_fromDocuments := Throw e;
            ans_save := {| save_dir_exists := false; save_mkdir := Throw e |};
            ans_initialize := {| dir_exists := false; mkdir := Throw e;
                                 path_exists := false; load := Throw e;
                                 fresh := Scenario.empty_store |} |}.
  destruct at_ as [i|[]| | | |docs|docs|store|]; reflexivity.
Qed.

(** The [catch] clause, for whichever step raised. *)
Lemma deliver_raise s p at_ ans e :
  lifecycle s ->
  frames s !! p = Some at_ ->
  (resume at_ ans s).2 = Raise e ->
  let s' := deliver p ans s in
  initializationPromise (service s') = None
  /\ isInitialized (service s') = false
  /\ frames s' = ∅
  /\ length (promises s') = length (promises s)
  /\ promises s' !! p = Some (Rejected e)
  /\ trace s' = trace (resume at_ ans s).1.
Proof.
  intros L Hf He s'.
  pose proof (deliver_settlement s p at_ ans L Hf) as Hset.
  rewrite He in Hset. simpl in Hset. fold s' in Hset.
  destruct (in_flight s L p at_ Hf) as (Hh & Hpend & Hi & _).
  pose proof (resume_frame at_ ans s) as R.
  subst s'. unfold deliver in *. rewrite Hf in *.
  destruct (resume at_ ans s) as [s1 r]. simpl in He. subst r.
  destruct R as (Rp & Rf & _ & _ & _ & Ri). simpl in *.
  split_and!; try done; [congruence| |by rewrite Rp, length_insert].
  rewrite Rf. apply map_empty. intros q. apply lookup_delete_None.
  destruct (decide (p = q)); [by left|right]. by eapply lifecycle_one_frame.
Qed.

(** C4. When a step of the setup fails, whichever it is, the handle is
    cleared, the ready flag is still false, no invocation is left in flight,
    every caller attached to the attempt observes the rejection with the
    error of the failed step, and the next call of [initialize] starts a new
    invocation of [_doInitialize] at its first statement, behind a new
    promise. *)
Theorem failure_resets s p at_ ans e :
  reachable s ->
  frames s !! p = Some at_ ->
  (resume at_ ans s).2 = Raise e ->
  let s' := deliver p ans s in
  initializationPromise (service s') = None
  /\ isInitialized (service s') = false
  /\ isReady (service s') = false
  /\ frames s' = ∅
  /\ (forall r, promise_of r = Some p -> observed s' r = Some (Rejected e))
  /\ let p' := length (promises s') in
     let '(s'', r) := initialize s' in
     r = Awaits p' /\ p' <> p
     /\ initializationPromise (service s'') = Some p'
     /\ promises s'' !! p' = Some Pending
     /\ frames s'' = {[p' := AtImport 0]}
     /\ trace s'' = trace s' ++ [DoInitialize p'; Import_ "../llm/modelLoader.js"].
Proof.
  intros Hr Hf He s'. pose proof (lifecycle_reachable s Hr) as L.
  destruct (in_flight s L p at_ Hf) as (_ & Hpend & _ & _).
  assert (p < length (promises s))%nat as Hlt by (by eapply lookup_lt_Some).
  destruct (deliver_raise s p at_ ans e L Hf He) as (H1 & H2 & H3 & H4 & Hset & _).
  fold s' in H1, H2, H3, H4, Hset.
  split_and!; try done.
  - unfold isReady. by rewrite H2.
  - intros r Hp. unfold observed. by rewrite Hp.
  - unfold initialize. rewrite H2, H1. simpl. rewrite H3, H4.
    split_and!; try done.
    + lia.
    + rewrite lookup_app_r, <- H4, Nat.sub_diag; [done|lia].
    + by rewrite <- app_assoc.
Qed.

Lemma failure_resets_witness :
  let s := (run (CallInitialize :: replicate 7 (Deliver 0 Scenario.no_model))
                (boot ∅ (7 # 10))).1 in
  frames s !! 0%nat = Some (AtLoadModel AtLlamaLoadModel)
  /\ (resume (AtLoadModel AtLlamaLoadModel) Scenario.no_model s).2
     = Raise (Error "model file not found")
  /\ promises (deliver 0 Scenario.no_model s) = [Rejected (Error "model file not found")]
  /\ initializationPromise (service (deliver 0 Scenario.no_model s)) = None.
Proof.
  intros s.
  assert (reachable s) as Hr by (apply reachable_run, reachable_boot).
  assert (frames s !! 0%nat = Some (AtLoadModel AtLlamaLoadModel)) as Hf
    by (vm_compute; reflexivity).
  assert ((resume (AtLoadModel AtLlamaLoadModel) Scenario.no_model s).2
          = Raise (Error "model file not found")) as He
    by (vm_compute; reflexivity).
  destruct (failure_resets s 0%nat _ _ _ Hr Hf He) as (Hnone & _).
  split_and!; [exact Hf | exact He | vm_compute; reflexivity | exact Hnone].
Defined.

(** C9. In every reachable state: when [isReady()] is true the adapter, the
    vector store and the chat handler are all there; the health report is
    (true, true) or (false, false); it is (true, true) once an
    initialisation has been fulfilled, and (false, false) as long as none has
    been, failed attempts included. *)
Theorem readiness_report s :
  reachable s ->
  let this := service s in
  let report := HealthController.checkHealth this in
  (isReady this = true ->
     is_Some (llm this) /\ is_Some (vectorStore this)
     /\ is_Some (chatHandler this))
  /\ ((HealthController.initialized report, HealthController.ready report)
        = (true, true)
      \/ (HealthController.initialized report, HealthController.ready report)
        = (false, false))
  /\ ((exists p, promises s !! p = Some Fulfilled) ->
      HealthController.initialized report = true
      /\ HealthController.ready report = true)
  /\ ((forall p, promises s !! p <> Some Fulfilled) ->
      HealthController.initialized report = false
      /\ HealthController.ready report = false).
Proof.
  intros Hr this report. pose proof (lifecycle_reachable s Hr) as L.
  subst report. unfold HealthController.checkHealth, isReady. fold this.
  destruct (isInitialized this) eqn:Hi.
  - destruct (ready_complete s L Hi) as (Hl & Hv & Hc & _ & p & _ & Hp).
    fold this in Hl, Hv, Hc.
    rewrite !bool_decide_eq_true_2 by done. simpl.
    split_and!; auto. intros Hno. by destruct (Hno p).
  - simpl. split_and!; auto; try done.
    intros [p Hp]. by destruct (not_ready_yet s L Hi p).
Qed.

Lemma readiness_report_witness :
  reachable Scenario.ready_system
  /\ HealthController.initialized
       (HealthController.checkHealth (service Scenario.ready_system)) = true
  /\ HealthController.ready
       (HealthController.checkHealth (service Scenario.ready_system)) = true.
Proof.
  assert (reachable Scenario.ready_system) as Hr
    by (apply reachable_run, reachable_boot).
  split; [done|].
  destruct (readiness_report Scenario.ready_system Hr) as (_ & _ & Hok & _).
  apply Hok. exists 0%nat. vm_compute; reflexivity.
Defined.

(** C8, as stated, fails: with an index file that is present and cannot be
    read, initialisation does not turn to the documents; it fails with the
    error of the load. *)
Lemma unreadable_index_is_fatal :
  let s := (run Scenario.unreadable_index_run (boot ∅ (7 # 10))).1 in
  promises s = [Rejected (Error "could not read faiss.index")]
  /\ isInitialized (service s) = false
  /\ vectorStore (service s) = None
  /\ List.filter is_build_call (trace s) = [].
Proof. vm_compute. done. Qed.

Lemma run_deliver p ans rest s :
  (run (Deliver p ans :: rest) s).1 = (run rest (deliver p ans s)).1.
Proof. simpl. by destruct (run rest (deliver p ans s)). Qed.

(** The one way into [initializeVectorStore]: documents read, and none
    found. *)
Lemma resume_to_initializeVectorStore at_ ans s :
  (resume at_ ans s).2 = Suspend AtInitializeVectorStore ->
  at_ = AtLoadDocuments /\ ans_documents ans = Normal [].
Proof.
  destruct at_ as [i|l| | | |d|d|st|];
    unfold resume, after_imports, continue_load, after_loadModel, finish;
    repeat case_match; simpl; try done.
  intros _. split; [done|].
  match goal with
  | H : (0 <? length ?l)%nat = false |- _ => by destruct l
  end.
Qed.

(** Documents found: the import, [fromDocuments], the save, and the
    service is ready with the store built. *)
Lemma build_run s p ans document rest store :
  frames s !! p = Some AtLoadDocuments ->
  ans_documents ans = Normal (document :: rest) ->
  ans_import ans = Normal tt ->
  ans_fromDocuments ans = Normal store ->
  saveVectorStore (ans_save ans) store = Normal tt ->
  let s' := (run (replicate 4 (Deliver p ans)) s).1 in
  vectorStore (service s') = Some store
  /\ isInitialized (service s') = true
  /\ promises s' = <[p := Fulfilled]> (promises s)
  /\ trace s'
     = trace s ++ [Import_ faiss_module;
                   FromDocuments (document :: rest);
                   SaveVectorStore (faissIndexPath (config (service s)))].
Proof.
  intros Hf Hd Hi Hb Hsave.
  change (replicate 4 (Deliver p ans))
    with [Deliver p ans; Deliver p ans; Deliver p ans; Deliver p ans].
  rewrite !run_deliver. cbn [run fst].
  set (s1 := deliver p ans s).
  assert (s1 = set_frames (insert p (AtImportFaissForBuild (document :: rest)))
                 (log (Import_ faiss_module) s)) as E1.
  { subst s1. unfold deliver. rewrite Hf. simpl. by rewrite Hd. }
  set (s2 := deliver p ans s1).
  assert (s2 = set_frames (insert p (AtFromDocuments (document :: rest)))
                 (log (FromDocuments (document :: rest)) s1)) as E2.
  { subst s2. unfold deliver. rewrite E1 at 1. simpl.
    rewrite lookup_insert_eq. simpl. by rewrite Hi. }
  set (s3 := deliver p ans s2).
  assert (s3 = set_frames (insert p (AtSaveVectorStore store))
                 (log (SaveVectorStore (faissIndexPath (config (service s2))))
                    (set_service (set_vectorStore (Some store)) s2))) as E3.
  { subst s3. unfold deliver. rewrite E2 at 1. simpl.
    rewrite lookup_insert_eq. simpl. by rewrite Hb. }
  set (s4 := deliver p ans s3).
  assert (s4 = set_promises (insert p Fulfilled)
                 (set_frames (delete p) (finish s3).1)) as E4.
  { subst s4. unfold deliver. rewrite E3 at 1. simpl.
    rewrite lookup_insert_eq. simpl. by rewrite Hsave. }
  rewrite E4, E3, E2, E1. simpl.
  split_and!; try done.
  by rewrite <- !(assoc_L (++)).
Qed.

(** C8, amended. An index file that is absent is told apart by
    [fs.existsSync], without any error, and sends initialisation to the
    documents; an index file that is present sends it to [FaissStore.load],
    and a load that fails there fails the attempt with the error of the load,
    no document being read. Of the documents read, a list that is not empty
    has the store built from it by [FaissStore.fromDocuments] and saved, and
    the service is ready with that store; only an empty list sends
    initialisation to [initializeVectorStore]. [initializeVectorStore]
    answers a path that is absent with a new empty store, a load that
    succeeds with the store loaded, and a load that fails with a new empty
    store as well, unless what the load rejected with is [null] or
    [undefined]: the warning reads its [message], and that throws. *)
Theorem index_absent_or_unreadable s p ans :
  reachable s ->
  (forall adapter,
     new_ChatLlamaCpp (loader_vars s) (maxTokens (config (service s)))
       (temperature (config (service s))) = Normal adapter ->
     (if ans_dir_exists ans then Normal tt else ans_mkdir ans) = Normal tt ->
     after_loadModel ans s
     = if ans_index_exists ans
       then (log (Import_ faiss_module) (set_service (set_llm (Some adapter)) s),
             Suspend AtImportFaissForLoad)
       else (log (LoadAndProcessDocuments
                    (knowledgeBaseDir (config (service s)))
                    (chunkSize (config (service s)))
                    (chunkOverlap (config (service s))))
               (set_service (set_llm (Some adapter)) s),
             Suspend AtLoadDocuments))
  /\ (forall e,
        frames s !! p = Some AtFaissLoad ->
        ans_faiss_load ans = Throw e ->
        let s' := deliver p ans s in
        promises s' !! p = Some (Rejected e)
        /\ initializationPromise (service s') = None
        /\ isInitialized (service s') = false
        /\ frames s' = ∅
        /\ trace s' = trace s)
  /\ (forall documents,
        ans_documents ans = Normal documents ->
        resume AtLoadDocuments ans s
        = match documents with
          | [] => (log (InitializeVectorStore (faissIndexPath (config (service s)))) s,
                   Suspend AtInitializeVectorStore)
          | _ :: _ => (log (Import_ faiss_module) s,
                       Suspend (AtImportFaissForBuild documents))
          end)
  /\ (forall at_,
        (resume at_ ans s).2 = Suspend AtInitializeVectorStore ->
        at_ = AtLoadDocuments /\ ans_documents ans = Normal [])
  /\ (forall document rest store,
        frames s !! p = Some AtLoadDocuments ->
        ans_documents ans = Normal (document :: rest) ->
        ans_import ans = Normal tt ->
        ans_fromDocuments ans = Normal store ->
        saveVectorStore (ans_save ans) store = Normal tt ->
        let s' := (run (replicate 4 (Deliver p ans)) s).1 in
        vectorStore (service s') = Some store
        /\ isInitialized (service s') = true
        /\ promises s' = <[p := Fulfilled]> (promises s)
        /\ trace s'
           = trace s ++ [Import_ faiss_module;
                         FromDocuments (document :: rest);
                         SaveVectorStore (faissIndexPath (config (service s)))])
  /\ (forall env,
        (if dir_exists env then Normal tt else mkdir env) = Normal tt ->
        initializeVectorStore env
        = if path_exists env then
            match load env with
            | Normal loaded => Normal loaded
            | Throw (NonError JUndefined) =>
                Throw (TypeError "Cannot read properties of undefined (reading 'message')")
            | Throw (NonError JNull) =>
                Throw (TypeError "Cannot read properties of null (reading 'message')")
            | Throw _ => Normal (fresh env)
            end
          else Normal (fresh env)).
Proof.
  intros Hr. split_and!.
  - intros adapter Ha Hd. unfold after_loadModel. rewrite Ha, Hd.
    by destruct (ans_index_exists ans).
  - intros e Hf He s'.
    assert ((resume AtFaissLoad ans s).2 = Raise e) as Hraise
      by (simpl; by rewrite He).
    pose proof (lifecycle_reachable s Hr) as L.
    destruct (deliver_raise s p _ ans e L Hf Hraise) as (H1 & H2 & H3 & _ & H4 & H5).
    split_and!; try done.
    subst s'. rewrite H5. simpl. by rewrite He.
  - intros documents Hd. simpl. rewrite Hd. by destruct documents.
  - intros at_ Hs. by apply resume_to_initializeVectorStore in Hs.
  - intros document rest store Hf Hd Hi Hb Hsave s'.
    subst s'. by apply build_run.
  - intros env Hd. unfold initializeVectorStore. rewrite Hd. simpl.
    destruct (path_exists env); [|done].
    destruct (load env) as [loaded|[name message|message|v]]; try done.
    by destruct v.
Qed.

Lemma index_absent_or_unreadable_witness :
  let s := (run (CallInitialize :: replicate 10 (Deliver 0 Scenario.corrupt_index))
                (boot ∅ (7 # 10))).1 in
  let s0 := (run (CallInitialize :: replicate 9 (Deliver 0 Scenario.all_well))
                 (boot ∅ (7 # 10))).1 in
  reachable s
  /\ frames s !! 0%nat = Some AtFaissLoad
  /\ promises (deliver 0 Scenario.corrupt_index s) !! 0%nat
     = Some (Rejected (Error "could not read faiss.index"))
  /\ trace (deliver 0 Scenario.corrupt_index s) = trace s
  /\ frames s0 !! 0%nat = Some AtLoadDocuments
  /\ vectorStore (service (run (replicate 4 (Deliver 0 Scenario.all_well)) s0).1)
     = Some Scenario.paris_store.
Proof.
  intros s s0.
  assert (reachable s) as Hr by (apply reachable_run, reachable_boot).
  assert (reachable s0) as Hr0 by (apply reachable_run, reachable_boot).
  assert (frames s !! 0%nat = Some AtFaissLoad) as Hf by (vm_compute; reflexivity).
  assert (frames s0 !! 0%nat = Some AtLoadDocuments) as Hf0
    by (vm_compute; reflexivity).
  destruct (index_absent_or_unreadable s 0%nat Scenario.corrupt_index Hr)
    as (_ & Hfatal & _).
  destruct (Hfatal (Error "could not read faiss.index") Hf eq_refl)
    as (H1 & _ & _ & _ & H2).
  destruct (index_absent_or_unreadable s0 0%nat Scenario.all_well Hr0)
    as (_ & _ & _ & _ & Hbuild & _).
  destruct (Hbuild Scenario.paris_document [] Scenario.paris_store Hf0
              eq_refl eq_refl eq_refl eq_refl) as (H3 & _).
  split_and!; [exact Hr | exact Hf | exact H1 | exact H2 | exact Hf0 | exact H3].
Defined.

End RagFacts.

(** * The request path *)

Section ChatFacts.
Import Effects LlamaAdapter VectorStore ChatHandler ChatController.


Lemma chunk_is_not_terminal c m :
  chunk_event c <> done_event m /\ chunk_event c <> error_event m.
Proof. split; intros H; discriminate H. Qed.

Lemma for_await_events chunks observer :
  closed observer = false ->
  for_await chunks observer
  = (stream_end chunks,
     {| emitted := emitted observer ++ (chunk_event <$> stream_chunks chunks);
        closed := false |}).
Proof.
  revert observer. induction chunks as [c rest IH| |e|]; intros observer Hc; simpl.
  - rewrite IH by (unfold next; by rewrite Hc).
    unfold next. rewrite Hc. simpl. by rewrite <- app_assoc.
  - rewrite app_nil_r. destruct observer; simpl in *; by subst.
  - rewrite app_nil_r. destruct observer; simpl in *; by subst.
  - rewrite app_nil_r. destruct observer; simpl in *; by subst.
Qed.

(** Lines 35-54 for a stream: its chunk events, then the event of its
    end. *)
Lemma stream_to_events chunks :
  stream_to subscriber_start chunks
  = {| emitted :=
         (chunk_event <$> stream_chunks chunks)
         ++ match stream_end chunks with
            | Some (Normal _) => [done_event "Stream completed"]
            | Some (Throw e) => [error_event (error_message e)]
            | None => []
            end;
       closed := match stream_end chunks with
                 | Some _ => true
                 | None => false
                 end |}.
Proof.
  unfold stream_to. rewrite for_await_events by done. simpl.
  destruct (stream_end chunks) as [[[]|e]|]; try done.
  by rewrite app_nil_r.
Qed.

(** The events of the [try] block and of the [catch] clause, for a head of
    the loop that has been evaluated. *)
Lemma streamChat_valid ragService awaited body :
  invalid_query (query body) = false ->
  let head := stream_head ragService awaited body in
  streamChat ragService awaited body
  = (match outcome head with
     | Throw e =>
         {| emitted := [error_event (error_message e)]; closed := true |}
     | Normal chunks =>
         {| emitted :=
              (chunk_event <$> stream_chunks chunks)
              ++ match stream_end chunks with
                 | Some (Normal _) => [done_event "Stream completed"]
                 | Some (Throw e) => [error_event (error_message e)]
                 | None => []
                 end;
            closed := match stream_end chunks with
                      | Some _ => true
                      | None => false
                      end |}
     end, calls head).
Proof.
  intros Hv head. unfold streamChat. rewrite Hv. fold head.
  destruct (outcome head) as [chunks|e]; [|done].
  by rewrite stream_to_events.
Qed.

(** The head of the loop on a handler that [_doInitialize] has built: the
    call in the head throws. *)
Lemma head_on_built_handler ragService awaited body s handler :
  Rag.reachable s ->
  Rag.chatHandler (Rag.service s) = Some handler ->
  Rag.getChatHandler ragService awaited = Normal handler ->
  stream_head ragService awaited body
  = (Throw (TypeError "chatHandler.streamResponse(...) is not a function or its return value is not async iterable"),
     [CallGetChatHandler]).
Proof.
  intros Hr Hh Hg. pose proof (reachable_handler s handler Hr Hh) as Hno.
  unfold stream_head, mbind, M_bind, perform, call_streamResponse.
  simpl. rewrite Hg. simpl. by rewrite Hno.
Qed.

(** In no reachable state of an initialised service does a well-formed
    request get a chunk: the handler the service has built cannot stream. *)
Lemma initialised_service_cannot_stream s awaited body :
  Rag.reachable s ->
  Rag.isInitialized (Rag.service s) = true ->
  invalid_query (query body) = false ->
  streamChat (Rag.service s) awaited body
  = ({| emitted := [error_event "chatHandler.streamResponse(...) is not a function or its return value is not async iterable"];
        closed := true |},
     [CallGetChatHandler]).
Proof.
  intros Hr Hi Hv. rewrite (streamChat_valid _ _ _ Hv).
  destruct (Rag.ready_complete s (lifecycle_reachable s Hr) Hi)
    as (_ & _ & [handler Hh] & _).
  rewrite (head_on_built_handler _ awaited body s handler Hr Hh); [done|].
  unfold Rag.getChatHandler. rewrite Hi. simpl. by rewrite Hh.
Qed.

(** Nor does a request that finds the service not initialised and waits for
    [initialize()]: it gets one error event, whatever the wait ends in. *)
Lemma built_service_cannot_stream s awaited body :
  Rag.reachable s ->
  (forall this', awaited = Normal this' ->
     exists s', Rag.reachable s' /\ this' = Rag.service s') ->
  invalid_query (query body) = false ->
  exists message,
    streamChat (Rag.service s) awaited body
    = ({| emitted := [error_event message]; closed := true |},
       [CallGetChatHandler]).
Proof.
  intros Hr Hw Hv.
  destruct (Rag.isInitialized (Rag.service s)) eqn:Hi.
  - eexists. by apply initialised_service_cannot_stream.
  - rewrite (streamChat_valid _ _ _ Hv).
    destruct awaited as [this'|e].
    + destruct (Hw this' eq_refl) as (s' & Hr' & ->).
      destruct (Rag.chatHandler (Rag.service s')) as [handler|] eqn:Hh.
      * rewrite (head_on_built_handler _ _ body s' handler Hr' Hh); [by eexists|].
        unfold Rag.getChatHandler. rewrite Hi. simpl. by rewrite Hh.
      * unfold stream_head, mbind, M_bind, perform, Rag.getChatHandler.
        rewrite Hi. simpl. rewrite Hh. simpl. by eexists.
    + unfold stream_head, mbind, M_bind, perform, Rag.getChatHandler.
      rewrite Hi. simpl. by eexists.
Qed.

(** A producer that honours the contract and rejects with a truthy value:
    once it has had its turns and the queue has been drained, the generator
    has yielded every fragment and has thrown. *)
Lemma rejection_ends_the_stream this messages options tokens err schedule :
  well_formed (NodeLlamaCpp.completePrompt (chatSession this)
                 (_formatMessages messages) (sampling this options))
    tokens (NodeLlamaCpp.Reject err) ->
  thrown_truthy err = true ->
  let s := run (schedule
                ++ replicate (S (length tokens)) ProducerTurn
                ++ replicate (S (length tokens)) ConsumerTurn)
             (_streamResponseChunks this messages options) in
  yields s = (fun c => {| text := c; message := AIMessage c |}) <$> tokens
  /\ status s = Failed (Error ("Streaming error: " +:+ message_text err)).
Proof.
  intros Hwf Ht s.
  assert (stage tokens (NodeLlamaCpp.Reject err)
            (run schedule (_streamResponseChunks this messages options))) as Hs
    by (apply stage_run; [done | by apply stage_start]).
  assert (stage tokens (NodeLlamaCpp.Reject err) s) as Hs'
    by (unfold s; apply stage_run; [done | by apply stage_start]).
  assert (status s <> Running) as Hne.
  { subst s. rewrite !adapter_run_app.
    destruct (stage_lengths _ _ _ Hs) as [Hlp _].
    set (s1 := run (replicate (S (length tokens)) ProducerTurn)
                 (run schedule (_streamResponseChunks this messages options))).
    assert (stage tokens (NodeLlamaCpp.Reject err) s1) as Hs1
      by (by apply stage_run).
    assert (pending s1 = []) as Hp1
      by (by apply (producer_turns tokens (NodeLlamaCpp.Reject err))).
    destruct (stage_lengths _ _ _ Hs1) as [_ Hlq].
    apply (consumer_turns tokens (NodeLlamaCpp.Reject err)); [done|done|done|lia]. }
  destruct (stage_stopped _ _ _ Hs' Hne) as [Hy Hf].
  split.
  - rewrite <- Hy. apply yields_of_texts. unfold s. by apply yields_messages.
  - rewrite Hf. simpl. by rewrite Ht.
Qed.

(** C6. What the subscriber of [streamChat] has been sent is, for every
    request, service and handler, chunk events followed by one terminal
    event, [done] or [error], with the subscriber completed; the terminal
    event is missing in one case only, that of a handler whose stream has
    not ended yet, and then the subscriber is not completed. A completed
    subscriber takes no further event, and no chunk event is a terminal
    event. The payloads are the
    three JSON texts of the specification. For every stream the loop sends
    one chunk event for each fragment yielded, in order, and then [done] if
    the stream returned, and the error event with the message of the error
    (of an [Error]; [Unknown error occurred] otherwise) if the stream threw:
    a failure in mid-stream comes after the chunk events of the fragments
    already yielded. On a service that [_doInitialize] has built, a
    well-formed request is sent exactly one event, an error event; so is a
    request whose wait for the initialisation fails, with the message of the
    failure. On the side of the adapter, a producer that rejects with a
    truthy value after some fragments makes the generator, under every
    interleaving, yield every one of those fragments and then throw, once
    the producer has had its turns and the queue is drained, and what it
    throws is an [Error] whose message is [Streaming error: ] followed by
    the [message] of the value rejected with. *)
Theorem terminal_event_discipline ragService awaited body :
  let observer := (streamChat ragService awaited body).1 in
  (exists chunks terminal,
     emitted observer = (chunk_event <$> chunks) ++ terminal
     /\ (terminal = [] /\ closed observer = false
         /\ (exists open,
               outcome (stream_head ragService awaited body) = Normal open
               /\ stream_end open = None)
         \/ closed observer = true
            /\ (terminal = [done_event "Stream completed"]
                \/ exists m, terminal = [error_event m])))
  /\ (forall ev done_, closed done_ = true -> next ev done_ = done_)
  /\ (forall c m, chunk_event c <> done_event m /\ chunk_event c <> error_event m)
  /\ (forall c m,
        data (chunk_event c)
        = "{" +:+ in_quotes "type" +:+ ":" +:+ in_quotes "chunk" +:+ ","
          +:+ in_quotes "content" +:+ ":" +:+ QuoteJSONString c +:+ "}"
        /\ data (done_event m)
           = "{" +:+ in_quotes "type" +:+ ":" +:+ in_quotes "done" +:+ ","
             +:+ in_quotes "message" +:+ ":" +:+ QuoteJSONString m +:+ "}"
        /\ data (error_event m)
           = "{" +:+ in_quotes "type" +:+ ":" +:+ in_quotes "error" +:+ ","
             +:+ in_quotes "message" +:+ ":" +:+ QuoteJSONString m +:+ "}")
  /\ QuoteJSONString "Stream completed" = in_quotes "Stream completed"
  /\ QuoteJSONString "Unknown error occurred" = in_quotes "Unknown error occurred"
  /\ QuoteJSONString ("a" +:+ String dquote "b\c" +:+ LF)
     = in_quotes ("a\" +:+ String dquote "b\\c\n")
  /\ (forall chunks,
        stream_to subscriber_start chunks
        = {| emitted :=
               (chunk_event <$> stream_chunks chunks)
               ++ match stream_end chunks with
                  | Some (Normal _) => [done_event "Stream completed"]
                  | Some (Throw (ErrorObj _ message)) => [error_event message]
                  | Some (Throw _) => [error_event "Unknown error occurred"]
                  | None => []
                  end;
             closed := match stream_end chunks with
                       | Some _ => true
                       | None => false
                       end |})
  /\ (forall s,
        ragService = Rag.service s ->
        Rag.reachable s ->
        (forall this', awaited = Normal this' ->
           exists s', Rag.reachable s' /\ this' = Rag.service s') ->
        invalid_query (query body) = false ->
        (exists m, observer = {| emitted := [error_event m]; closed := true |})
        /\ (Rag.isInitialized ragService = true ->
            observer
            = {| emitted := [error_event "chatHandler.streamResponse(...) is not a function or its return value is not async iterable"];
                 closed := true |}))
  /\ (Rag.isInitialized ragService = false ->
      invalid_query (query body) = false ->
      match awaited with
      | Throw (ErrorObj _ message) =>
          observer = {| emitted := [error_event message]; closed := true |}
      | Throw _ =>
          observer
          = {| emitted := [error_event "Unknown error occurred"]; closed := true |}
      | Normal this' =>
          Rag.chatHandler this' = None ->
          observer
          = {| emitted := [error_event "Chat handler not available"];
               closed := true |}
      end)
  /\ (forall this messages options tokens err schedule,
        well_formed (NodeLlamaCpp.completePrompt (chatSession this) (_formatMessages messages)
                       (sampling this options)) tokens (NodeLlamaCpp.Reject err) ->
        thrown_truthy err = true ->
        let start := _streamResponseChunks this messages options in
        (text <$> yields (run schedule start)) `prefix_of` tokens
        /\ (status (run schedule start) <> Running ->
            text <$> yields (run schedule start) = tokens)
        /\ let s := run (schedule
                         ++ replicate (S (length tokens)) ProducerTurn
                         ++ replicate (S (length tokens)) ConsumerTurn) start in
           yields s = (fun c => {| text := c; message := AIMessage c |}) <$> tokens
           /\ status s
              = Failed (Error ("Streaming error: "
                               +:+ match err with
                                   | ErrorObj _ message | ThrownObject message =>
                                       message
                                   | NonError _ => "undefined"
                                   end))).
Proof.
  intros observer. subst observer. split_and!.
  - destruct (invalid_query (query body)) eqn:Hv.
    + unfold streamChat. rewrite Hv. simpl.
      exists [], [error_event "Query is required and must be a non-empty string"].
      split; [done|]. right. split; [done|]. right. eauto.
    + pose proof (streamChat_valid ragService awaited body Hv) as E.
      cbv zeta in E. rewrite E. clear E.
      destruct (outcome (stream_head ragService awaited body)) as [chunks|e].
      * exists (stream_chunks chunks). eexists. split; [done|].
        destruct (stream_end chunks) as [[[]|e]|] eqn:He; simpl.
        -- right. split; [done|]. by left.
        -- right. split; [done|]. right. eauto.
        -- left. split_and!; try done. by exists chunks.
      * exists [], [error_event (error_message e)]. split; [done|].
        right. split; [done|]. right. eauto.
  - intros ev done_ Hc. unfold next. by rewrite Hc.
  - apply chunk_is_not_terminal.
  - done.
  - done.
  - done.
  - by vm_compute.
  - intros chunks. rewrite stream_to_events.
    by destruct (stream_end chunks) as [[[]|[]]|].
  - intros s -> Hr Hw Hv. split.
    + destruct (built_service_cannot_stream s awaited body Hr Hw Hv) as [m ->].
      by exists m.
    + intros Hi. by rewrite initialised_service_cannot_stream.
  - intros Hi Hv. rewrite (streamChat_valid _ _ _ Hv).
    unfold stream_head, mbind, M_bind, perform, Rag.getChatHandler.
    rewrite Hi. destruct awaited as [this'|[name message|message|v]]; simpl; try done.
    by intros ->.
  - intros this messages options tokens err schedule Hwf Ht start.
    assert (stage tokens (NodeLlamaCpp.Reject err) (run schedule start)) as Hs
      by (apply stage_run; [done | by apply stage_start]).
    split; [by eapply stage_prefix|]. split.
    + intros Hne. by destruct (stage_stopped _ _ _ Hs Hne).
    + apply (rejection_ends_the_stream this messages options tokens err schedule
               Hwf Ht).
Qed.

Lemma terminal_event_discipline_witness :
  let ragService := Rag.service Scenario.ready_system in
  let start :=
    _streamResponseChunks Scenario.failing_llm [HumanMessage "capital?"] no_options in
  let s := run [ConsumerTurn; ProducerTurn; ConsumerTurn; ConsumerTurn;
                ProducerTurn; ProducerTurn; ConsumerTurn; ConsumerTurn] start in
  Rag.reachable Scenario.ready_system
  /\ invalid_query (query Scenario.request) = false
  /\ (streamChat ragService (Throw (Error "unused")) Scenario.request).1
     = {| emitted := [error_event "chatHandler.streamResponse(...) is not a function or its return value is not async iterable"];
          closed := true |}
  /\ yields s = [ {| text := "Par"; message := AIMessage "Par" |} ]
  /\ status s = Failed (Error "Streaming error: out of memory")
  /\ stream_to subscriber_start
       (SYield "Par" (SThrow (Error "Streaming error: out of memory")))
     = {| emitted := [chunk_event "Par";
                      error_event "Streaming error: out of memory"];
          closed := true |}.
Proof.
  intros ragService start s.
  assert (Rag.reachable Scenario.ready_system) as Hr
    by (apply reachable_run, reachable_boot).
  assert (Rag.isInitialized ragService = true) as Hi by (vm_compute; reflexivity).
  destruct (terminal_event_discipline ragService (Throw (Error "unused"))
              Scenario.request)
    as (_ & _ & _ & _ & _ & _ & _ & Hloop & Hbuilt & _ & Hadapter).
  destruct (Hbuilt Scenario.ready_system eq_refl Hr) as [_ Hone];
    [intros this' H; discriminate H | reflexivity |].
  destruct (Hadapter Scenario.failing_llm [HumanMessage "capital?"] no_options
              ["Par"] (Error "out of memory") [ConsumerTurn; ProducerTurn; ConsumerTurn; ConsumerTurn]
              (conj eq_refl I) eq_refl) as (_ & _ & Hy & Hst).
  split_and!; [exact Hr | reflexivity | exact (Hone Hi) | exact Hy | exact Hst |].
  exact (Hloop (SYield "Par" (SThrow (Error "Streaming error: out of memory")))).
Defined.

(** ** Blank queries *)

Lemma trimEnd_head c r :
  is_white_space c = false -> trimEnd (String c r) <> EmptyString.
Proof. intros Hc. simpl. by rewrite Hc. Qed.

Lemma trim_whitespace_only s :
  trim s = EmptyString <-> whitespace_only s = true.
Proof.
  unfold trim. induction s as [|c r IH]; simpl; [done|].
  destruct (is_white_space c) eqn:Hc; simpl; [done|].
  rewrite Hc. simpl. split; intros H; discriminate H.
Qed.

Lemma invalid_not_string v :
  typeof v <> "string" -> invalid_query v = true.
Proof.
  intros Ht. unfold invalid_query.
  destruct v; simpl in *; try done; by rewrite ?orb_true_r.
Qed.

Lemma invalid_blank s : whitespace_only s = true -> invalid_query (JStr s) = true.
Proof.
  intros Hs. unfold invalid_query. apply trim_whitespace_only in Hs.
  rewrite Hs. simpl. by rewrite orb_true_r.
Qed.

Lemma blank_is_no_command s :
  whitespace_only s = true ->
  String.eqb (Cli.toLowerCase s) "exit" || String.eqb (Cli.toLowerCase s) "quit"
  = false.
Proof.
  destruct s as [|c r]; [done|]. simpl. intros [Hc _]%andb_true_iff.
  unfold is_white_space in Hc. unfold Cli.lower_code_unit.
  destruct c as [[] [] [] [] [] [] [] []]; try done.
Qed.

(** C5, as stated, fails: the whole-answer operation, handed a query of
    three spaces, retrieves with it and generates. *)
Lemma blank_query_reaches_retrieval :
  whitespace_only "   " = true
  /\ outcome (generateResponse Scenario.paris_handler "   " (JNum 1))
     = Normal "Paris"
  /\ exists messages,
       calls (generateResponse Scenario.paris_handler "   " (JNum 1))
       = [CallSimilaritySearch "   " (JNum 1); CallInvoke messages].
Proof. split; [done|]. split; [done|]. eexists. vm_compute. reflexivity. Qed.

(** C5, amended. A query that is empty or holds white space only, or that
    is no string, makes the streaming endpoint send one error event and
    complete, whatever the service, and without a single call on it; the
    question loop, which is the caller of the whole-answer operation, asks
    again on such a line without calling [generateResponse]. *)
Theorem blank_query_stops_at_the_boundary
    ragService awaited supplied_topK handler config_topK (line : string) (v : js_value) :
  whitespace_only line = true ->
  typeof v <> "string" ->
  streamChat ragService awaited {| query := JStr line; topK := supplied_topK |}
  = ({| emitted := [error_event "Query is required and must be a non-empty string"];
        closed := true |}, [])
  /\ streamChat ragService awaited {| query := v; topK := supplied_topK |}
     = ({| emitted := [error_event "Query is required and must be a non-empty string"];
           closed := true |}, [])
  /\ Cli.askQuestion handler config_topK line = (Cli.AskAgain, []).
Proof.
  intros Hline Hv. split_and!.
  - unfold streamChat. simpl. by rewrite (invalid_blank _ Hline).
  - unfold streamChat. simpl. by rewrite (invalid_not_string _ Hv).
  - unfold Cli.askQuestion. rewrite (blank_is_no_command _ Hline).
    apply trim_whitespace_only in Hline. by rewrite Hline.
Qed.

Lemma blank_query_stops_at_the_boundary_witness :
  whitespace_only "   " = true
  /\ typeof JNull <> "string"
  /\ Cli.askQuestion Scenario.paris_handler (JNum 3) "   " = (Cli.AskAgain, []).
Proof.
  split; [reflexivity|]. split; [discriminate|].
  apply (blank_query_stops_at_the_boundary
           (Rag.service Scenario.ready_system) (Throw (Error "unused"))
           (JNum 1) Scenario.paris_handler (JNum 3) "   " JNull);
    [reflexivity | discriminate].
Defined.

(** ** Prompt assembly *)

Lemma join_cons sep part parts :
  join sep (part :: parts)
  = part +:+ match parts with
             | [] => EmptyString
             | _ :: _ => sep +:+ join sep parts
             end.
Proof.
  unfold join. destruct parts; simpl; [|done].
  by rewrite string_app_nil_r.
Qed.

Lemma labels_from n docs :
  join (LF +:+ LF) (imap (fun i => label_document (n + i)) docs)
  = spec_blocks (S n) docs.
Proof.
  revert n. induction docs as [|doc rest IH]; intros n; [done|].
  rewrite imap_cons, join_cons.
  assert (imap ((fun i => label_document (n + i)) ∘ S) rest
          = imap (fun i => label_document (S n + i)) rest) as ->.
  { apply imap_ext. intros i x _. simpl. f_equal. lia. }
  rewrite IH. unfold label_document at 1.
  rewrite Nat.add_0_r, Nat.add_1_r.
  change (spec_blocks (S n) (doc :: rest))
    with ("[Document " +:+ pretty (S n) +:+ "]" +:+ LF +:+ pageContent doc
          +:+ match rest with
              | [] => EmptyString
              | _ :: _ => LF +:+ LF +:+ spec_blocks (S (S n)) rest
              end).
  rewrite ?string_app_assoc.
  destruct rest; [done|]. by rewrite ?string_app_assoc.
Qed.

Lemma spec_blocks_snoc n earlier doc :
  earlier <> [] ->
  spec_blocks n (earlier ++ [doc])
  = spec_blocks n earlier +:+ LF +:+ LF
    +:+ "[Document " +:+ pretty (n + length earlier)%nat +:+ "]" +:+ LF
    +:+ pageContent doc.
Proof.
  revert n. induction earlier as [|d rest IH]; intros n Hne; [done|].
  destruct rest as [|d' rest].
  - simpl. rewrite Nat.add_1_r.
    by rewrite ?string_app_assoc, ?string_app_nil_r.
  - change (spec_blocks n ((d :: d' :: rest) ++ [doc]))
      with ("[Document " +:+ pretty n +:+ "]" +:+ LF +:+ pageContent d
            +:+ LF +:+ LF +:+ spec_blocks (S n) ((d' :: rest) ++ [doc])).
    rewrite IH by done.
    change (spec_blocks n (d :: d' :: rest))
      with ("[Document " +:+ pretty n +:+ "]" +:+ LF +:+ pageContent d
            +:+ LF +:+ LF +:+ spec_blocks (S n) (d' :: rest)).
    rewrite ?string_app_assoc.
    replace (S n + length (d' :: rest))%nat with (n + length (d :: d' :: rest))%nat
      by (simpl; lia).
    done.
Qed.

Lemma build_context_spec docs : build_context docs = spec_context docs.
Proof.
  unfold build_context, spec_context. rewrite <- (labels_from 0).
  f_equal.
Qed.

Lemma str_or_self c : str_or c (str_or c EmptyString) = c.
Proof. unfold str_or. destruct (String.eqb_spec c EmptyString); by subst. Qed.

(** C7. When retrieval returns [docs] and the generator answers, the
    whole-answer operation makes exactly two calls, the search and one
    generation on the system prompt followed by the raw query as the user
    message, and returns the answer. The system prompt is the preamble, a
    blank line, the line [Context:], the context block, a blank line and the
    closing sentence. The context block is the one the specification
    describes: the text of each retrieved chunk under the label
    [Document i], i counted from 1, in the order of the retrieval result,
    which the store delivers by descending similarity, with one blank line
    between two chunks and nothing before the first or after the last. For
    no chunk at all the context block is empty; in every case the prompt
    carries the instruction to fall back on the model's own knowledge. *)
Theorem prompt_assembly this store model query topK docs reply :
  vectorStore this = Some store ->
  llm this = Some model ->
  store_similaritySearch store query (default_param topK (JNum 3)) = Normal docs ->
  invoke model [SystemMessage (build_systemPrompt (build_context docs));
                HumanMessage query] = Normal reply ->
  let context := build_context docs in
  generateResponse this query topK
  = (Normal (content_of reply),
     [CallSimilaritySearch query (default_param topK (JNum 3));
      CallInvoke
        [SystemMessage
           ("You are a helpful assistant. Use the following context to answer the user's question. If the context doesn't contain relevant information, use your knowledge to provide a helpful response."
            +:+ LF +:+ LF +:+ "Context:" +:+ LF +:+ context +:+ LF +:+ LF
            +:+ "Answer the user's question based on the context provided above.");
         HumanMessage query]])
  /\ context = spec_context docs
  /\ (forall doc, docs = [doc] ->
        context = "[Document 1]" +:+ LF +:+ pageContent doc)
  /\ (forall first second, docs = [first; second] ->
        context = "[Document 1]" +:+ LF +:+ pageContent first +:+ LF +:+ LF
                  +:+ "[Document 2]" +:+ LF +:+ pageContent second)
  /\ (forall earlier doc, docs = earlier ++ [doc] -> earlier <> [] ->
        context = build_context earlier +:+ LF +:+ LF
                  +:+ "[Document " +:+ pretty (length docs) +:+ "]" +:+ LF
                  +:+ pageContent doc)
  /\ length (imap label_document docs) = length docs
  /\ (forall i doc,
        docs !! i = Some doc ->
        imap label_document docs !! i
        = Some ("[Document " +:+ pretty (i + 1)%nat +:+ "]" +:+ LF
                +:+ pageContent doc))
  /\ (docs = [] -> context = EmptyString)
  /\ exists before after,
       build_systemPrompt context
       = before +:+ "use your knowledge to provide a helpful response."
         +:+ after.
Proof.
  intros Hs Hm Hdocs Hreply context. split_and!.
  - unfold generateResponse, similaritySearch.
    assert (default_param (default_param topK (JNum 3)) (JNum 3)
            = default_param topK (JNum 3)) as -> by (by destruct topK).
    rewrite Hs, Hm. unfold mbind, M_bind, perform, ret. simpl.
    rewrite Hdocs. simpl. fold (build_context docs).
    fold (build_systemPrompt (build_context docs)). rewrite Hreply. simpl.
    by rewrite str_or_self.
  - apply build_context_spec.
  - intros doc ->. subst context. rewrite build_context_spec.
    unfold spec_context. simpl.
    by rewrite ?string_app_assoc, ?string_app_nil_r.
  - intros first second ->. subst context. rewrite build_context_spec.
    unfold spec_context. simpl.
    by rewrite ?string_app_assoc, ?string_app_nil_r.
  - intros earlier doc -> Hne. subst context.
    rewrite !build_context_spec. unfold spec_context.
    rewrite length_app. simpl. rewrite Nat.add_1_r.
    apply (spec_blocks_snoc 1 earlier doc Hne).
  - apply length_imap.
  - intros i doc Hi. rewrite list_lookup_imap, Hi. done.
  - intros ->. done.
  - exists "You are a helpful assistant. Use the following context to answer the user's question. If the context doesn't contain relevant information, ".
    exists (LF +:+ LF +:+ "Context:" +:+ LF +:+ context +:+ LF +:+ LF +:+ closing).
    reflexivity.
Qed.

Lemma prompt_assembly_witness :
  let query := "Which capitals do you know?" in
  store_similaritySearch Scenario.two_document_store query
    (default_param (JNum 2) (JNum 3))
  = Normal [Scenario.paris_document; Scenario.berlin_document]
  /\ generateResponse Scenario.two_document_handler query (JNum 2)
     = (Normal "Paris",
        [CallSimilaritySearch query (JNum 2);
         CallInvoke
           [SystemMessage
              ("You are a helpful assistant. Use the following context to answer the user's question. If the context doesn't contain relevant information, use your knowledge to provide a helpful response."
               +:+ LF +:+ LF +:+ "Context:" +:+ LF
               +:+ "[Document 1]" +:+ LF +:+ "Paris is the capital of France."
               +:+ LF +:+ LF
               +:+ "[Document 2]" +:+ LF +:+ "Berlin is the capital of Germany."
               +:+ LF +:+ LF
               +:+ "Answer the user's question based on the context provided above.");
            HumanMessage query]]).
Proof.
  intros query. split; [reflexivity|].
  destruct (prompt_assembly Scenario.two_document_handler Scenario.two_document_store
              Scenario.stub_llm query (JNum 2)
              [Scenario.paris_document; Scenario.berlin_document] (AIMessage "Paris")
              eq_refl eq_refl eq_refl eq_refl) as (Hrun & _).
  rewrite Hrun. vm_compute. reflexivity.
Defined.

(** C2. The scenario, run on the code: the knowledge base holds the one
    document, the generator echoes [Paris], the service has been initialised,
    and the request asks for the capital of France with [topK] 1. The
    subscriber is sent a single error event and no chunk: the handler that
    [_doInitialize] builds has no [streamResponse]. *)
Theorem streaming_scenario_on_the_code :
  streamChat (Rag.service Scenario.ready_system) (Throw (Error "unused"))
    Scenario.request
  = ({| emitted := [error_event "chatHandler.streamResponse(...) is not a function or its return value is not async iterable"];
        closed := true |},
     [CallGetChatHandler])
  /\ emitted (streamChat (Rag.service Scenario.ready_system)
                (Throw (Error "unused")) Scenario.request).1
     <> [chunk_event "Paris"; done_event "Stream completed"].
Proof. split; [vm_compute; reflexivity|]. vm_compute. discriminate. Qed.







End ChatFacts.

(** * The stream adapter under any producer *)

Section AdapterMore.
Import NodeLlamaCpp LlamaAdapter.

Lemma pushed_app a b : pushed (a ++ b) = pushed a ++ pushed b.
Proof.
  induction a as [|[c| |e] a IH]; simpl; [done| |done|done]. by rewrite IH.
Qed.

Lemma accounted_step script t s :
  accounted script s -> accounted script (step t s).
Proof.
  intros H. pose proof H as (performed & Hscript & Hrun & Hpre & Hst & Herr).
  destruct t; unfold step.
  - destruct (pending s) as [|a rest] eqn:Hp; [by exists performed; rewrite Hp|].
    exists (performed ++ [a]). simpl. split_and!.
    + by rewrite Hscript, <- app_assoc.
    + intros Hs. specialize (Hrun Hs). rewrite pushed_app.
      destruct a; simpl; rewrite ?app_nil_r; try done.
      by rewrite app_assoc, Hrun.
    + rewrite pushed_app. by apply prefix_app_r.
    + destruct (status s); try done.
      destruct Hst as (err & Hin & Ht & He). exists err. split_and!; try done.
      apply elem_of_app. by left.
    + intros err He. apply elem_of_app.
      destruct a; simpl in He.
      * left. by apply Herr.
      * left. by apply Herr.
      * injection He as ->. right. by apply list_elem_of_singleton.
  - destruct (status s) eqn:Hs; [|exact H..].
    specialize (Hrun eq_refl). unfold consumer_step.
    destruct (negb (isComplete (vars s)) || (0 <? length (chunkQueue (vars s)))%nat)
      eqn:Hcond.
    + destruct (chunkQueue (vars s)) as [|c q] eqn:Hq; simpl.
      * exists performed. simpl. rewrite ?Hq. split_and!; try done.
      * exists performed. split_and!; try done.
        -- intros _. simpl. rewrite fmap_app. simpl. by rewrite <- app_assoc.
        -- simpl. rewrite fmap_app. simpl. rewrite <- Hrun.
           rewrite (app_assoc _ [c] q). by apply prefix_app_r.
    + destruct (streamingError (vars s)) as [err|] eqn:He; simpl.
      * destruct (thrown_truthy err) eqn:Ht; simpl;
          exists performed; (split_and!; try done);
          try (simpl; rewrite He; exact Herr).
        exists err. split_and!; try done. by apply Herr.
      * exists performed. split_and!; try done.
        simpl. rewrite He. exact Herr.
Qed.

Lemma accounted_run script schedule s :
  accounted script s -> accounted script (run schedule s).
Proof.
  revert s. induction schedule as [|t sch IH]; intros s Hs; [done|].
  rewrite adapter_run_cons. by apply IH, accounted_step.
Qed.

Lemma accounted_start this messages options :
  accounted (completePrompt (chatSession this) (_formatMessages messages)
               (sampling this options))
            (_streamResponseChunks this messages options).
Proof. exists []. simpl. split_and!; done. Qed.

Lemma over_step t s :
  status s <> Running ->
  yields (step t s) = yields s /\ status (step t s) = status s.
Proof.
  intros Hne. destruct t; unfold step.
  - destruct (pending s); by split.
  - destruct (status s) eqn:E; by split; rewrite ?E.
Qed.

Lemma over_run schedule s :
  status s <> Running ->
  yields (run schedule s) = yields s /\ status (run schedule s) = status s.
Proof.
  revert s. induction schedule as [|t sch IH]; intros s Hne; [done|].
  rewrite adapter_run_cons. destruct (over_step t s Hne) as [Hy Hs].
  destruct (IH (step t s)) as [Hy' Hs']; [by rewrite Hs|]. split; congruence.
Qed.

(** X1. Whatever the producer does, contract or no contract, and whatever
    the interleaving: what the consumer has been yielded is an initial
    segment of the fragments pushed, in the order they were pushed; while the
    generator runs, the fragments pushed so far are those yielded followed by
    those in the queue; and a generator that is over yields nothing more and
    keeps its result, whatever is pushed afterwards. *)
Theorem any_producer_fifo this messages options schedule :
  let script := completePrompt (chatSession this) (_formatMessages messages)
                  (sampling this options) in
  let s := run schedule (_streamResponseChunks this messages options) in
  (text <$> yields s) `prefix_of` pushed script
  /\ (status s = Running ->
      exists performed,
        script = performed ++ pending s
        /\ (text <$> yields s) ++ chunkQueue (vars s) = pushed performed)
  /\ (forall more,
        status s <> Running ->
        yields (run more s) = yields s /\ status (run more s) = status s).
Proof.
  intros script s.
  assert (accounted script s) as (performed & Hscript & Hrun & Hpre & _)
    by apply accounted_run, accounted_start.
  split_and!.
  - rewrite Hscript, pushed_app. by apply prefix_app_r.
  - intros Hs. exists performed. auto.
  - intros more Hne. by apply over_run.
Qed.

(** X2. The generator never throws a rejection as it came: whatever the
    producer does, a generator that has failed has thrown an [Error] whose
    message is [Streaming error: ] followed by what reading [message] of a
    reason the producer rejected with gives inside the template: the message
    of an [Error], the [message] of any other object that has one, and the
    text [undefined] for a value without that property; that reason is
    truthy, so that reading its [message] does not throw. A producer that
    honours its contract and rejects with a falsy reason ([undefined],
    [null], 0, the empty string) is not reported at all: the generator
    yields every fragment and returns as after a success. *)
Theorem rejection_reporting this messages options schedule tokens err :
  let script := completePrompt (chatSession this) (_formatMessages messages)
                  (sampling this options) in
  let s := run schedule (_streamResponseChunks this messages options) in
  (forall e, status s = Failed e ->
     exists reason,
       Reject reason ∈ script /\ thrown_truthy reason = true
       /\ get_message reason
          = Normal match reason with
                   | ErrorObj _ message | ThrownObject message => JStr message
                   | NonError _ => JUndefined
                   end
       /\ e = Error ("Streaming error: "
                     +:+ match reason with
                         | ErrorObj _ message | ThrownObject message => message
                         | NonError _ => "undefined"
                         end))
  /\ (well_formed script tokens (Reject err) ->
      thrown_truthy err = false ->
      status s <> Running ->
      status s = Returned /\ text <$> yields s = tokens).
Proof.
  intros script s. split.
  - intros e He.
    assert (accounted script s) as (performed & Hscript & _ & _ & Hst & _)
      by apply accounted_run, accounted_start.
    rewrite He in Hst. destruct Hst as (reason & Hin & Ht & ->).
    exists reason. split_and!; try done.
    + rewrite Hscript. apply elem_of_app. by left.
    + by destruct reason as [name message|message|[]].
  - intros Hwf Hf Hne.
    assert (stage tokens (Reject err) s) as Hs
      by (apply stage_run; [done | by apply stage_start]).
    destruct (stage_stopped _ _ _ Hs Hne) as [Hy Hst].
    split; [|done]. rewrite Hst. simpl. by rewrite Hf.
Qed.

Lemma rejection_reporting_witness :
  let schedule := [ProducerTurn; ProducerTurn; ConsumerTurn; ConsumerTurn] in
  let s := run schedule
               (_streamResponseChunks Scenario.rejecting_undefined_llm
                  [HumanMessage "capital?"] no_options) in
  let s' := run schedule
                (_streamResponseChunks Scenario.rejecting_object_llm
                   [HumanMessage "capital?"] no_options) in
  status s = Returned /\ text <$> yields s = ["Par"]
  /\ status s' = Failed (Error "Streaming error: disk full")
  /\ exists reason,
       Reject reason ∈ [OnTextChunk "Par"; Reject (ThrownObject "disk full")]
       /\ thrown_truthy reason = true.
Proof.
  intros schedule s s'.
  destruct (rejection_reporting Scenario.rejecting_undefined_llm
              [HumanMessage "capital?"] no_options schedule
              ["Par"] (NonError JUndefined)) as [_ H].
  destruct (rejection_reporting Scenario.rejecting_object_llm
              [HumanMessage "capital?"] no_options schedule
              ["Par"] (NonError JUndefined)) as [H' _].
  assert (status s' = Failed (Error "Streaming error: disk full")) as Hs'
    by (vm_compute; reflexivity).
  destruct (H' _ Hs') as (reason & Hin & Ht & _).
  destruct H as [H1 H2]; [by split | reflexivity | vm_compute; discriminate |].
  split_and!; [exact H1 | exact H2 | exact Hs' |].
  exists reason. split; [exact Hin | exact Ht].
Defined.

End AdapterMore.

(** * Prompts and sampling options of the adapter *)

Section GeneratorMore.
Import NodeLlamaCpp ModelLoader LlamaAdapter.

Lemma format_fold messages acc :
  fold_left (fun prompt message => prompt +:+ format_message message) messages acc
  = acc +:+ String.concat EmptyString (format_message <$> messages).
Proof.
  revert acc. induction messages as [|m rest IH]; intros acc; simpl.
  - by rewrite string_app_nil_r.
  - rewrite IH, string_app_assoc. f_equal.
    destruct rest; simpl; [by rewrite string_app_nil_r | done].
Qed.

Lemma concat_empty_app (a b : list string) :
  String.concat EmptyString (a ++ b)
  = String.concat EmptyString a +:+ String.concat EmptyString b.
Proof.
  induction a as [|x a IH]; simpl; [done|].
  destruct a as [|y a]; simpl in *.
  - destruct b; simpl; [by rewrite string_app_nil_r | done].
  - by rewrite IH, string_app_assoc.
Qed.

(** X3. The prompt [_formatMessages] builds is the blocks of the messages
    one after the other, followed by [Assistant:]; so the prompt of a
    conversation continued is the blocks of the earlier messages followed by
    the prompt of the later ones, a message of a class the function does not
    know leaves no trace in the prompt, and no messages at all give the bare
    [Assistant:]. *)
Theorem formatMessages_blocks (earlier later : list BaseMessage) (c : string) :
  _formatMessages (earlier ++ later)
  = String.concat EmptyString (format_message <$> earlier)
    +:+ _formatMessages later
  /\ _formatMessages (earlier ++ OtherMessage c :: later)
     = _formatMessages (earlier ++ later)
  /\ _formatMessages [] = "Assistant:"
  /\ _formatMessages [SystemMessage c] = "System: " +:+ c +:+ LF +:+ LF +:+ "Assistant:".
Proof.
  assert (forall a b, _formatMessages (a ++ b)
            = String.concat EmptyString (format_message <$> a) +:+ _formatMessages b)
    as Happ.
  { intros a b. unfold _formatMessages. rewrite !format_fold. simpl.
    rewrite fmap_app, concat_empty_app.
    change (EmptyString +:+ ?x) with x. by rewrite string_app_assoc. }
  split_and!.
  - apply Happ.
  - rewrite !Happ. by f_equal.
  - reflexivity.
  - unfold _formatMessages. simpl. by rewrite !string_app_assoc.
Qed.



End GeneratorMore.

(** * The model loader keeps what it has loaded *)

Section LoaderMore.
Import NodeLlamaCpp ModelLoader.

Lemma loadModel_from_returned answers ld :
  loadModel_from None answers ld = (ld, Some (Normal tt), []).
Proof. by destruct answers. Qed.

(** X5. [loadModel] asks the engine only for what the module variables
    do not hold yet: the calls it makes are the first of the missing ones, in
    the order binding, model, context, and all of them when it returns; a
    handle that is held is never replaced; three answers are enough for it to
    settle; when it returns, the three variables are set, and a second call
    returns at once without a call on the engine. After a failure the handles
    obtained before it are kept, so that the next call starts at the step that
    failed. *)
Theorem loadModel_asks_for_what_is_missing answers ld :
  let '(ld', settled, made) := loadModel_run answers ld in
  made `prefix_of` missing ld
  /\ (forall l, llama ld = Some l -> llama ld' = Some l)
  /\ (forall m, model ld = Some m -> model ld' = Some m)
  /\ (forall c, context ld = Some c -> context ld' = Some c)
  /\ ((3 <= length answers)%nat -> is_Some settled)
  /\ (settled = Some (Normal tt) ->
      made = missing ld
      /\ is_Some (llama ld') /\ is_Some (model ld') /\ is_Some (context ld')
      /\ forall more, loadModel_run more ld' = (ld', Some (Normal tt), []))
  /\ (forall e, settled = Some (Throw e) ->
      exists done_before failed,
        made = done_before ++ [failed]
        /\ missing ld = done_before ++ missing ld'
        /\ head (missing ld') = Some failed).
Proof.
  unfold loadModel_run, loadModel, after_model, after_context.
  destruct ld as [[l|] [m|] [c|]]; cbn.
  all: repeat (first [rewrite loadModel_from_returned | progress cbn
                     | match goal with
                       | |- context [loadModel_from (Some _) ?answers _] =>
                           destruct answers as [|[? ? ?] ?]
                       | |- context [match ?c with Normal _ => _ | Throw _ => _ end] =>
                           is_var c; destruct c
                       end]).
  all: split_and!; try done; try (by eexists); try (by cbn; lia).
  all: try (by intros _; split_and!; try done; intros more;
                 apply loadModel_from_returned).
  all: intros ? _;
    first [by (exists []; eexists) | by (exists [AtGetLlama]; eexists)
          | by (exists [AtLlamaLoadModel]; eexists)
          | by (exists [AtGetLlama; AtLlamaLoadModel]; eexists)].
Qed.

End LoaderMore.

(** * From the question to the engine *)

Section AnswerMore.
Import Effects LlamaAdapter VectorStore ChatHandler.

Lemma default_param_idem v d : default_param (default_param v d) d = default_param v d.
Proof. destruct v; simpl; try done. by destruct d. Qed.

Lemma invoke_prompt model messages :
  invoke model messages
  = match NodeLlamaCpp.prompt (chatSession model) (_formatMessages messages)
            (sampling model no_options) with
    | Normal response => Normal (AIMessage response)
    | Throw e => Throw e
    end.
Proof.
  unfold invoke, _generate. by destruct (NodeLlamaCpp.prompt _ _ _).
Qed.

(** X6. From the question to the engine: when retrieval returns [docs],
    the whole-answer operation asks the engine once, with the text
    [System: <system prompt>], blank line, [User: <query>], blank line,
    [Assistant:], with the adapter's own [maxTokens] and temperature and the
    fixed [topP] 0.9 and [topK] 40; what the engine answers is the answer,
    the empty string included, and what it throws is thrown on unchanged. *)
Theorem whole_answer_comes_from_the_engine this store model query topK docs :
  vectorStore this = Some store ->
  llm this = Some model ->
  store_similaritySearch store query (default_param topK (JNum 3)) = Normal docs ->
  let prompt_text :=
    "System: " +:+ build_systemPrompt (build_context docs) +:+ LF +:+ LF
    +:+ "User: " +:+ query +:+ LF +:+ LF +:+ "Assistant:" in
  let options :=
    {| NodeLlamaCpp.maxTokens := this_maxTokens model;
       NodeLlamaCpp.temperature := this_temperature model;
       NodeLlamaCpp.topP := 9 # 10;
       NodeLlamaCpp.topK := 40 |} in
  outcome (generateResponse this query topK)
  = NodeLlamaCpp.prompt (chatSession model) prompt_text options.
Proof.
  intros Hs Hm Hdocs prompt_text options.
  unfold generateResponse, similaritySearch.
  rewrite default_param_idem, Hs, Hm.
  unfold mbind, M_bind, perform, ret, outcome. simpl. rewrite Hdocs. simpl.
  rewrite invoke_prompt.
  assert (_formatMessages
            [SystemMessage (build_systemPrompt (build_context docs));
             HumanMessage query] = prompt_text) as ->.
  { unfold _formatMessages, prompt_text. simpl.
    change (EmptyString +:+ ?x) with x. by rewrite !string_app_assoc. }
  change (sampling model no_options) with options.
  destruct (NodeLlamaCpp.prompt _ _ _) as [response|e]; simpl; [|done].
  by rewrite str_or_self.
Qed.

Lemma whole_answer_comes_from_the_engine_witness :
  outcome (generateResponse Scenario.paris_handler
             "What is the capital of France?" JUndefined) = Normal "Paris".
Proof.
  rewrite (whole_answer_comes_from_the_engine Scenario.paris_handler
             Scenario.paris_store Scenario.stub_llm
             "What is the capital of France?" JUndefined
             [Scenario.paris_document] eq_refl eq_refl eq_refl).
  reflexivity.
Defined.

Lemma failed_search_stops this store query topK e :
  vectorStore this = Some store ->
  store_similaritySearch store query (default_param topK (JNum 3)) = Throw e ->
  generateResponse this query topK
  = (Throw e, [CallSimilaritySearch query (default_param topK (JNum 3))]).
Proof.
  intros Hs Hfail. unfold generateResponse, similaritySearch.
  rewrite default_param_idem, Hs.
  unfold mbind, M_bind, perform. simpl. by rewrite Hfail.
Qed.

(** X7. Retrieval comes before generation: a generation call is made
    only after the search has returned, it is the second and last call, and
    it carries the prompt built from what the search returned; a search that
    fails ends the operation with the error of the search and with no
    generation call; a handler without a store fails before any call; an
    answer is returned after exactly two calls. *)
Theorem retrieval_comes_before_generation this query topK :
  let k := default_param topK (JNum 3) in
  let r := generateResponse this query topK in
  (forall messages,
     CallInvoke messages ∈ calls r ->
     exists store docs,
       vectorStore this = Some store
       /\ store_similaritySearch store query k = Normal docs
       /\ messages = [SystemMessage (build_systemPrompt (build_context docs));
                      HumanMessage query]
       /\ calls r = [CallSimilaritySearch query k; CallInvoke messages])
  /\ (forall store e,
        vectorStore this = Some store ->
        store_similaritySearch store query k = Throw e ->
        r = (Throw e, [CallSimilaritySearch query k]))
  /\ (vectorStore this = None -> exists e, r = (Throw e, []))
  /\ (forall reply, outcome r = Normal reply -> length (calls r) = 2%nat).
Proof.
  intros k r. subst r. unfold generateResponse, similaritySearch.
  rewrite default_param_idem. fold k.
  unfold mbind, M_bind, perform, ret, raise, outcome, calls.
  destruct (vectorStore this) as [store|]; simpl.
  - destruct (store_similaritySearch store query k) as [docs|e] eqn:Hdocs; simpl.
    + destruct (llm this) as [model|]; simpl.
      * destruct (invoke model _) as [reply|e]; simpl.
        all: split_and!; try done; try (by intros ? ? [= <-]; rewrite Hdocs).
        all: intros messages Hin.
        all: apply elem_of_cons in Hin as [[=]|Hin].
        all: apply list_elem_of_singleton in Hin as [= ->].
        all: by exists store, docs.
      * split_and!; try done; try (by intros ? ? [= <-]; rewrite Hdocs).
        intros messages Hin. apply list_elem_of_singleton in Hin. done.
    + split_and!; try done.
      * intros messages Hin. apply list_elem_of_singleton in Hin. done.
      * intros store' e' [= <-]. rewrite Hdocs. by intros [= <-].
  - split_and!; try done.
    + intros messages Hin. by apply elem_of_nil in Hin.
    + intros _. by eexists.
Qed.

End AnswerMore.

Section QuestionLoopMore.
Import Effects LlamaAdapter VectorStore ChatHandler Cli.

(** X8. The question loop: [exit] and [quit], in any mix of upper and
    lower case, end the session without a call on the handler, whatever the
    handler is; every other line that is not blank is handed, as typed, to
    [generateResponse] with the configured top-k, nothing else is called, and
    the loop goes on whether the answer comes or an [Error] is thrown, whose
    message is then what is shown: a search that fails with an [Error] shows
    its message after the one search call. An object thrown that is no
    [Error] has its [message] shown as well; only [null] and [undefined]
    thrown end the loop, since reading their [message] throws inside the
    [catch] clause, in a callback nothing awaits. *)
Theorem question_loop_outcomes chatHandler config_topK query :
  let asked := generateResponse chatHandler query config_topK in
  let k := default_param config_topK (JNum 3) in
  (toLowerCase query = "exit" \/ toLowerCase query = "quit" ->
   askQuestion chatHandler config_topK query = (Goodbye, []))
  /\ (toLowerCase query <> "exit" -> toLowerCase query <> "quit" ->
      ChatController.whitespace_only query = false ->
      (askQuestion chatHandler config_topK query).2 = calls asked
      /\ (forall response,
            outcome asked = Normal response ->
            (askQuestion chatHandler config_topK query).1 = Answer response)
      /\ (forall name message,
            outcome asked = Throw (ErrorObj name message) ->
            (askQuestion chatHandler config_topK query).1 = ErrorLine message)
      /\ (forall store name message,
            vectorStore chatHandler = Some store ->
            store_similaritySearch store query k = Throw (ErrorObj name message) ->
            askQuestion chatHandler config_topK query
            = (ErrorLine message, [CallSimilaritySearch query k]))
      /\ (forall message,
            outcome asked = Throw (ThrownObject message) ->
            (askQuestion chatHandler config_topK query).1 = ErrorLine message)
      /\ (outcome asked = Throw (NonError JUndefined) ->
          (askQuestion chatHandler config_topK query).1
          = UnhandledRejection
              (TypeError "Cannot read properties of undefined (reading 'message')"))
      /\ (outcome asked = Throw (NonError JNull) ->
          (askQuestion chatHandler config_topK query).1
          = UnhandledRejection
              (TypeError "Cannot read properties of null (reading 'message')"))).
Proof.
  intros asked k. unfold askQuestion. split.
  - intros [-> | ->]; reflexivity.
  - intros Hexit Hquit Hblank.
    destruct (String.eqb_spec (toLowerCase query) "exit") as [|_]; [done|].
    destruct (String.eqb_spec (toLowerCase query) "quit") as [|_]; [done|].
    simpl.
    destruct (String.eqb_spec (trim query) EmptyString) as [Ht|_].
    { apply trim_whitespace_only in Ht. congruence. }
    fold asked. split_and!.
    + destruct (outcome asked) as [response|e]; [done|].
      by destruct (get_message e).
    + by intros response ->.
    + by intros name message ->.
    + intros store name message Hs Hfail.
      pose proof (failed_search_stops chatHandler store query config_topK _
                    Hs Hfail) as Hstop.
      fold asked in Hstop. by rewrite Hstop.
    + by intros message ->.
    + by intros ->.
    + by intros ->.
Qed.

Lemma question_loop_outcomes_witness :
  askQuestion Scenario.paris_handler (JNum 3) "QuIt" = (Goodbye, [])
  /\ (askQuestion Scenario.paris_handler (JNum 3) "Where is Paris?").1
     = Answer "Paris".
Proof.
  destruct (question_loop_outcomes Scenario.paris_handler (JNum 3) "QuIt")
    as (Hbye & _).
  destruct (question_loop_outcomes Scenario.paris_handler (JNum 3)
              "Where is Paris?") as (_ & Hask).
  split; [apply Hbye; by right|].
  destruct Hask as (_ & Hanswer & _); [done..|].
  by apply Hanswer.
Defined.

End QuestionLoopMore.

Section RequestMore.
Import Effects LlamaAdapter VectorStore ChatHandler ChatController.

Lemma valid_text s : whitespace_only s = false -> invalid_query (JStr s) = false.
Proof.
  intros Hs. unfold invalid_query. simpl.
  destruct (String.eqb_spec (trim s) EmptyString) as [Ht|_].
  { apply trim_whitespace_only in Ht. congruence. }
  destruct (String.eqb_spec s EmptyString) as [->|_]; [done|done].
Qed.

(** X9. A request that arrives before the service is initialised waits
    for the initialisation. If that fails, the subscriber is sent the one
    error event with the message of the failure and is completed, and nothing
    but [getChatHandler] has been called; no handler is asked to stream. If it
    succeeds, the request is served exactly as a request with the same body
    that finds the service already initialised, the configured top-k being
    the same before and after. *)
Theorem request_before_ready ragService awaited body s :
  query body = JStr s ->
  whitespace_only s = false ->
  Rag.isInitialized ragService = false ->
  match awaited with
  | Throw e =>
      streamChat ragService awaited body
      = ({| emitted := [error_event (error_message e)]; closed := true |},
         [CallGetChatHandler])
  | Normal ready =>
      Rag.isInitialized ready = true ->
      Rag.config ready = Rag.config ragService ->
      forall later, streamChat ragService awaited body = streamChat ready later body
  end.
Proof.
  intros Hq Hs Hi. pose proof (valid_text s Hs) as Hv. rewrite <- Hq in Hv.
  unfold streamChat. rewrite Hv.
  destruct awaited as [ready|e].
  - intros Hr Hc later.
    unfold stream_head, requested_k, Rag.getChatHandler, Rag.getTopK.
    rewrite Hi, Hr, Hc. done.
  - unfold stream_head, Rag.getChatHandler. rewrite Hi.
    unfold mbind, M_bind, perform, outcome, calls. simpl. done.
Qed.

Lemma request_before_ready_witness :
  streamChat (Rag.new_RagService ∅ (7 # 10))
    (Throw (Error "model file not found")) Scenario.request
  = ({| emitted := [error_event "model file not found"]; closed := true |},
     [CallGetChatHandler]).
Proof.
  exact (request_before_ready (Rag.new_RagService ∅ (7 # 10))
           (Throw (Error "model file not found")) Scenario.request
           "What is the capital of France?" eq_refl eq_refl eq_refl).
Defined.

End RequestMore.

(** * The service once it is ready, and on its way there *)

Section RagMore.
Import NodeLlamaCpp ModelLoader LlamaAdapter VectorStore Rag.

(** ** Once ready, always ready *)

Lemma ready_step ev s :
  lifecycle s -> isInitialized (service s) = true ->
  let s' := (step ev s).1 in
  service s' = service s /\ promises s' = promises s /\ frames s' = frames s
  /\ trace s' = trace s
  /\ Forall (fun r => r = ReturnedAtOnce) (step ev s).2.
Proof.
  intros L Hi. destruct ev as [|p ans|]; simpl.
  - unfold initialize. rewrite Hi. simpl. split_and!; try done.
    by repeat constructor.
  - unfold deliver. destruct (ready_complete s L Hi) as (_ & _ & _ & Hf & _).
    rewrite Hf, lookup_empty. by split_and!.
  - unfold onModuleDestroy. by destruct (cleanupModel (service s)).
Qed.

Lemma ready_run evs s :
  lifecycle s -> isInitialized (service s) = true ->
  let s' := (run evs s).1 in
  service s' = service s /\ promises s' = promises s /\ frames s' = frames s
  /\ trace s' = trace s
  /\ Forall (fun r => r = ReturnedAtOnce) (run evs s).2.
Proof.
  revert s. induction evs as [|ev evs IH]; intros s L Hi; simpl.
  - by split_and!.
  - pose proof (ready_step ev s L Hi) as (Hs & Hp & Hf & Ht & Ho).
    pose proof (lifecycle_step ev s L) as L1.
    destruct (step ev s) as [s1 o1]. simpl in *.
    assert (isInitialized (service s1) = true) as Hi1 by (by rewrite Hs).
    specialize (IH s1 L1 Hi1). destruct (run evs s1) as [s2 o2]. simpl in *.
    destruct IH as (Hs2 & Hp2 & Hf2 & Ht2 & Ho2).
    split_and!; try congruence. by apply Forall_app.
Qed.

Lemma resume_cleanupModel at_ ans s :
  match at_ with
  | AtImport _ => True
  | _ => cleanupModel (service s) = true
  end ->
  let '(s', r) := resume at_ ans s in
  match r with
  | Suspend (AtImport _) | Raise _ => True
  | Suspend _ | Return => cleanupModel (service s') = true
  end.
Proof.
  destruct at_ as [i|l| | | |docs|docs|store|]; unfold resume; intros Hc.
  - destruct (ans_import ans); [|done].
    destruct (imports !! S i); [done|].
    unfold after_imports, continue_load.
    destruct (loadModel _); [done|].
    unfold after_loadModel.
    destruct (new_ChatLlamaCpp _ _ _); [|done].
    destruct (if ans_dir_exists ans then _ else _); [|done].
    by destruct (ans_index_exists ans).
  - destruct (loadModel_resume _ _ _) as [ld r]. destruct r as [next|e]; [|done].
    unfold continue_load. destruct next; [done|].
    unfold after_loadModel.
    destruct (new_ChatLlamaCpp _ _ _); [|done].
    destruct (if ans_dir_exists ans then _ else _); [|done].
    by destruct (ans_index_exists ans).
  - by destruct (ans_import ans).
  - by destruct (ans_faiss_load ans).
  - destruct (ans_documents ans); [|done]. by destruct (0 <? length a)%nat.
  - by destruct (ans_import ans).
  - by destruct (ans_fromDocuments ans).
  - by destruct (saveVectorStore _ _).
  - by destruct (initializeVectorStore _).
Qed.

Lemma cleanup_stored_step ev s :
  lifecycle s -> cleanup_stored s -> cleanup_stored (step ev s).1.
Proof.
  intros L K. pose proof K as [Kf Ki]. destruct ev as [|p ans|]; simpl.
  - unfold initialize. destruct (isInitialized (service s)) eqn:Hi; [done|].
    destruct (initializationPromise (service s)) as [p|] eqn:Hp; [done|].
    simpl. split; simpl; [|congruence].
    intros q at_ Hq. rewrite (lifecycle_no_frames s L Hp) in Hq.
    apply lookup_insert_Some in Hq as [[_ <-]|[_ Hq]]; [done|].
    by rewrite lookup_empty in Hq.
  - unfold deliver. destruct (frames s !! p) as [at_|] eqn:Hp; [|done].
    destruct (in_flight s L p at_ Hp) as (_ & _ & Hi & _).
    pose proof (resume_frame at_ ans s) as R.
    pose proof (resume_cleanupModel at_ ans s (Kf p at_ Hp)) as C.
    destruct (resume at_ ans s) as [s1 r].
    destruct R as (_ & Rf & _ & _ & _ & Rr).
    assert (forall q x, frames s1 !! q = Some x -> q = p) as Honly.
    { intros q x Hq. rewrite Rf in Hq. destruct (decide (q = p)); [done|].
      by rewrite (lifecycle_one_frame s p q at_) in Hq. }
    destruct r as [at'| |e]; split; simpl.
    + intros q x Hq. apply lookup_insert_Some in Hq as [[_ <-]|[Hne Hq]].
      * by destruct at'.
      * by apply Honly in Hq.
    + destruct Rr as [Ri _]. congruence.
    + intros q x Hq. apply lookup_delete_Some in Hq as [Hne Hq].
      by apply Honly in Hq.
    + done.
    + intros q x Hq. apply lookup_delete_Some in Hq as [Hne Hq].
      by apply Honly in Hq.
    + congruence.
  - unfold onModuleDestroy. by destruct (cleanupModel (service s)).
Qed.

Lemma cleanup_stored_reachable s : reachable s -> cleanup_stored s.
Proof.
  intros (env & t & evs & ->).
  assert (forall evs s, lifecycle s -> cleanup_stored s ->
                        cleanup_stored (run evs s).1) as Hrun.
  { clear evs. induction evs as [|ev evs IH]; intros s L K; [done|]. simpl.
    pose proof (lifecycle_step ev s L) as L1.
    pose proof (cleanup_stored_step ev s L K) as K1.
    destruct (step ev s) as [s1 o1]. specialize (IH s1 L1 K1).
    by destruct (run evs s1). }
  apply Hrun; [apply lifecycle_boot|]. split; [|done].
  intros p at_ Hp. simpl in Hp. by rewrite lookup_empty in Hp.
Qed.

Lemma destroyed_stays s evs :
  lifecycle s -> isInitialized (service s) = true ->
  cleanupModel (service s) = true ->
  (In ModuleDestroy evs \/ loader_vars s = loader_start) ->
  loader_vars (run evs s).1 = loader_start.
Proof.
  revert s. induction evs as [|ev evs IH]; intros s L Hi Hc Hd; simpl.
  - by destruct Hd.
  - pose proof (ready_step ev s L Hi) as (Hs & _).
    pose proof (lifecycle_step ev s L) as L1.
    assert (loader_vars (step ev s).1 = loader_start
            \/ (ev <> ModuleDestroy
                /\ loader_vars (step ev s).1 = loader_vars s)) as Hl.
    { destruct ev as [|p ans|]; simpl.
      - right. unfold initialize. by rewrite Hi.
      - right. unfold deliver.
        destruct (ready_complete s L Hi) as (_ & _ & _ & Hf & _).
        by rewrite Hf, lookup_empty.
      - left. unfold onModuleDestroy. by rewrite Hc. }
    destruct (step ev s) as [s1 o1]. simpl in *.
    specialize (IH s1 L1). destruct (run evs s1) as [s2 o2]. simpl in *.
    apply IH; [congruence..|].
    destruct Hl as [Hl|[Hne Hl]]; [by right|].
    destruct Hd as [[Hd|Hd]|Hd]; [done|by left|right; congruence].
Qed.

(** X10. Once the service is initialised it stays so: whatever calls of
    [initialize], late settlements and [onModuleDestroy] follow, the fields
    of the service, its promises and the setup sequence are as they were, no
    invocation of [_doInitialize] is started, every call of [initialize]
    returns at once, and the service goes on to report ready, also after
    [onModuleDestroy] has released the model. *)
Theorem ready_is_absorbing s evs :
  reachable s ->
  isInitialized (service s) = true ->
  let s' := (run evs s).1 in
  service s' = service s
  /\ promises s' = promises s
  /\ frames s' = ∅
  /\ trace s' = trace s
  /\ Forall (fun r => r = ReturnedAtOnce) (run evs s).2
  /\ isReady (service s') = true
  /\ (In ModuleDestroy evs -> loader_vars s' = loader_start).
Proof.
  intros Hr Hi s'. pose proof (lifecycle_reachable s Hr) as L.
  destruct (ready_run evs s L Hi) as (Hs & Hp & Hf & Ht & Ho). fold s' in Hs, Hp, Hf, Ht.
  destruct (ready_complete s L Hi) as (Hl & Hv & _ & Hfr & _).
  split_and!; try done.
  - by rewrite Hf.
  - rewrite Hs. unfold isReady. rewrite Hi. simpl.
    by rewrite !bool_decide_eq_true_2.
  - intros Hd. apply destroyed_stays; try done; [|by left].
    by apply (cleanup_stored_reachable s Hr).
Qed.

Lemma ready_is_absorbing_witness :
  isReady (service (run [CallInitialize; ModuleDestroy;
                         Deliver 0 Scenario.all_well]
                        Scenario.ready_system).1) = true
  /\ loader_vars (run [CallInitialize; ModuleDestroy;
                       Deliver 0 Scenario.all_well]
                      Scenario.ready_system).1 = loader_start.
Proof.
  assert (reachable Scenario.ready_system) as Hr
    by (apply reachable_run, reachable_boot).
  assert (isInitialized (service Scenario.ready_system) = true) as Hi
    by (vm_compute; reflexivity).
  destruct (ready_is_absorbing Scenario.ready_system
              [CallInitialize; ModuleDestroy; Deliver 0 Scenario.all_well]
              Hr Hi) as (_ & _ & _ & _ & _ & Hready & Hld).
  split; [exact Hready|]. apply Hld. right. left. reflexivity.
Defined.

(** ** Promises settle once *)

Lemma settled_promise_step ev s p st :
  lifecycle s -> promises s !! p = Some st -> st <> Pending ->
  promises (step ev s).1 !! p = Some st.
Proof.
  intros L Hp Hst. destruct ev as [|q ans|]; simpl.
  - unfold initialize. destruct (isInitialized (service s)); [done|].
    destruct (initializationPromise (service s)); [done|]. simpl.
    by apply lookup_app_l_Some.
  - unfold deliver. destruct (frames s !! q) as [at_|] eqn:Hq; [|done].
    destruct (in_flight s L q at_ Hq) as (_ & Hpend & _).
    assert (q <> p) as Hne by (intros ->; congruence).
    pose proof (resume_frame at_ ans s) as R.
    destruct (resume at_ ans s) as [s1 r]. destruct R as (Rp & _).
    destruct r; simpl; rewrite Rp; [done|by rewrite list_lookup_insert_ne..].
  - unfold onModuleDestroy. by destruct (cleanupModel (service s)).
Qed.

(** X11. A promise settles once: in every run from a reachable state, a
    promise of [_doInitialize] that is fulfilled or rejected stays as it is,
    with the same error, whatever is called or settles afterwards, so that
    every caller attached to an attempt observes one and the same outcome,
    however late it looks; and no promise is ever forgotten. *)
Theorem settled_promise_is_final s evs p st :
  reachable s ->
  promises s !! p = Some st ->
  st <> Pending ->
  promises (run evs s).1 !! p = Some st
  /\ (length (promises s) <= length (promises (run evs s).1))%nat.
Proof.
  intros Hr. pose proof (lifecycle_reachable s Hr) as L. clear Hr.
  revert s L. induction evs as [|ev evs IH]; intros s L Hp Hst; [done|].
  simpl. pose proof (settled_promise_step ev s p st L Hp Hst) as H1.
  pose proof (lifecycle_step ev s L) as L1.
  assert (length (promises s) <= length (promises (step ev s).1))%nat as Hlen.
  { destruct ev as [|q ans|]; simpl.
    - unfold initialize. destruct (isInitialized (service s)); [done|].
      destruct (initializationPromise (service s)); [done|]. simpl.
      rewrite length_app. lia.
    - unfold deliver. destruct (frames s !! q) as [at_|]; [|done].
      pose proof (resume_frame at_ ans s) as R.
      destruct (resume at_ ans s) as [s1 r]. destruct R as (Rp & _).
      destruct r; simpl; rewrite ?length_insert, Rp; done.
    - unfold onModuleDestroy. by destruct (cleanupModel (service s)). }
  destruct (step ev s) as [s1 o1]. simpl in *.
  specialize (IH s1 L1 H1 Hst). destruct (run evs s1) as [s2 o2]. simpl in *.
  split; [tauto|lia].
Qed.

Lemma settled_promise_is_final_witness :
  promises (run [CallInitialize; Deliver 1 Scenario.all_well]
              (run Scenario.unreadable_index_run (boot ∅ (7 # 10))).1).1 !! 0%nat
  = Some (Rejected (Error "could not read faiss.index")).
Proof.
  assert (reachable (run Scenario.unreadable_index_run (boot ∅ (7 # 10))).1)
    as Hr by (apply reachable_run, reachable_boot).
  assert (promises (run Scenario.unreadable_index_run (boot ∅ (7 # 10))).1
            !! 0%nat
          = Some (Rejected (Error "could not read faiss.index"))) as Hp
    by (vm_compute; reflexivity).
  apply (settled_promise_is_final _
           [CallInitialize; Deliver 1 Scenario.all_well] 0%nat
           (Rejected (Error "could not read faiss.index")) Hr Hp).
  discriminate.
Defined.

(** ** The handler of a ready service *)

Lemma resume_builds_handler at_ ans s :
  (resume at_ ans s).2 = Return ->
  chatHandler (service (resume at_ ans s).1)
  = Some (ChatHandler.new_ChatHandler
            (vectorStore (service (resume at_ ans s).1))
            (llm (service (resume at_ ans s).1))).
Proof.
  destruct at_ as [i|l| | | |docs|docs|store|]; unfold resume.
  - destruct (ans_import ans); [|done].
    destruct (imports !! S i); [done|].
    unfold after_imports, continue_load.
    destruct (loadModel _); [done|].
    unfold after_loadModel.
    destruct (new_ChatLlamaCpp _ _ _); [|done].
    destruct (if ans_dir_exists ans then _ else _); [|done].
    by destruct (ans_index_exists ans).
  - destruct (loadModel_resume _ _ _) as [ld r]. destruct r as [next|e]; [|done].
    unfold continue_load. destruct next; [done|].
    unfold after_loadModel.
    destruct (new_ChatLlamaCpp _ _ _); [|done].
    destruct (if ans_dir_exists ans then _ else _); [|done].
    by destruct (ans_index_exists ans).
  - by destruct (ans_import ans).
  - by destruct (ans_faiss_load ans).
  - destruct (ans_documents ans); [|done]. by destruct (0 <? length a)%nat.
  - by destruct (ans_import ans).
  - by destruct (ans_fromDocuments ans).
  - by destruct (saveVectorStore _ _).
  - by destruct (initializeVectorStore _).
Qed.

Lemma handler_built_step ev s :
  lifecycle s ->
  (isInitialized (service s) = true ->
   chatHandler (service s)
   = Some (ChatHandler.new_ChatHandler (vectorStore (service s)) (llm (service s)))) ->
  isInitialized (service (step ev s).1) = true ->
  chatHandler (service (step ev s).1)
  = Some (ChatHandler.new_ChatHandler (vectorStore (service (step ev s).1))
            (llm (service (step ev s).1))).
Proof.
  intros L IH. destruct (isInitialized (service s)) eqn:Hi.
  { destruct (ready_step ev s L Hi) as (-> & _). intros _. by apply IH. }
  destruct ev as [|p ans|]; simpl.
  - unfold initialize. rewrite Hi.
    destruct (initializationPromise (service s)); simpl; congruence.
  - unfold deliver. destruct (frames s !! p) as [at_|] eqn:Hp; [|congruence].
    pose proof (resume_frame at_ ans s) as R.
    pose proof (resume_builds_handler at_ ans s) as B.
    destruct (resume at_ ans s) as [s1 r].
    destruct R as (_ & _ & _ & _ & _ & Rr).
    destruct r as [at'| |e]; simpl in *.
    + destruct Rr as [Ri _]. congruence.
    + intros _. by apply B.
    + congruence.
  - unfold onModuleDestroy. destruct (cleanupModel (service s)); simpl; congruence.
Qed.

Lemma handler_built_reachable s :
  reachable s ->
  isInitialized (service s) = true ->
  chatHandler (service s)
  = Some (ChatHandler.new_ChatHandler (vectorStore (service s)) (llm (service s))).
Proof.
  intros (env & t & evs & ->).
  assert (forall evs s, lifecycle s ->
            (isInitialized (service s) = true ->
             chatHandler (service s)
             = Some (ChatHandler.new_ChatHandler (vectorStore (service s))
                       (llm (service s)))) ->
            isInitialized (service (run evs s).1) = true ->
            chatHandler (service (run evs s).1)
            = Some (ChatHandler.new_ChatHandler
                      (vectorStore (service (run evs s).1))
                      (llm (service (run evs s).1)))) as Hrun.
  { clear evs. induction evs as [|ev evs IH]; intros s L H; [done|]. simpl.
    pose proof (lifecycle_step ev s L) as L1.
    pose proof (handler_built_step ev s L H) as H1.
    destruct (step ev s) as [s1 o1]. specialize (IH s1 L1 H1).
    by destruct (run evs s1). }
  apply Hrun; [apply lifecycle_boot|done].
Qed.

(** X12. A ready service hands out the handler it built: in every
    reachable state in which the service is initialised, [getChatHandler]
    returns, without waiting and without the error [Chat handler not
    available], the [ChatHandler] over the very store and adapter the service
    holds, whose [generateResponse] is therefore the whole-answer operation
    over these two. *)
Theorem ready_service_hands_out_its_handler s awaited :
  reachable s ->
  isInitialized (service s) = true ->
  exists store model handler,
    vectorStore (service s) = Some store
    /\ llm (service s) = Some model
    /\ getChatHandler (service s) awaited = Normal handler
    /\ handler = ChatHandler.new_ChatHandler (Some store) (Some model)
    /\ handler !! "generateResponse"
       = Some (ChatHandler.AsyncMethod
                 (ChatHandler.generateResponse
                    {| ChatHandler.vectorStore := Some store;
                       ChatHandler.llm := Some model |})).
Proof.
  intros Hr Hi. pose proof (lifecycle_reachable s Hr) as L.
  destruct (ready_complete s L Hi) as ([model Hl] & [store Hv] & _).
  pose proof (handler_built_reachable s Hr Hi) as Hh.
  exists store, model, (ChatHandler.new_ChatHandler (Some store) (Some model)).
  split_and!; try done.
  unfold getChatHandler. rewrite Hi. simpl. by rewrite Hh, Hl, Hv.
Qed.

Lemma ready_service_hands_out_its_handler_witness :
  getChatHandler (service Scenario.ready_system) (Throw (Error "unused"))
  = Normal (ChatHandler.new_ChatHandler (Some Scenario.paris_store)
              (Some Scenario.stub_llm)).
Proof.
  assert (reachable Scenario.ready_system) as Hr
    by (apply reachable_run, reachable_boot).
  assert (isInitialized (service Scenario.ready_system) = true) as Hi
    by (vm_compute; reflexivity).
  assert (vectorStore (service Scenario.ready_system)
          = Some Scenario.paris_store) as Hstore by (vm_compute; reflexivity).
  assert (llm (service Scenario.ready_system) = Some Scenario.stub_llm)
    as Hllm by (vm_compute; reflexivity).
  destruct (ready_service_hands_out_its_handler Scenario.ready_system
              (Throw (Error "unused")) Hr Hi)
    as (store & model & handler & Hs & Hm & Hg & -> & _).
  rewrite Hg. congruence.
Defined.

(** ** The warm-up endpoint *)

Lemma isReady_isInitialized s :
  lifecycle s -> isReady (service s) = isInitialized (service s).
Proof.
  intros L. unfold isReady. destruct (isInitialized (service s)) eqn:Hi; [|done].
  destruct (ready_complete s L Hi) as (Hl & Hv & _).
  by rewrite !bool_decide_eq_true_2.
Qed.

Lemma reachable_initialize s : reachable s -> reachable (initialize s).1.
Proof.
  intros Hr. pose proof (reachable_step CallInitialize s Hr) as H.
  simpl in H. by destruct (initialize s).
Qed.

Lemma initialize_attaches s :
  isInitialized (service s) = false ->
  exists p, promise_of (initialize s).2 = Some p
            /\ initializationPromise (service (initialize s).1) = Some p.
Proof.
  intros Hi. unfold initialize. rewrite Hi.
  destruct (initializationPromise (service s)) as [p|] eqn:Hp; simpl; eauto.
Qed.

(** X13. What the warm-up endpoint answers. On a ready service it
    answers at once that the system is already initialised, and changes
    nothing. Otherwise it attaches to the attempt in flight, or starts the one
    new attempt, and answers only when that attempt has settled: with status
    200 and [initialized successfully] only if the service is then ready, after
    which a further warm-up finds it already initialised; with status 500 and
    the message of the error when the attempt was rejected with an [Error]. *)
Theorem warmup_answers s evs :
  reachable s ->
  let w := RagController.warmup s in
  let s2 := (run evs w.1).1 in
  (invocations (trace w.1) <= invocations (trace s) + 1)%nat
  /\ match RagController.warmup_response s2 w.2 with
     | Some response =>
         (response = RagController.already_initialized
          /\ isReady (service s) = true /\ w.1 = s)
         \/ (response = RagController.initialized_successfully
             /\ isReady (service s) = false
             /\ isReady (service s2) = true
             /\ RagController.warmup s2
                = (s2, RagController.Responded RagController.already_initialized))
         \/ (exists e p,
               response = RagController.initialization_failed e
               /\ RagController.http_status response = 500
               /\ isReady (service s) = false
               /\ promises s2 !! p = Some (Rejected e)
               /\ forall name message,
                    e = ErrorObj name message ->
                    RagController.message response = message)
     | None => isReady (service s) = false
     end.
Proof.
  intros Hr w s2. pose proof (lifecycle_reachable s Hr) as L.
  subst w s2. unfold RagController.warmup.
  destruct (isReady (service s)) eqn:Hready; simpl.
  { split; [lia|]. left. done. }
  rewrite (isReady_isInitialized s L) in Hready.
  pose proof (reachable_initialize s Hr) as Hr1.
  destruct (initialize_attaches s Hready) as (p & Hp & Hh).
  assert (invocations (trace (initialize s).1) <= invocations (trace s) + 1)%nat
    as Hinv.
  { unfold initialize. rewrite Hready.
    destruct (initializationPromise (service s)); simpl; [lia|].
    unfold invocations. rewrite !List.filter_app, !length_app. simpl. lia. }
  destruct (initialize s) as [s1 handed]. simpl in *.
  split; [done|].
  pose proof (reachable_run evs s1 Hr1) as Hr2.
  pose proof (lifecycle_reachable _ Hr2) as L2.
  unfold RagController.warmup_response, observed. rewrite Hp.
  destruct (promises (run evs s1).1 !! p) as [[| |e]|] eqn:Hobs; try done.
  - right; left.
    assert (isInitialized (service (run evs s1).1) = true) as Hi2.
    { destruct (isInitialized (service (run evs s1).1)) eqn:E; [done|].
      by destruct (not_ready_yet _ L2 E p). }
    pose proof (isReady_isInitialized _ L2) as Hready2. rewrite Hi2 in Hready2.
    split_and!; try done.
    unfold RagController.warmup. by rewrite Hready2.
  - right; right. exists e, p. split_and!; try done.
    by intros name message ->.
Qed.

Lemma warmup_answers_witness :
  RagController.warmup_response
    (run (replicate 13 (Deliver 0 Scenario.all_well))
       (RagController.warmup (boot ∅ (7 # 10))).1).1
    (RagController.warmup (boot ∅ (7 # 10))).2
  = Some RagController.initialized_successfully
  /\ isReady (service (run (replicate 13 (Deliver 0 Scenario.all_well))
                         (RagController.warmup (boot ∅ (7 # 10))).1).1) = true.
Proof.
  assert (RagController.warmup_response
            (run (replicate 13 (Deliver 0 Scenario.all_well))
               (RagController.warmup (boot ∅ (7 # 10))).1).1
            (RagController.warmup (boot ∅ (7 # 10))).2
          = Some RagController.initialized_successfully) as E
    by (vm_compute; reflexivity).
  split; [exact E|].
  destruct (warmup_answers (boot ∅ (7 # 10))
              (replicate 13 (Deliver 0 Scenario.all_well))
              (reachable_boot ∅ (7 # 10))) as [_ H].
  rewrite E in H.
  destruct H as [(H & _)|[(_ & _ & H & _)|(e & p & H & _)]].
  - discriminate H.
  - exact H.
  - discriminate H.
Defined.

(** ** An attempt that meets no failure completes *)

Lemma is_normal_spec {A : Type} (c : completion A) :
  is_normal c = true -> exists a, c = Normal a.
Proof. destruct c; [eauto|done]. Qed.

Lemma cooperative_spec ans :
  cooperative ans = true ->
  (exists u, ans_import ans = Normal u)
  /\ (exists l, ans_getLlama (ans_loader ans) = Normal l)
  /\ (exists m, ans_loadModel (ans_loader ans) = Normal m)
  /\ (exists ctx session, ans_createContext (ans_loader ans) = Normal ctx
                          /\ getSequence ctx = Normal session)
  /\ (exists u, (if ans_dir_exists ans then Normal tt else ans_mkdir ans) = Normal u)
  /\ (exists store, ans_faiss_load ans = Normal store)
  /\ (exists documents, ans_documents ans = Normal documents)
  /\ (exists store, ans_fromDocuments ans = Normal store
                    /\ is_normal (store_save store) = true)
  /\ (exists u, (if save_dir_exists (ans_save ans) then Normal tt
                 else save_mkdir (ans_save ans)) = Normal u)
  /\ (exists store, initializeVectorStore (ans_initialize ans) = Normal store).
Proof.
  unfold cooperative. rewrite !andb_true_iff.
  intros (((((((((H1 & H2) & H3) & H4) & H5) & H6) & H7) & H8) & H9) & H10).
  split_and!; try by apply is_normal_spec.
  - destruct (ans_createContext (ans_loader ans)) as [ctx|]; [|done].
    apply is_normal_spec in H4 as [session ?]. eauto.
  - destruct (ans_dir_exists ans); [eauto|]. by apply is_normal_spec.
  - destruct (ans_fromDocuments ans) as [store|]; [|done]. eauto.
  - destruct (save_dir_exists (ans_save ans)); [eauto|]. by apply is_normal_spec.
Qed.

Lemma cooperative_after_loadModel ans s :
  cooperative ans = true ->
  is_Some (model (loader_vars s)) ->
  (exists ctx, context (loader_vars s) = Some ctx
               /\ is_normal (getSequence ctx) = true) ->
  let '(s', r) := after_loadModel ans s in
  loader_vars s' = loader_vars s
  /\ match r with
     | Suspend at' => (remaining at' <= 4)%nat
                      /\ match at' with
                         | AtImportFaissForLoad | AtLoadDocuments => True
                         | _ => False
                         end
     | _ => False
     end.
Proof.
  intros Hc [m Hm] (ctx & Hctx & Hseq).
  apply cooperative_spec in Hc as (_ & _ & _ & _ & (u & Hdir) & _).
  apply is_normal_spec in Hseq as [session Hseq].
  unfold after_loadModel, new_ChatLlamaCpp, getModel, getContext.
  rewrite Hm, Hctx, Hseq. simpl. rewrite Hdir.
  destruct (ans_index_exists ans); simpl; split_and!; done || lia.
Qed.

Lemma cooperative_continue_load next ans s bound :
  cooperative ans = true ->
  (forall ctx, context (loader_vars s) = Some ctx ->
     is_normal (getSequence ctx) = true) ->
  match next with
  | Some AtGetLlama => (7 < bound)%nat
  | Some AtLlamaLoadModel => (6 < bound)%nat
  | Some AtCreateContext => (5 < bound)%nat /\ is_Some (model (loader_vars s))
  | None => (4 < bound)%nat /\ is_Some (model (loader_vars s))
            /\ is_Some (context (loader_vars s))
  end ->
  let '(s', r) := continue_load next ans s in
  match r with
  | Suspend at' => (remaining at' < bound)%nat /\ sound at' s'
  | Return => True
  | Raise _ => False
  end.
Proof.
  intros Hc Hctx Hnext. unfold continue_load.
  destruct next as [[]|]; simpl.
  - by split.
  - by split.
  - by destruct Hnext.
  - destruct Hnext as (Hb & Hm & [ctx Hcx]).
    pose proof (cooperative_after_loadModel ans s Hc Hm) as H.
    destruct (after_loadModel ans s) as [s' r].
    destruct H as (Hld & H); [by exists ctx; eauto|].
    destruct r as [at'| |]; try done. destruct H as [Hle Hat].
    split; [lia|]. split; [by rewrite Hld|]. by destruct at'.
Qed.

Lemma cooperative_resume at_ ans s :
  cooperative ans = true ->
  sound at_ s ->
  let '(s', r) := resume at_ ans s in
  match r with
  | Suspend at' => (remaining at' < remaining at_)%nat /\ sound at' s'
  | Return => True
  | Raise _ => False
  end.
Proof.
  intros Hc [Hctx Hat]. pose proof Hc as Hcoop.
  apply cooperative_spec in Hc
    as ((u1 & Himp) & (l & Hl) & (m & Hm) & (ctx & session & Hcc & Hseq)
        & (u2 & Hdir) & (st1 & Hload) & (docs & Hdocs) & (st2 & Hfrom & Hsave)
        & (u3 & Hsdir) & (st3 & Hinit)).
  destruct at_ as [i|lpc| | | |documents|documents|store|]; unfold resume.
  - rewrite Himp. destruct (imports !! S i) as [name|] eqn:Hi.
    + apply lookup_lt_Some in Hi. simpl in Hi. simpl. split; [lia|done].
    + unfold after_imports.
      apply (cooperative_continue_load _ ans
               (set_service (set_cleanupModel true) s)); [done|done|].
      simpl. unfold loadModel, after_model, after_context.
      destruct (llama (loader_vars s)); [|lia].
      destruct (model (loader_vars s)); [|lia].
      destruct (context (loader_vars s)); split_and!; (lia || eauto).
  - destruct lpc; unfold loadModel_resume.
    + rewrite Hl.
      apply (cooperative_continue_load _ ans); [done|done|].
      simpl. unfold after_model, after_context. simpl.
      destruct (model (loader_vars s)); [|lia].
      destruct (context (loader_vars s)); split_and!; (lia || eauto).
    + rewrite Hm.
      apply (cooperative_continue_load _ ans); [done|done|].
      simpl. unfold after_context. simpl.
      destruct (context (loader_vars s)); split_and!; (lia || eauto).
    + rewrite Hcc.
      apply (cooperative_continue_load None ans); [done| |].
      * simpl. intros ctx' [= <-]. by rewrite Hseq.
      * simpl. split_and!; (lia || eauto).
  - rewrite Himp. simpl. split; [lia|done].
  - by rewrite Hload.
  - rewrite Hdocs. destruct (0 <? length docs)%nat; simpl; (split; [lia|done]).
  - rewrite Himp. simpl. split; [lia|done].
  - rewrite Hfrom. simpl. split; [lia|done].
  - unfold saveVectorStore. rewrite Hsdir. simpl. simpl in Hat.
    apply is_normal_spec in Hat as [u Hu]. by rewrite Hu.
  - by rewrite Hinit.
Qed.

Lemma undisturbed_run answers s p at_ :
  lifecycle s ->
  frames s !! p = Some at_ ->
  sound at_ s ->
  Forall (fun ans => cooperative ans = true) answers ->
  (remaining at_ <= length answers)%nat ->
  let s' := (run (Deliver p <$> answers) s).1 in
  isInitialized (service s') = true
  /\ promises s' !! p = Some Fulfilled
  /\ initializationPromise (service s') = Some p.
Proof.
  revert s at_. induction answers as [|ans rest IH]; intros s at_ L Hp Hs Hall Hlen.
  { simpl in Hlen. destruct at_ as [|[]| | | | | | |]; simpl in Hlen; lia. }
  apply Forall_cons in Hall as [Hc Hall].
  rewrite fmap_cons, run_deliver. cbv zeta. simpl in Hlen.
  pose proof (lifecycle_deliver p ans s L) as L1.
  destruct (in_flight s L p at_ Hp) as (Hh & Hpend & Hi & Hok).
  pose proof (resume_frame at_ ans s) as R.
  pose proof (cooperative_resume at_ ans s Hc Hs) as C.
  assert ((exists at', frames (deliver p ans s) !! p = Some at'
                       /\ sound at' (deliver p ans s)
                       /\ (remaining at' < remaining at_)%nat)
          \/ (isInitialized (service (deliver p ans s)) = true
              /\ initializationPromise (service (deliver p ans s)) = Some p))
    as Hstep.
  { unfold deliver. rewrite Hp. destruct (resume at_ ans s) as [s1 r].
    destruct R as (Rp & Rf & Rh & _ & _ & Rr).
    destruct r as [at'| |e]; [| |done].
    - left. exists at'. simpl. rewrite lookup_insert_eq. destruct C as [Hlt Hs1].
      split_and!; try done.
    - right. simpl. destruct (Rr Hok) as (Ri & _). split; congruence. }
  destruct Hstep as [(at' & Hp' & Hs' & Hlt)|[Hi1 Hh1]].
  - apply (IH (deliver p ans s) at' L1 Hp' Hs' Hall). lia.
  - pose proof (ready_run (Deliver p <$> rest) (deliver p ans s) L1 Hi1)
      as (Hsv & Hpr & _).
    destruct (ready_complete _ L1 Hi1) as (_ & _ & _ & _ & q & Hq & Hful).
    rewrite Hsv, Hpr. split_and!; try done. congruence.
Qed.

(** X14. An attempt that nothing disturbs makes the service ready. Take
    an invocation of [_doInitialize] suspended at any of its [await]s, in a
    state that owes nothing to earlier failures or to a shutdown: a context
    the loader holds hands out a sequence, the model is still held when the
    invocation waits for [createContext], and a store that waits to be saved
    can be saved. If every operation the invocation awaits from then on
    fulfils, the directory can be made, the store saved and
    [initializeVectorStore] returns, then after at most as many settlements
    as the steps it has left (thirteen from its first import: six imports,
    three steps of the loader, and four to build and save the index) the
    service is ready and reports it, the promise of the attempt is fulfilled,
    and it remains the handle of the service, so that every caller attached
    to it is released; settlements that arrive once the attempt has returned
    change nothing. The condition on the state is needed: after
    [onModuleDestroy] has run while the invocation waited for
    [createContext], the same settlements end the attempt with the error of
    the adapter's constructor. *)
Theorem undisturbed_attempt_completes s p at_ answers :
  (reachable s ->
   frames s !! p = Some at_ ->
   sound at_ s ->
   Forall (fun ans => cooperative ans = true) answers ->
   (remaining at_ <= length answers)%nat ->
   let s' := (run (Deliver p <$> answers) s).1 in
   (remaining at_ <= 13)%nat
   /\ isReady (service s') = true
   /\ HealthController.checkHealth (service s')
      = {| HealthController.http_status := 200;
           HealthController.status := "healthy";
           HealthController.initialized := true;
           HealthController.ready := true |}
   /\ promises s' !! p = Some Fulfilled
   /\ initializationPromise (service s') = Some p
   /\ frames s' = ∅)
  /\ (let destroyed :=
        (run (CallInitialize :: replicate 8 (Deliver 0 Scenario.all_well)
              ++ [ModuleDestroy]) (boot ∅ (7 # 10))).1 in
      cooperative Scenario.all_well = true
      /\ frames destroyed !! 0%nat = Some (AtLoadModel AtCreateContext)
      /\ model (loader_vars destroyed) = None
      /\ promises (run (Deliver 0 <$> replicate 13 Scenario.all_well) destroyed).1
         = [Rejected (Error "Model and context must be loaded before creating ChatLlamaCpp instance")]).
Proof.
  split; [|by vm_compute].
  intros Hr Hp Hs Hall Hlen s'. pose proof (lifecycle_reachable s Hr) as L.
  destruct (undisturbed_run answers s p at_ L Hp Hs Hall Hlen) as (Hi & Hful & Hh).
  fold s' in Hi, Hful, Hh.
  assert (lifecycle s') as L' by (by apply lifecycle_run).
  pose proof (isReady_isInitialized s' L') as Hready. rewrite Hi in Hready.
  destruct (ready_complete s' L' Hi) as (_ & _ & _ & Hf & _).
  split_and!; try done.
  - destruct at_ as [i|[]| | | | | | |]; simpl; lia.
  - unfold HealthController.checkHealth. by rewrite Hready.
Qed.

Lemma undisturbed_attempt_completes_witness :
  isReady
    (service
       (run (Deliver 0 <$> replicate 13 Scenario.all_well)
          (run [CallInitialize] (boot ∅ (7 # 10))).1).1) = true.
Proof.
  assert (reachable (run [CallInitialize] (boot ∅ (7 # 10))).1) as Hr
    by (apply reachable_run, reachable_boot).
  assert (sound (AtImport 0) (run [CallInitialize] (boot ∅ (7 # 10))).1) as Hs
    by (split; [by intros ctx [=] | done]).
  assert (Forall (fun ans => cooperative ans = true)
                 (replicate 13 Scenario.all_well)) as Hall
    by (by repeat constructor).
  destruct (undisturbed_attempt_completes
              (run [CallInitialize] (boot ∅ (7 # 10))).1 0%nat (AtImport 0)
              (replicate 13 Scenario.all_well)) as [Hok _].
  destruct (Hok Hr eq_refl Hs Hall) as (_ & Hready & _); [simpl; lia|].
  exact Hready.
Defined.

End RagMore.

(** * The engine is asked once for each handle *)

Section LoadOnce.
Import NodeLlamaCpp ModelLoader LlamaAdapter VectorStore Rag.

Lemma after_context_missing ld at_ :
  after_context ld = Some at_ -> at_ ∈ missing ld.
Proof.
  unfold after_context, missing.
  destruct (context ld); [done|]. intros [= <-].
  rewrite !elem_of_app, list_elem_of_singleton. tauto.
Qed.

Lemma after_model_missing ld at_ :
  after_model ld = Some at_ -> at_ ∈ missing ld.
Proof.
  unfold after_model. destruct (model ld) eqn:Hm; [apply after_context_missing|].
  intros [= <-]. unfold missing. rewrite Hm.
  rewrite !elem_of_app, list_elem_of_singleton. tauto.
Qed.

Lemma loadModel_missing ld at_ :
  loadModel ld = Some at_ -> at_ ∈ missing ld.
Proof.
  unfold loadModel. destruct (llama ld) eqn:Hl; [apply after_model_missing|].
  intros [= <-]. unfold missing. rewrite Hl.
  rewrite !elem_of_app, list_elem_of_singleton. tauto.
Qed.

Lemma keeps_refl ld : keeps ld ld.
Proof. by split_and!. Qed.

Lemma keeps_trans ld1 ld2 ld3 : keeps ld1 ld2 -> keeps ld2 ld3 -> keeps ld1 ld3.
Proof. intros (A1 & A2 & A3) (B1 & B2 & B3). split_and!; eauto. Qed.

Lemma keeps_missing ld ld' at_ :
  keeps ld ld' -> at_ ∈ missing ld' -> at_ ∈ missing ld.
Proof.
  intros (Hl & Hm & Hc). unfold missing. rewrite !elem_of_app.
  intros [H|[H|H]]; [left|right; left|right; right].
  - destruct (llama ld') eqn:E'; [by apply elem_of_nil in H|].
    destruct (llama ld) eqn:E; [|done]. specialize (Hl _ eq_refl). congruence.
  - destruct (model ld') eqn:E'; [by apply elem_of_nil in H|].
    destruct (model ld) eqn:E; [|done]. specialize (Hm _ eq_refl). congruence.
  - destruct (context ld') eqn:E'; [by apply elem_of_nil in H|].
    destruct (context ld) eqn:E; [|done]. specialize (Hc _ eq_refl). congruence.
Qed.

Lemma missing_spec ld at_ :
  at_ ∈ missing ld ->
  match at_ with
  | AtGetLlama => llama ld = None
  | AtLlamaLoadModel => model ld = None
  | AtCreateContext => context ld = None
  end.
Proof.
  unfold missing. rewrite !elem_of_app. intros [H|[H|H]].
  - destruct (llama ld); [by apply elem_of_nil in H|].
    by apply list_elem_of_singleton in H as ->.
  - destruct (model ld); [by apply elem_of_nil in H|].
    by apply list_elem_of_singleton in H as ->.
  - destruct (context ld); [by apply elem_of_nil in H|].
    by apply list_elem_of_singleton in H as ->.
Qed.

Lemma loadModel_resume_keeps at_ ans ld :
  at_ ∈ missing ld -> keeps ld (loadModel_resume at_ ans ld).1.
Proof.
  intros H%missing_spec. unfold loadModel_resume.
  destruct at_.
  - destruct (ans_getLlama ans); simpl; [|apply keeps_refl].
    split_and!; simpl; [congruence|done|done].
  - destruct (ans_loadModel ans); simpl; [|apply keeps_refl].
    split_and!; simpl; [done|congruence|done].
  - destruct (ans_createContext ans); simpl; [|apply keeps_refl].
    split_and!; simpl; [done|done|congruence].
Qed.

Lemma request_of_loader_call cfg at_ : request_of (loader_call cfg at_) = Some at_.
Proof. by destruct at_. Qed.

Lemma continue_load_requests next ans s :
  (forall at_, next = Some at_ -> at_ ∈ missing (loader_vars s)) ->
  let '(s', r) := continue_load next ans s in
  loader_vars s' = loader_vars s
  /\ (exists new,
        trace s' = trace s ++ new
        /\ forall c at_, c ∈ new -> request_of c = Some at_ ->
                         at_ ∈ missing (loader_vars s))
  /\ match r with
     | Suspend (AtLoadModel at_) => at_ ∈ missing (loader_vars s')
     | _ => True
     end.
Proof.
  intros Hnext. unfold continue_load. destruct next as [at_|].
  - simpl. split_and!; [done| |by apply Hnext].
    eexists. split; [done|]. intros c at' ->%list_elem_of_singleton.
    rewrite request_of_loader_call. intros [= <-]. by apply Hnext.
  - unfold after_loadModel.
    destruct (new_ChatLlamaCpp _ _ _).
    2:{ split_and!; try done. exists []. split; [by rewrite app_nil_r|].
        intros c at_ Hin. by apply elem_of_nil in Hin. }
    destruct (if ans_dir_exists ans then _ else _).
    2:{ split_and!; try done. exists []. split; [by rewrite app_nil_r|].
        intros c at_ Hin. by apply elem_of_nil in Hin. }
    destruct (ans_index_exists ans); simpl; (split_and!; [done| |done]).
    all: eexists; split; [done|].
    all: by intros c at_ ->%list_elem_of_singleton.
Qed.

Lemma resume_requests at_ ans s :
  (forall l, at_ = AtLoadModel l -> l ∈ missing (loader_vars s)) ->
  let '(s', r) := resume at_ ans s in
  keeps (loader_vars s) (loader_vars s')
  /\ (exists new,
        trace s' = trace s ++ new
        /\ forall c l, c ∈ new -> request_of c = Some l ->
                       l ∈ missing (loader_vars s))
  /\ match r with
     | Suspend (AtLoadModel l) => l ∈ missing (loader_vars s')
     | _ => True
     end.
Proof.
  intros Hat.
  assert (forall s0 : system,
            exists new : list setup_call,
              trace s0 = trace s0 ++ new
              /\ forall c l, c ∈ new -> request_of c = Some l ->
                             l ∈ missing (loader_vars s)) as Hnil.
  { intros s0. exists []. split; [by rewrite app_nil_r|].
    intros c l Hin. by apply elem_of_nil in Hin. }
  assert (forall c, request_of c = None ->
            exists new : list setup_call,
              trace s ++ [c] = trace s ++ new
              /\ forall c l, c ∈ new -> request_of c = Some l ->
                             l ∈ missing (loader_vars s)) as Hone.
  { intros c Hc. exists [c]. split; [done|].
    intros c' l ->%list_elem_of_singleton. congruence. }
  destruct at_ as [i|lpc| | | |docs|docs|store|]; unfold resume.
  - destruct (ans_import ans); [|by split_and!; [apply keeps_refl|apply Hnil|]].
    destruct (imports !! S i).
    { simpl. split_and!; [apply keeps_refl|by apply Hone|done]. }
    unfold after_imports.
    pose proof (continue_load_requests
                  (loadModel (loader_vars (set_service (set_cleanupModel true) s)))
                  ans (set_service (set_cleanupModel true) s)) as H.
    destruct (continue_load _ ans _) as [s' r].
    destruct H as (Hld & Hnew & Hr); [intros l; apply loadModel_missing|].
    split_and!; [rewrite Hld; apply keeps_refl|done|done].
  - pose proof (loadModel_resume_keeps lpc (ans_loader ans) (loader_vars s)
                  (Hat lpc eq_refl)) as Hk.
    assert (forall next,
              (loadModel_resume lpc (ans_loader ans) (loader_vars s)).2
              = Normal next ->
              forall l, next = Some l ->
                l ∈ missing (loadModel_resume lpc (ans_loader ans) (loader_vars s)).1)
      as Hnext.
    { intros next. unfold loadModel_resume. destruct lpc.
      - destruct (ans_getLlama (ans_loader ans)); [|done]. simpl.
        intros [= <-] l. apply after_model_missing.
      - destruct (ans_loadModel (ans_loader ans)); [|done]. simpl.
        intros [= <-] l. apply after_context_missing.
      - destruct (ans_createContext (ans_loader ans)); [|done]. simpl.
        by intros [= <-] l. }
    destruct (loadModel_resume lpc (ans_loader ans) (loader_vars s)) as [ld r].
    simpl in Hk, Hnext.
    destruct r as [next|e]; [|simpl; split_and!; [done|apply (Hnil s)|done]].
    pose proof (continue_load_requests next ans (set_loader ld s)
                  (Hnext next eq_refl)) as H.
    destruct (continue_load next ans (set_loader ld s)) as [s' r].
    destruct H as (Hld & (new & Hnew & Hreq) & Hr). simpl in Hld, Hnew, Hreq.
    split_and!; [by rewrite Hld| |done].
    exists new. split; [done|]. intros c l Hin Hc.
    apply (keeps_missing _ ld); [done|]. by eapply Hreq.
  - destruct (ans_import ans); simpl;
      (split_and!; [apply keeps_refl|by (apply Hone || apply Hnil)|done]).
  - destruct (ans_faiss_load ans); simpl;
      (split_and!; [apply keeps_refl|by apply Hnil|done]).
  - destruct (ans_documents ans); [|by split_and!; [apply keeps_refl|apply Hnil|]].
    destruct (0 <? length a)%nat; simpl;
      (split_and!; [apply keeps_refl|by apply Hone|done]).
  - destruct (ans_import ans); simpl;
      (split_and!; [apply keeps_refl|by (apply Hone || apply Hnil)|done]).
  - destruct (ans_fromDocuments ans); simpl;
      (split_and!; [apply keeps_refl|by (apply Hone || apply Hnil)|done]).
  - destruct (saveVectorStore _ _); simpl;
      (split_and!; [apply keeps_refl|by apply Hnil|done]).
  - destruct (initializeVectorStore _); simpl;
      (split_and!; [apply keeps_refl|by apply Hnil|done]).
Qed.

Lemma awaited_is_missing_step ev s :
  lifecycle s -> awaited_is_missing s -> awaited_is_missing (step ev s).1.
Proof.
  intros L A. destruct ev as [|p ans|]; simpl.
  - unfold initialize. destruct (isInitialized (service s)); [done|].
    destruct (initializationPromise (service s)) as [p|] eqn:Hp; [done|].
    intros q at_. simpl. rewrite (lifecycle_no_frames s L Hp).
    intros [[_ [=]]|[_ Hq]]%lookup_insert_Some. by rewrite lookup_empty in Hq.
  - unfold deliver. destruct (frames s !! p) as [at_|] eqn:Hp; [|done].
    pose proof (resume_frame at_ ans s) as R.
    pose proof (resume_requests at_ ans s) as Q.
    destruct (resume at_ ans s) as [s1 r].
    destruct R as (_ & Rf & _).
    destruct Q as (_ & _ & Hr); [intros l ->; by apply (A p)|].
    assert (forall q x, frames s1 !! q = Some x -> q = p) as Honly.
    { intros q x Hq. rewrite Rf in Hq. destruct (decide (q = p)); [done|].
      by rewrite (lifecycle_one_frame s p q at_) in Hq. }
    destruct r as [at'| |e]; intros q l; simpl.
    + intros [[_ ->]|[Hne Hq]]%lookup_insert_Some; [done|].
      by apply Honly in Hq.
    + intros [Hne Hq]%lookup_delete_Some. by apply Honly in Hq.
    + intros [Hne Hq]%lookup_delete_Some. by apply Honly in Hq.
  - unfold onModuleDestroy. destruct (cleanupModel (service s)); [|done].
    intros q l _. simpl. destruct l; unfold missing; simpl;
      rewrite ?elem_of_cons; tauto.
Qed.

Lemma awaited_is_missing_reachable s : reachable s -> awaited_is_missing s.
Proof.
  intros (env & t & evs & ->).
  assert (forall evs s, lifecycle s -> awaited_is_missing s ->
                        awaited_is_missing (run evs s).1) as Hrun.
  { clear evs. induction evs as [|ev evs IH]; intros s L A; [done|]. simpl.
    pose proof (lifecycle_step ev s L) as L1.
    pose proof (awaited_is_missing_step ev s L A) as A1.
    destruct (step ev s) as [s1 o1]. specialize (IH s1 L1 A1).
    by destruct (run evs s1). }
  apply Hrun; [apply lifecycle_boot|].
  intros p at_ Hp. simpl in Hp. by rewrite lookup_empty in Hp.
Qed.

Lemma step_requests ev s :
  awaited_is_missing s ->
  ev <> ModuleDestroy ->
  keeps (loader_vars s) (loader_vars (step ev s).1)
  /\ exists new,
       trace (step ev s).1 = trace s ++ new
       /\ forall c l, c ∈ new -> request_of c = Some l ->
                      l ∈ missing (loader_vars s).
Proof.
  intros A Hev. destruct ev as [|p ans|]; [| |done]; simpl.
  - unfold initialize.
    destruct (isInitialized (service s)).
    { split; [apply keeps_refl|]. exists []. split; [by rewrite app_nil_r|].
      intros c l Hin. by apply elem_of_nil in Hin. }
    destruct (initializationPromise (service s)).
    { split; [apply keeps_refl|]. exists []. split; [by rewrite app_nil_r|].
      intros c l Hin. by apply elem_of_nil in Hin. }
    simpl. split; [apply keeps_refl|].
    eexists [_; _]. split; [by rewrite <- app_assoc|].
    intros c l [->|[->|Hin]%elem_of_cons]%elem_of_cons; try done.
    by apply elem_of_nil in Hin.
  - unfold deliver. destruct (frames s !! p) as [at_|] eqn:Hp.
    2:{ split; [apply keeps_refl|]. exists []. split; [by rewrite app_nil_r|].
        intros c l Hin. by apply elem_of_nil in Hin. }
    pose proof (resume_requests at_ ans s) as Q.
    destruct (resume at_ ans s) as [s1 r].
    destruct Q as (Hk & Hnew & _); [intros l ->; by apply (A p)|].
    by destruct r.
Qed.

(** X15. A handle that the loader holds is not asked for again. In every
    run from a reachable state in which the module is not destroyed, whatever
    attempts fail and are started again, the binding, the model and the
    context that the module variables hold are still held at the end, and
    the setup calls the engine only for handles that were missing at the
    start: once the model file has been loaded, no later attempt loads it
    again. *)
Theorem held_handles_are_not_requested_again s evs :
  reachable s ->
  ModuleDestroy ∉ evs ->
  let s' := (run evs s).1 in
  keeps (loader_vars s) (loader_vars s')
  /\ exists new,
       trace s' = trace s ++ new
       /\ (forall c l, c ∈ new -> request_of c = Some l ->
                       l ∈ missing (loader_vars s))
       /\ (is_Some (model (loader_vars s)) ->
           forall path, LlamaLoadModel path ∉ new).
Proof.
  intros Hr Hno s'. subst s'.
  assert (forall evs s, lifecycle s -> awaited_is_missing s ->
            ModuleDestroy ∉ evs ->
            keeps (loader_vars s) (loader_vars (run evs s).1)
            /\ exists new,
                 trace (run evs s).1 = trace s ++ new
                 /\ forall c l, c ∈ new -> request_of c = Some l ->
                                l ∈ missing (loader_vars s)) as Hrun.
  { clear. induction evs as [|ev evs IH]; intros s L A Hno.
    { split; [apply keeps_refl|]. exists []. split; [by rewrite app_nil_r|].
      intros c l Hin. by apply elem_of_nil in Hin. }
    apply not_elem_of_cons in Hno as [Hev Hno]. simpl.
    pose proof (lifecycle_step ev s L) as L1.
    pose proof (awaited_is_missing_step ev s L A) as A1.
    destruct (step_requests ev s A) as (Hk1 & new1 & Ht1 & Hq1); [done|].
    destruct (step ev s) as [s1 o1]. simpl in *.
    specialize (IH s1 L1 A1 Hno). destruct (run evs s1) as [s2 o2]. simpl in *.
    destruct IH as (Hk2 & new2 & Ht2 & Hq2).
    split; [by eapply keeps_trans|].
    exists (new1 ++ new2). split; [by rewrite Ht2, Ht1, app_assoc|].
    intros c l [Hin|Hin]%elem_of_app Hc; [by eapply Hq1|].
    apply (keeps_missing _ (loader_vars s1)); [done|]. by eapply Hq2. }
  destruct (Hrun evs s (lifecycle_reachable s Hr)
              (awaited_is_missing_reachable s Hr) Hno) as (Hk & new & Ht & Hq).
  split; [done|]. exists new. split_and!; try done.
  intros [m Hm] path Hin.
  specialize (Hq _ AtLlamaLoadModel Hin eq_refl).
  apply missing_spec in Hq. congruence.
Qed.

Lemma held_handles_are_not_requested_again_witness :
  exists new,
    trace (run (CallInitialize :: replicate 4 (Deliver 1 Scenario.all_well))
             (run Scenario.unreadable_index_run (boot ∅ (7 # 10))).1).1
    = trace (run Scenario.unreadable_index_run (boot ∅ (7 # 10))).1 ++ new
    /\ forall path, LlamaLoadModel path ∉ new.
Proof.
  assert (reachable (run Scenario.unreadable_index_run (boot ∅ (7 # 10))).1)
    as Hr by (apply reachable_run, reachable_boot).
  assert (ModuleDestroy
          ∉ CallInitialize :: replicate 4 (Deliver 1 Scenario.all_well)) as Hno.
  { simpl. intros H.
    repeat (apply elem_of_cons in H as [H|H]; [discriminate H|]).
    by apply elem_of_nil in H. }
  assert (is_Some (model (loader_vars
                            (run Scenario.unreadable_index_run
                               (boot ∅ (7 # 10))).1))) as Hm
    by (eexists; vm_compute; reflexivity).
  destruct (held_handles_are_not_requested_again _ _ Hr Hno)
    as (_ & new & Ht & _ & Hnone).
  exists new. split; [exact Ht|]. exact (Hnone Hm).
Defined.

End LoadOnce.

(** * src/rag/embeddings.js: batches *)

Section EmbeddingsMore.
Import Embeddings.

Lemma first_rejection_spec results :
  match first_rejection results with
  | None =>
      Forall2 (fun r v => value r = Normal v) results (fulfilled_values results)
  | Some (e, t) =>
      exists r, r ∈ results /\ value r = Throw e /\ at_time r = t
                /\ forall r' e', r' ∈ results -> value r' = Throw e' ->
                                 (t <= at_time r')%nat
  end.
Proof.
  induction results as [|r rest IH]; simpl; [constructor|].
  unfold fulfilled_values. simpl.
  destruct (value r) as [v|e] eqn:Hv.
  - destruct (first_rejection rest) as [[e t]|].
    + destruct IH as (r0 & Hin & Hr0 & Ht & Hmin). exists r0.
      split_and!; try done; [by right|].
      intros r' e' [->|Hin']%elem_of_cons Hr'; [congruence|by eapply Hmin].
    + by constructor.
  - destruct (first_rejection rest) as [[e0 t0]|].
    + destruct IH as (r0 & Hin & Hr0 & Ht & Hmin).
      destruct (t0 <? at_time r)%nat eqn:Hlt.
      * apply Nat.ltb_lt in Hlt. exists r0. split_and!; try done; [by right|].
        intros r' e' [->|Hin']%elem_of_cons Hr'; [lia|by eapply Hmin].
      * apply Nat.ltb_ge in Hlt. exists r. split_and!; try done; [by left|].
        intros r' e' [->|Hin']%elem_of_cons Hr'; [lia|].
        specialize (Hmin r' e' Hin' Hr'). lia.
    + exists r. split_and!; try done; [by left|].
      intros r' e' [->|Hin']%elem_of_cons Hr'; [lia|].
      apply list_elem_of_lookup in Hin' as [j Hj].
      destruct (Forall2_lookup_l _ _ _ j r' IH Hj) as (v & _ & Hn). congruence.
Qed.

Lemma Promise_all_spec results :
  match Promise_all results with
  | Normal values => Forall2 (fun r v => value r = Normal v) results values
  | Throw e => exists r, r ∈ results /\ value r = Throw e
  end.
Proof.
  unfold Promise_all. pose proof (first_rejection_spec results) as H.
  destruct (first_rejection results) as [[e t]|]; [|done].
  destruct H as (r & Hin & Hr & _). eauto.
Qed.

Lemma embed_loop_spec p texts fuel : forall i embeddings,
  (length texts - i < fuel)%nat ->
  let '(r, made) := embed_loop fuel p texts i embeddings in
  exists n,
    made = Extract <$> take (n * batchSize) (drop i texts)
    /\ match r with
       | Some (Normal all) =>
           made = Extract <$> drop i texts
           /\ exists news,
                all = embeddings ++ news
                /\ Forall2 (fun t v => value (extract p t) = Normal v)
                           (drop i texts) news
       | Some (Throw e) =>
           (1 <= n)%nat
           /\ exists t,
                t ∈ take batchSize (drop (i + (n - 1) * batchSize) texts)
                /\ value (extract p t) = Throw e
       | None => False
       end.
Proof.
  induction fuel as [|fuel IH]; intros i embeddings Hfuel; [lia|]. simpl.
  destruct (i <? length texts)%nat eqn:Hi.
  - apply Nat.ltb_lt in Hi.
    assert (slice i (i + batchSize) texts = take batchSize (drop i texts)) as ->.
    { unfold slice. f_equal. lia. }
    pose proof (Promise_all_spec (extract p <$> take batchSize (drop i texts))) as HP.
    destruct (Promise_all _) as [batchEmbeddings|e].
    + apply Forall2_fmap_l in HP.
      specialize (IH (i + batchSize)%nat (embeddings ++ batchEmbeddings)).
      destruct (embed_loop fuel p texts (i + batchSize) _) as [r made].
      destruct IH as (n & Hmade & Hr); [unfold batchSize; lia|].
      exists (S n). split.
      * rewrite Hmade, <- fmap_app. f_equal.
        rewrite <- (drop_drop texts batchSize i).
        rewrite take_take_drop. f_equal.
      * destruct r as [[all|e]|]; [| |done].
        -- destruct Hr as (Hall & news & -> & Hnews). split.
           ++ rewrite Hall, <- fmap_app. f_equal.
              rewrite <- (drop_drop texts batchSize i). apply take_drop.
           ++ exists (batchEmbeddings ++ news). split; [by rewrite app_assoc|].
              rewrite <- (take_drop batchSize (drop i texts)).
              apply Forall2_app; [done|]. by rewrite drop_drop.
        -- destruct Hr as (Hn & t & Hin & Ht). split; [lia|].
           exists t. split; [|done].
           replace (i + (S n - 1) * batchSize)%nat
             with (i + batchSize + (n - 1) * batchSize)%nat
             by (unfold batchSize; lia).
           done.
    + destruct HP as (r & Hin & Hr).
      apply list_elem_of_fmap in Hin as (t & -> & Hin).
      exists 1%nat. split; [by rewrite Nat.mul_1_l|].
      split; [lia|]. exists t. split; [|done].
      by rewrite Nat.sub_diag, Nat.mul_0_l, Nat.add_0_r.
  - apply Nat.ltb_ge in Hi. exists 0%nat.
    rewrite drop_ge by done. split; [done|]. split; [done|].
    exists []. split; [by rewrite app_nil_r|constructor].
Qed.

(** X16. [embedDocuments] embeds whole batches of ten, in the order of
    the texts, and always comes to an end. The model is loaded at most once,
    before any text is embedded, and not at all by an embedder that holds its
    pipeline. When it returns, it returns one vector per text, the vector of
    text number i at index i, every text has been handed to the pipeline once
    and in order. When it throws, either the model could not be loaded and no
    text was embedded, or the error is that of a text in the last batch that
    was started, and no text of a later batch has been handed to the
    pipeline. *)
Theorem embedDocuments_in_batches lib this texts :
  let '(r, this', made) := embedDocuments lib this texts in
  let loads :=
    match pipeline this with
    | Some _ => []
    | None => [LoadPipeline (modelName this)]
    end in
  modelName this' = modelName this
  /\ (forall p, pipeline this = Some p -> this' = this)
  /\ exists n,
       made = loads ++ (Extract <$> take (n * batchSize) texts)
       /\ match r with
          | Some (Normal all) =>
              made = loads ++ (Extract <$> texts)
              /\ length all = length texts
              /\ exists p,
                   pipeline this' = Some p
                   /\ forall i t, texts !! i = Some t ->
                                  exists v, all !! i = Some v
                                            /\ value (extract p t) = Normal v
          | Some (Throw e) =>
              (n = 0%nat /\ pipeline this = None /\ pipeline this' = None
               /\ load_pipeline lib (modelName this) = Throw e)
              \/ (exists p t,
                    (1 <= n)%nat
                    /\ pipeline this' = Some p
                    /\ t ∈ take batchSize (drop ((n - 1) * batchSize) texts)
                    /\ value (extract p t) = Throw e)
          | None => False
          end.
Proof.
  unfold embedDocuments, _initializePipeline.
  assert (forall p,
            let '(r, made1) := embed_loop (S (length texts)) p texts 0 [] in
            exists n,
              made1 = Extract <$> take (n * batchSize) texts
              /\ match r with
                 | Some (Normal all) =>
                     made1 = Extract <$> texts
                     /\ length all = length texts
                     /\ forall i t, texts !! i = Some t ->
                                    exists v, all !! i = Some v
                                              /\ value (extract p t) = Normal v
                 | Some (Throw e) =>
                     exists t,
                       (1 <= n)%nat
                       /\ t ∈ take batchSize (drop ((n - 1) * batchSize) texts)
                       /\ value (extract p t) = Throw e
                 | None => False
                 end) as Hloop.
  { intros p. pose proof (embed_loop_spec p texts (S (length texts)) 0 []) as H.
    destruct (embed_loop _ p texts 0 []) as [r made1].
    destruct H as (n & Hmade & Hr); [lia|]. exists n. split; [done|].
    destruct r as [[all|e]|]; [| |done].
    - destruct Hr as (Hall & news & -> & Hnews). simpl in *.
      split_and!; [done|symmetry; by eapply Forall2_length|].
      intros i t Hi. by destruct (Forall2_lookup_l _ _ _ i t Hnews Hi) as (v & ? & ?); eauto.
    - destruct Hr as (Hn & t & Hin & Ht). eauto. }
  destruct (pipeline this) as [p|] eqn:Hp.
  - cbv beta iota zeta. rewrite Hp. specialize (Hloop p).
    destruct (embed_loop _ p texts 0 []) as [r made1].
    destruct Hloop as (n & Hmade & Hr). cbn [app]. split_and!; try done.
    exists n. split; [done|]. destruct r as [[all|e]|]; [| |done].
    + destruct Hr as (? & ? & ?). split_and!; try done. by exists p.
    + destruct Hr as (t & ? & ? & ?). right. by exists p, t.
  - destruct (load_pipeline lib (modelName this)) as [p|e] eqn:Hload;
      cbn [pipeline modelName].
    + specialize (Hloop p).
      destruct (embed_loop _ p texts 0 []) as [r made1].
      destruct Hloop as (n & Hmade & Hr). cbn [pipeline modelName app].
      split_and!; try done.
      exists n. split; [by rewrite Hmade|]. destruct r as [[all|e]|]; [| |done].
      * destruct Hr as (-> & ? & ?). split_and!; try done. by exists p.
      * destruct Hr as (t & ? & ? & ?). right. by exists p, t.
    + split_and!; try done. exists 0%nat. split; [done|]. by left.
Qed.

(** X17. Embedding a query and embedding the one-element list of the same
    text are the same computation: the same calls on the library, the same
    state of the embedder afterwards, and the vector of the one as the only
    element of the other, or the same error. *)
Theorem embedQuery_is_embedDocuments_of_one lib this text :
  embedDocuments lib this [text]
  = let '(r, this', made) := embedQuery lib this text in
    (Some match r with
          | Normal v => Normal [v]
          | Throw e => Throw e
          end, this', made).
Proof.
  unfold embedDocuments, embedQuery.
  destruct (_initializePipeline lib this) as [[ready this1] made].
  destruct ready as [u|e]; [|done].
  destruct (pipeline this1) as [p|]; [|done].
  simpl. unfold Promise_all, fulfilled_values. simpl.
  by destruct (value (extract p text)).
Qed.

End EmbeddingsMore.

(** * The document loader *)

Section DocumentLoaderMore.
Import VectorStore DocumentLoader.

Lemma load_files_thrown fs resolvedPath extensions files e :
  fold_left
    (fun collected file =>
       bind collected
            (fun documents => load_file fs resolvedPath extensions documents file))
    files (Throw e)
  = Throw e.
Proof. induction files as [|file rest IH]; [done|]. simpl. apply IH. Qed.

(** What reading [message] of a caught value does: it throws on [null] and
    on [undefined], and on nothing else. *)
Lemma get_message_cases error :
  (exists v, get_message error = Normal v
             /\ error <> NonError JUndefined /\ error <> NonError JNull)
  \/ (error = NonError JUndefined
      /\ get_message error
         = Throw (TypeError "Cannot read properties of undefined (reading 'message')"))
  \/ (error = NonError JNull
      /\ get_message error
         = Throw (TypeError "Cannot read properties of null (reading 'message')")).
Proof.
  destruct error as [name message|message|[]]; simpl; eauto 6.
Qed.

Lemma load_files_spec fs resolvedPath extensions files : forall documents,
  match fold_left
          (fun collected file =>
             bind collected
                  (fun documents =>
                     load_file fs resolvedPath extensions documents file))
          files (Normal documents) with
  | Normal result =>
      exists loaded,
        result = documents ++ loaded
        /\ (filename <$> loaded) `sublist_of` files
        /\ Forall (fun d =>
                     includes extensions
                       (Cli.toLowerCase (path_extname fs (filename d))) = true
                     /\ readFile fs (path_join fs resolvedPath (filename d))
                        = Normal (pageContent (document d))
                     /\ source (document d) = path_join fs resolvedPath (filename d))
                  loaded
        /\ (forall file content,
              file ∈ files ->
              includes extensions (Cli.toLowerCase (path_extname fs file)) = true ->
              readFile fs (path_join fs resolvedPath file) = Normal content ->
              exists d, d ∈ loaded /\ filename d = file
                        /\ pageContent (document d) = content)
        /\ (forall file error,
              file ∈ files ->
              includes extensions (Cli.toLowerCase (path_extname fs file)) = true ->
              readFile fs (path_join fs resolvedPath file) = Throw error ->
              error <> NonError JUndefined /\ error <> NonError JNull)
  | Throw e =>
      exists file error,
        file ∈ files
        /\ includes extensions (Cli.toLowerCase (path_extname fs file)) = true
        /\ readFile fs (path_join fs resolvedPath file) = Throw error
        /\ get_message error = Throw e
        /\ (error = NonError JUndefined \/ error = NonError JNull)
  end.
Proof.
  induction files as [|file rest IH]; intros documents.
  - simpl. exists []. split_and!; [by rewrite app_nil_r|done|done| |].
    + intros file content Hin. by apply elem_of_nil in Hin.
    + intros file error Hin. by apply elem_of_nil in Hin.
  - cbn [fold_left bind]. unfold load_file at 2.
    destruct (includes extensions (Cli.toLowerCase (path_extname fs file))) eqn:Hext.
    + destruct (readFile fs (path_join fs resolvedPath file)) as [content|error] eqn:Hread.
      * specialize (IH (documents ++ [ {| document := {| pageContent := content;
                                                         source := path_join fs resolvedPath file |};
                                          filename := file |} ])).
        destruct (fold_left _ rest _) as [result|e].
        -- destruct IH as (loaded & -> & Hsub & Hok & Hall & Hbad).
           eexists (_ :: loaded). split_and!.
           ++ by rewrite <- app_assoc.
           ++ simpl. by apply sublist_skip.
           ++ by constructor.
           ++ intros file' content' [->|Hin]%elem_of_cons Hext' Hread'.
              ** eexists. split; [by left|]. simpl. split; congruence.
              ** destruct (Hall file' content' Hin Hext' Hread') as (d & ? & ?).
                 exists d. split; [by right|done].
           ++ intros file' error' [->|Hin]%elem_of_cons Hext' Hread'; [congruence|].
              by apply (Hbad file').
        -- destruct IH as (file' & error & Hin & ? & ? & ? & ?).
           exists file', error. split_and!; try done. by right.
      * destruct (get_message_cases error) as [(v & Hv & Hu & Hn)|Hthrow].
        -- rewrite Hv. cbn [bind]. specialize (IH documents).
           destruct (fold_left _ rest _) as [result|e].
           ++ destruct IH as (loaded & -> & Hsub & Hok & Hall & Hbad).
              exists loaded. split_and!; try done; [by apply sublist_cons| |].
              ** intros file' content' [->|Hin]%elem_of_cons Hext' Hread';
                   [congruence|]. by apply Hall.
              ** intros file' error' [->|Hin]%elem_of_cons Hext' Hread'.
                 --- by assert (error' = error) as -> by congruence.
                 --- by apply (Hbad file').
           ++ destruct IH as (file' & error' & Hin & ? & ? & ? & ?).
              exists file', error'. split_and!; try done. by right.
        -- assert (exists e, get_message error = Throw e
                             /\ (error = NonError JUndefined \/ error = NonError JNull))
             as (e & He & Hor) by (destruct Hthrow as [[? ?]|[? ?]]; eauto).
           rewrite He. cbn [bind]. rewrite load_files_thrown.
           exists file, error. split_and!; try done. by left.
    + specialize (IH documents).
      destruct (fold_left _ rest _) as [result|e].
      * destruct IH as (loaded & -> & Hsub & Hok & Hall & Hbad).
        exists loaded. split_and!; try done; [by apply sublist_cons| |].
        -- intros file' content' [->|Hin]%elem_of_cons Hext' Hread';
             [congruence|]. by apply Hall.
        -- intros file' error' [->|Hin]%elem_of_cons Hext' Hread';
             [congruence|]. by apply (Hbad file').
      * destruct IH as (file' & error' & Hin & ? & ? & ? & ?).
        exists file', error'. split_and!; try done. by right.
Qed.

(** X18. What [loadDocumentsFromDirectory] loads. It fails when the
    directory cannot be listed, with the error of the listing, and when the
    read of a listed file of a wanted extension rejects with [null] or
    [undefined], with the [TypeError] that reading [message] of such a value
    throws inside the warning; it fails in no other case. A file whose read
    fails with anything else is left out and the others are still loaded.
    The documents it returns are those of the listed files, in the order of
    the listing, whose extension put in lower case is one of the extensions
    asked for and which could be read: each carries the content that was
    read, the joined path as its source and the listed name as its file name,
    and no such file is missing. [loadAndProcessDocuments] hands exactly
    these, for the extensions [.txt] and [.md], to the splitter, and never
    calls the splitter when the loading failed. *)
Theorem loaded_documents fs resolvedPath extensions :
  match loadDocumentsFromDirectory fs resolvedPath extensions with
  | Throw e =>
      readdir fs = Throw e
      \/ exists files file error,
           readdir fs = Normal files
           /\ file ∈ files
           /\ includes extensions (Cli.toLowerCase (path_extname fs file)) = true
           /\ readFile fs (path_join fs resolvedPath file) = Throw error
           /\ (error = NonError JUndefined
               /\ e = TypeError "Cannot read properties of undefined (reading 'message')"
               \/ error = NonError JNull
                  /\ e = TypeError "Cannot read properties of null (reading 'message')")
  | Normal documents =>
      exists files,
        readdir fs = Normal files
        /\ (filename <$> documents) `sublist_of` files
        /\ (forall d, d ∈ documents ->
              includes extensions
                (Cli.toLowerCase (path_extname fs (filename d))) = true
              /\ readFile fs (path_join fs resolvedPath (filename d))
                 = Normal (pageContent (document d))
              /\ source (document d) = path_join fs resolvedPath (filename d))
        /\ (forall file content,
              file ∈ files ->
              includes extensions (Cli.toLowerCase (path_extname fs file)) = true ->
              readFile fs (path_join fs resolvedPath file) = Normal content ->
              exists d, d ∈ documents /\ filename d = file
                        /\ pageContent (document d) = content)
        /\ (forall file error,
              file ∈ files ->
              includes extensions (Cli.toLowerCase (path_extname fs file)) = true ->
              readFile fs (path_join fs resolvedPath file) = Throw error ->
              error <> NonError JUndefined /\ error <> NonError JNull)
  end
  /\ (forall splitDocuments,
        loadAndProcessDocuments fs splitDocuments resolvedPath
        = match loadDocumentsFromDirectory fs resolvedPath default_extensions with
          | Normal documents => splitDocuments documents
          | Throw e => Throw e
          end)
  /\ (forall files name message,
        readdir fs = Normal files ->
        (forall file, file ∈ files ->
           readFile fs (path_join fs resolvedPath file) = Throw (ErrorObj name message)) ->
        loadDocumentsFromDirectory fs resolvedPath extensions = Normal []).
Proof.
  split_and!; [|done|].
  - unfold loadDocumentsFromDirectory.
    destruct (readdir fs) as [files|e]; [|by left]. cbn [bind].
    pose proof (load_files_spec fs resolvedPath extensions files []) as H.
    destruct (fold_left _ files _) as [result|e].
    + destruct H as (loaded & -> & Hsub & Hok & Hall & Hbad).
      exists files. simpl. split_and!; try done.
      intros d Hd. by apply (proj1 (Forall_forall _ _) Hok).
    + destruct H as (file & error & Hin & Hext & Hread & Hmsg & Hor).
      right. exists files, file, error. split_and!; try done.
      destruct Hor as [-> | ->]; simpl in Hmsg; injection Hmsg as <-; eauto.
  - intros files name message Hdir Hall. unfold loadDocumentsFromDirectory.
    rewrite Hdir. cbn [bind].
    pose proof (load_files_spec fs resolvedPath extensions files []) as H.
    destruct (fold_left _ files _) as [result|e].
    + destruct H as (loaded & -> & Hsub & Hok & _). simpl. f_equal.
      destruct loaded as [|d loaded]; [done|].
      apply Forall_cons in Hok as [(_ & Hread & _) _].
      assert (filename d ∈ files) as Hin.
      { apply (elem_of_submseteq (filename <$> d :: loaded)).
        - simpl. by left.
        - by apply sublist_submseteq. }
      rewrite (Hall _ Hin) in Hread. done.
    + destruct H as (file & error & Hin & _ & Hread & _ & Hor).
      rewrite (Hall _ Hin) in Hread. injection Hread as <-.
      by destruct Hor.
Qed.

End DocumentLoaderMore.

(** * The configuration *)

Section ConfigMore.
Import Rag.

Lemma env_or_delete env name other fallback :
  env !! name = Some EmptyString ->
  env_or (delete name env) other fallback = env_or env other fallback.
Proof.
  intros Hname. unfold env_or. destruct (decide (other = name)) as [->|Hne].
  - by rewrite lookup_delete_eq, Hname.
  - by rewrite lookup_delete_ne.
Qed.

Lemma parseInt_number input : typeof (parseInt input) = "number".
Proof.
  unfold parseInt. destruct (strip_sign _) as [sign s1].
  destruct (strip_hex_prefix s1) as [radix s2].
  destruct (parse_digits radix None s2) as [n|]; [|done].
  by destruct (nearest_double n).
Qed.

(** X19. An environment variable that is set to the empty string counts
    as not set: the configuration, the service that is constructed and the
    whole process start as they would without it, so each empty setting falls
    back to its default. Whatever the environment holds, the four numeric
    settings are numbers ([NaN] included), never strings or [undefined]. *)
Theorem empty_setting_is_no_setting env name parsed_temperature :
  env !! name = Some EmptyString ->
  new_config env parsed_temperature
  = new_config (delete name env) parsed_temperature
  /\ boot env parsed_temperature = boot (delete name env) parsed_temperature
  /\ typeof (topK (new_config env parsed_temperature)) = "number"
  /\ typeof (maxTokens (new_config env parsed_temperature)) = "number"
  /\ typeof (chunkSize (new_config env parsed_temperature)) = "number"
  /\ typeof (chunkOverlap (new_config env parsed_temperature)) = "number".
Proof.
  intros Hname.
  assert (new_config env parsed_temperature
          = new_config (delete name env) parsed_temperature) as Hcfg.
  { unfold new_config. by rewrite !(env_or_delete env name _ _ Hname). }
  split_and!; [done| |apply parseInt_number..].
  unfold boot, new_RagService. by rewrite Hcfg.
Qed.

Lemma empty_setting_is_no_setting_witness :
  getTopK (new_RagService {[ "TOP_K" := EmptyString ]} (7 # 10)) = JNum 3.
Proof.
  unfold getTopK, new_RagService. cbn [config].
  destruct (empty_setting_is_no_setting {[ "TOP_K" := EmptyString ]} "TOP_K"
              (7 # 10)) as (-> & _); [by vm_compute|].
  by vm_compute.
Defined.

End ConfigMore.
